(** * IAVL node algebra: a shallow embedding of [iavl_node.go]

    The file follows the Go source function by function.  Go's [[]byte] is a
    slice that may be [nil]; several branches of the source test for [nil], so
    a slice is an [option] of a byte list.  Integers are [Z] with the
    wrap-around of their Go type written out.  Nodes are heap objects reached
    through pointers in Go; here a node is a value of an inductive record and
    a resident child is a sub-term.  Access to a child that is not resident
    goes through the node database of the tree, so the recursive operations
    take fuel, and run-time panics are values of the result type. *)

From Stdlib Require Import ZArith List Bool Lia String Ascii.
From Stdlib Require Import Strings.Byte.
Import ListNotations.
Local Open Scope Z_scope.

Set Implicit Arguments.
Set Warnings "-register-all".

(** ** Byte slices *)

Definition bytes := list byte.

(** A Go byte slice: [None] is [nil]. *)
Definition slice := option bytes.

Definition slice_data (s : slice) : bytes :=
  match s with Some b => b | None => [] end.

Definition is_nil (s : slice) : bool :=
  match s with Some _ => false | None => true end.

Definition is_some {A} (o : option A) : bool :=
  match o with Some _ => true | None => false end.

(** A slice written as an ASCII string. *)
Definition bs (s : string) : slice := Some (list_byte_of_string s).

Definition byte_val (b : byte) : Z := Z.of_N (Byte.to_N b).

(** Lexicographic comparison of byte lists, as [-1], [0] or [1]. *)
Fixpoint compare_bytes (a b : bytes) : Z :=
  match a, b with
  | [], [] => 0
  | [], _ :: _ => -1
  | _ :: _, [] => 1
  | x :: a', y :: b' =>
      if byte_val x <? byte_val y then -1
      else if byte_val y <? byte_val x then 1
      else compare_bytes a' b'
  end.

(** [bytes.Compare]: a [nil] slice compares as the empty slice. *)
Definition bytes_Compare (a b : slice) : Z :=
  compare_bytes (slice_data a) (slice_data b).

(** [bytes.Equal]. *)
Definition bytes_Equal (a b : slice) : bool :=
  bytes_Compare a b =? 0.

(** ** Machine integers *)

(** Reduction of an integer to the signed [w]-bit range. *)
Definition wrap_signed (w : Z) (x : Z) : Z :=
  (x + 2 ^ (w - 1)) mod 2 ^ w - 2 ^ (w - 1).

Definition int8 (x : Z) : Z := wrap_signed 8 x.
Definition int64 (x : Z) : Z := wrap_signed 64 x.

Definition is_int8 (x : Z) : Prop := -128 <= x < 128.
Definition is_int (x : Z) : Prop := - 2 ^ 63 <= x < 2 ^ 63.
Definition is_uint64 (x : Z) : Prop := 0 <= x < 2 ^ 64.

(** Modelled from the spec: [maxInt8] is declared in another file of the
    package; the spec gives the height of an inner node as one more than the
    maximum of the heights of its children. *)
Definition maxInt8 (a b : Z) : Z := Z.max a b.

(** ** Results of operations *)

(** The ways in which the source stops abnormally. *)
Inductive panic : Type :=
| PanicCopyLeaf              (* "Why are you copying a value node?" *)
| PanicBalancePersisted      (* "Unexpected balance() call on persisted node" *)
| PanicHashLeftNil           (* "node.leftHash was nil in writeHashBytes" *)
| PanicHashRightNil          (* "node.rightHash was nil in writeHashBytes" *)
| PanicStoreLeftNil          (* "node.leftHash was nil in writeBytes" *)
| PanicStoreRightNil         (* "node.rightHash was nil in writeBytes" *)
| PanicOutOfRange            (* run-time error: index or slice bound *)
| PanicNilDatabase           (* method call through a nil node database *)
| PanicStoreMiss.            (* the node database has no node for a hash *)

Inductive outcome (A : Type) : Type :=
| Ok (a : A)
| Panicked (p : panic)
| OutOfFuel.

Arguments Ok {A} a.
Arguments Panicked {A} p.
Arguments OutOfFuel {A}.

Definition bindO {A B} (m : outcome A) (f : A -> outcome B) : outcome B :=
  match m with
  | Ok a => f a
  | Panicked p => Panicked p
  | OutOfFuel => OutOfFuel
  end.

Notation "x <~ m ;; k" := (bindO m (fun x => k))
  (at level 61, m at next level, right associativity).
Notation "' pat <~ m ;; k" := (bindO m (fun x => match x with pat => k end))
  (at level 61, pat pattern, m at next level, right associativity).

(** ** Nodes *)

Inductive IAVLNode : Type := mkIAVLNode {
  key : slice;
  value : slice;
  version : Z;                    (* uint64 *)
  height : Z;                     (* int8 *)
  size : Z;                       (* int *)
  hash : slice;
  leftHash : slice;
  leftNode : option IAVLNode;     (* nil pointer is None *)
  rightHash : slice;
  rightNode : option IAVLNode;
  persisted : bool }.

Definition NewIAVLNode (k v : slice) : IAVLNode :=
  {| key := k; value := v; version := 0; height := 0; size := 1;
     hash := None; leftHash := None; leftNode := None;
     rightHash := None; rightNode := None; persisted := false |}.

Definition isLeaf (node : IAVLNode) : bool := height node =? 0.

Definition _copy (node : IAVLNode) : outcome IAVLNode :=
  if isLeaf node then Panicked PanicCopyLeaf
  else Ok {| key := key node;
             value := None;
             version := version node;
             height := height node;
             size := size node;
             hash := None;
             leftHash := leftHash node;
             leftNode := leftNode node;
             rightHash := rightHash node;
             rightNode := rightNode node;
             persisted := false |}.

(** Field updates, for the assignments of the source. *)
Definition with_key (k : slice) (n : IAVLNode) : IAVLNode :=
  {| key := k; value := value n; version := version n; height := height n;
     size := size n; hash := hash n; leftHash := leftHash n;
     leftNode := leftNode n; rightHash := rightHash n;
     rightNode := rightNode n; persisted := persisted n |}.

Definition with_hash (h : slice) (n : IAVLNode) : IAVLNode :=
  {| key := key n; value := value n; version := version n; height := height n;
     size := size n; hash := h; leftHash := leftHash n;
     leftNode := leftNode n; rightHash := rightHash n;
     rightNode := rightNode n; persisted := persisted n |}.

Definition with_left (h : slice) (c : option IAVLNode) (n : IAVLNode) : IAVLNode :=
  {| key := key n; value := value n; version := version n; height := height n;
     size := size n; hash := hash n; leftHash := h;
     leftNode := c; rightHash := rightHash n;
     rightNode := rightNode n; persisted := persisted n |}.

Definition with_right (h : slice) (c : option IAVLNode) (n : IAVLNode) : IAVLNode :=
  {| key := key n; value := value n; version := version n; height := height n;
     size := size n; hash := hash n; leftHash := leftHash n;
     leftNode := leftNode n; rightHash := h;
     rightNode := c; persisted := persisted n |}.

Definition with_height_size (h s : Z) (n : IAVLNode) : IAVLNode :=
  {| key := key n; value := value n; version := version n; height := h;
     size := s; hash := hash n; leftHash := leftHash n;
     leftNode := leftNode n; rightHash := rightHash n;
     rightNode := rightNode n; persisted := persisted n |}.

(** Induction over a node and its resident children. *)
Fixpoint IAVLNode_tree_ind (P : IAVLNode -> Prop)
    (step : forall n,
        (forall l, leftNode n = Some l -> P l) ->
        (forall r, rightNode n = Some r -> P r) -> P n)
    (n : IAVLNode) {struct n} : P n.
Proof.
  apply step; destruct n as [k v ve h s ha lh ln rh rn p]; simpl.
  - intros l E. destruct ln as [l'|]; [|discriminate].
    injection E as <-. exact (IAVLNode_tree_ind P step l').
  - intros r E. destruct rn as [r'|]; [|discriminate].
    injection E as <-. exact (IAVLNode_tree_ind P step r').
Defined.

(** ** The tree handle and its node database *)

(** Modelled from the spec: the node database belongs to another file of the
    package.  The spec gives it two operations: [GetNode], which resolves a
    hash to a node or fails, and returns the node with the flag [persisted]
    set and with the lookup key as its hash; and [RemoveNode], which records
    an orphan. *)
Record nodeDB : Type := mkNodeDB {
  db_nodes : list (bytes * IAVLNode);
  db_orphans : list IAVLNode }.

(** Modelled from the spec: the tree handle, of which the node operations use
    only the field [ndb]; a tree without database has [ndb = None]. *)
Record IAVLTree : Type := mkIAVLTree { ndb : option nodeDB }.

Fixpoint db_lookup (h : bytes) (l : list (bytes * IAVLNode)) : option IAVLNode :=
  match l with
  | [] => None
  | (h', n) :: l' => if compare_bytes h h' =? 0 then Some n else db_lookup h l'
  end.

Definition loaded (h : slice) (n : IAVLNode) : IAVLNode :=
  {| key := key n; value := value n; version := version n; height := height n;
     size := size n; hash := h; leftHash := leftHash n;
     leftNode := leftNode n; rightHash := rightHash n;
     rightNode := rightNode n; persisted := true |}.

Definition GetNode (t : IAVLTree) (h : slice) : outcome IAVLNode :=
  match ndb t with
  | None => Panicked PanicNilDatabase
  | Some db =>
      match db_lookup (slice_data h) (db_nodes db) with
      | Some n => Ok (loaded h n)
      | None => Panicked PanicStoreMiss
      end
  end.

Definition RemoveNode (db : nodeDB) (node : IAVLNode) : nodeDB :=
  {| db_nodes := db_nodes db; db_orphans := db_orphans db ++ [node] |}.

(** Computations over a state that may panic.  Operations that report
    orphans thread the tree handle; a traversal threads the state of its
    callback. *)
Definition ST (S A : Type) : Type := S -> outcome (A * S).

Definition M (A : Type) : Type := ST IAVLTree A.

Definition ret {S A} (a : A) : ST S A := fun s => Ok (a, s).

Definition bindM {S A B} (m : ST S A) (f : A -> ST S B) : ST S B :=
  fun s => match m s with
           | Ok (a, s') => f a s'
           | Panicked p => Panicked p
           | OutOfFuel => OutOfFuel
           end.

(** A computation without effect on the state. *)
Definition lift {S A} (m : outcome A) : ST S A :=
  fun s => match m with
           | Ok a => Ok (a, s)
           | Panicked p => Panicked p
           | OutOfFuel => OutOfFuel
           end.

(** A computation that reads the tree handle. *)
Definition rd {A} (f : IAVLTree -> outcome A) : M A :=
  fun t => lift (f t) t.

Notation "x <- m ;; k" := (bindM m (fun x => k))
  (at level 61, m at next level, right associativity).
Notation "' pat <- m ;; k" := (bindM m (fun x => match x with pat => k end))
  (at level 61, pat pattern, m at next level, right associativity).

Definition getLeftNode (t : IAVLTree) (node : IAVLNode) : outcome IAVLNode :=
  match leftNode node with
  | Some l => Ok l
  | None => GetNode t (leftHash node)
  end.

Definition getRightNode (t : IAVLTree) (node : IAVLNode) : outcome IAVLNode :=
  match rightNode node with
  | Some r => Ok r
  | None => GetNode t (rightHash node)
  end.

Definition removeOrphan (node : IAVLNode) : M unit :=
  fun t =>
    if negb (persisted node) then Ok (tt, t)
    else match ndb t with
         | None => Ok (tt, t)
         | Some db => Ok (tt, {| ndb := Some (RemoveNode db node) |})
         end.

(** ** Lookup *)

Fixpoint has (fuel : nat) (t : IAVLTree) (node : IAVLNode) (k : slice)
  : outcome bool :=
  match fuel with
  | O => OutOfFuel
  | S fuel' =>
      if bytes_Equal (key node) k then Ok true
      else if isLeaf node then Ok false
      else if bytes_Compare k (key node) <? 0 then
        l <~ getLeftNode t node ;; has fuel' t l k
      else
        r <~ getRightNode t node ;; has fuel' t r k
  end.

(** ** Height, size and balance *)

Definition calcHeightAndSize (t : IAVLTree) (node : IAVLNode)
  : outcome IAVLNode :=
  l <~ getLeftNode t node ;;
  r <~ getRightNode t node ;;
  Ok (with_height_size (int8 (maxInt8 (height l) (height r) + 1))
                       (int64 (size l + size r)) node).

Definition calcBalance (t : IAVLTree) (node : IAVLNode) : outcome Z :=
  l <~ getLeftNode t node ;;
  r <~ getRightNode t node ;;
  Ok (height l - height r).

(** ** Rotations

    In the source the copy of [node] is linked below the copy of its child
    and is assigned to afterwards; the child sees these assignments through
    the pointer.  Here the copy of [node] is completed first and linked
    then.  The hash stored with the link is the one the copy has when the
    link is made, which no later assignment changes. *)

Definition rotateRight (node : IAVLNode) : M IAVLNode :=
  node <- lift (_copy node) ;;
  l <- rd (fun t => getLeftNode t node) ;;
  _ <- removeOrphan l ;;
  _l <- lift (_copy l) ;;
  let _lrHash := rightHash _l in
  let _lrCached := rightNode _l in
  let node := with_left _lrHash _lrCached node in
  node <- rd (fun t => calcHeightAndSize t node) ;;
  let _l := with_right (hash node) (Some node) _l in
  _l <- rd (fun t => calcHeightAndSize t _l) ;;
  ret _l.

Definition rotateLeft (node : IAVLNode) : M IAVLNode :=
  node <- lift (_copy node) ;;
  r <- rd (fun t => getRightNode t node) ;;
  _ <- removeOrphan r ;;
  _r <- lift (_copy r) ;;
  let _rlHash := leftHash _r in
  let _rlCached := leftNode _r in
  let node := with_right _rlHash _rlCached node in
  node <- rd (fun t => calcHeightAndSize t node) ;;
  let _r := with_left (hash node) (Some node) _r in
  _r <- rd (fun t => calcHeightAndSize t _r) ;;
  ret _r.

Definition balance (node : IAVLNode) : M IAVLNode :=
  if persisted node then fun _ => Panicked PanicBalancePersisted
  else
    b <- rd (fun t => calcBalance t node) ;;
    if 1 <? b then
      l <- rd (fun t => getLeftNode t node) ;;
      lb <- rd (fun t => calcBalance t l) ;;
      if 0 <=? lb then
        (* Left Left Case *)
        rotateRight node
      else
        (* Left Right Case *)
        left <- rd (fun t => getLeftNode t node) ;;
        _ <- removeOrphan left ;;
        left' <- rotateLeft left ;;
        let node := with_left None (Some left') node in
        rotateRight node
    else if b <? -1 then
      r <- rd (fun t => getRightNode t node) ;;
      rb <- rd (fun t => calcBalance t r) ;;
      if rb <=? 0 then
        (* Right Right Case *)
        rotateLeft node
      else
        (* Right Left Case *)
        right <- rd (fun t => getRightNode t node) ;;
        _ <- removeOrphan right ;;
        right' <- rotateRight right ;;
        let node := with_right None (Some right') node in
        rotateLeft node
    else
      (* Nothing changed *)
      ret node.

(** ** Insertion *)

(** The inner node that [set] builds over two leaves. *)
Definition newInner (k : slice) (l r : IAVLNode) : IAVLNode :=
  {| key := k; value := None; version := 0; height := 1; size := 2;
     hash := None; leftHash := None; leftNode := Some l;
     rightHash := None; rightNode := Some r; persisted := false |}.

Fixpoint set (fuel : nat) (node : IAVLNode) (k v : slice)
  : M (IAVLNode * bool * list IAVLNode) :=
  match fuel with
  | O => fun _ => OutOfFuel
  | S fuel' =>
      if isLeaf node then
        let c := bytes_Compare k (key node) in
        if c =? -1 then
          ret (newInner (key node) (NewIAVLNode k v) node, false, [])
        else if c =? 1 then
          ret (newInner k node (NewIAVLNode k v), false, [])
        else
          ret (NewIAVLNode k v, true, [node])
      else
        (* line 275: orphaned = append(orphaned, node) *)
        let orphaned := [] ++ [node] in
        node <- lift (_copy node) ;;
        if bytes_Compare k (key node) <? 0 then
          l <- rd (fun t => getLeftNode t node) ;;
          (* line 278: the call assigns all three results, orphaned too *)
          '(newLeft, updated, orphaned) <- set fuel' l k v ;;
          let node := with_left None (Some newLeft) node in
          if (updated : bool) then ret (node, updated, orphaned)
          else
            node <- rd (fun t => calcHeightAndSize t node) ;;
            node <- balance node ;;
            ret (node, updated, orphaned)
        else
          r <- rd (fun t => getRightNode t node) ;;
          (* line 281 *)
          '(newRight, updated, orphaned) <- set fuel' r k v ;;
          let node := with_right None (Some newRight) node in
          if (updated : bool) then ret (node, updated, orphaned)
          else
            node <- rd (fun t => calcHeightAndSize t node) ;;
            node <- balance node ;;
            ret (node, updated, orphaned)
  end.

(** ** Removal *)

(** The results of [remove]: [newHash], [newNode], [newKey], [value],
    [removed]. *)
Definition removal : Type := (slice * option IAVLNode * slice * slice * bool)%type.

Fixpoint remove (fuel : nat) (node : IAVLNode) (k : slice) : M removal :=
  match fuel with
  | O => fun _ => OutOfFuel
  | S fuel' =>
      if isLeaf node then
        if bytes_Equal k (key node) then
          _ <- removeOrphan node ;;
          ret (None, None, None, value node, true)
        else
          ret (hash node, Some node, None, None, false)
      else if bytes_Compare k (key node) <? 0 then
        l <- rd (fun t => getLeftNode t node) ;;
        '(newLeftHash, newLeftNode, newKey, val, removed) <- remove fuel' l k ;;
        if negb removed then
          ret (hash node, Some node, None, val, false)
        else if is_nil newLeftHash && negb (is_some newLeftNode) then
          (* left node held value, was removed *)
          ret (rightHash node, rightNode node, key node, val, true)
        else
          _ <- removeOrphan node ;;
          node <- lift (_copy node) ;;
          let node := with_left newLeftHash newLeftNode node in
          node <- rd (fun t => calcHeightAndSize t node) ;;
          node <- balance node ;;
          ret (hash node, Some node, newKey, val, true)
      else
        r <- rd (fun t => getRightNode t node) ;;
        '(newRightHash, newRightNode, newKey, val, removed) <- remove fuel' r k ;;
        if negb removed then
          ret (hash node, Some node, None, val, false)
        else if is_nil newRightHash && negb (is_some newRightNode) then
          (* right node held value, was removed *)
          ret (leftHash node, leftNode node, None, val, true)
        else
          _ <- removeOrphan node ;;
          node <- lift (_copy node) ;;
          let node := with_right newRightHash newRightNode node in
          let node := if negb (is_nil newKey) then with_key newKey node
                      else node in
          node <- rd (fun t => calcHeightAndSize t node) ;;
          node <- balance node ;;
          ret (hash node, Some node, None, val, true)
  end.

(** ** Traversal

    The callback is a Go closure: it returns the stop flag and may change
    state of its own, which is the state threaded here. *)

Section Traversal.
Variable S : Type.

Fixpoint traverseInRange (fuel : nat) (t : IAVLTree) (node : IAVLNode)
    (start end_ : slice) (ascending inclusive : bool)
    (cb : IAVLNode -> ST S bool) : ST S bool :=
  match fuel with
  | O => fun _ => OutOfFuel
  | Datatypes.S fuel' =>
      let afterStart := is_nil start || (bytes_Compare start (key node) <=? 0) in
      let beforeEnd := is_nil end_ || (bytes_Compare (key node) end_ <? 0) in
      let beforeEnd :=
        if inclusive
        then is_nil end_ || (bytes_Compare (key node) end_ <=? 0)
        else beforeEnd in
      let stop := false in
      stop <- (if afterStart && beforeEnd then cb node else ret stop) ;;
      if (stop : bool) then ret stop
      else if isLeaf node then ret stop
      else if ascending then
        (* check lower nodes, then higher *)
        stop <- (if afterStart then
                   l <- lift (getLeftNode t node) ;;
                   traverseInRange fuel' t l start end_ ascending inclusive cb
                 else ret stop) ;;
        if (stop : bool) then ret stop
        else
          stop <- (if beforeEnd then
                     r <- lift (getRightNode t node) ;;
                     traverseInRange fuel' t r start end_ ascending inclusive cb
                   else ret stop) ;;
          ret stop
      else
        (* check the higher nodes first *)
        stop <- (if beforeEnd then
                   r <- lift (getRightNode t node) ;;
                   traverseInRange fuel' t r start end_ ascending inclusive cb
                 else ret stop) ;;
        if (stop : bool) then ret stop
        else
          stop <- (if afterStart then
                     l <- lift (getLeftNode t node) ;;
                     traverseInRange fuel' t l start end_ ascending inclusive cb
                   else ret stop) ;;
          ret stop
  end.

(** [traverse] is a wrapper over [traverseInRange] for the whole tree. *)
Definition traverse (fuel : nat) (t : IAVLTree) (node : IAVLNode)
    (ascending : bool) (cb : IAVLNode -> ST S bool) : ST S bool :=
  traverseInRange fuel t node None None ascending false cb.
End Traversal.

(** ** The wire codec and the digest

    The primitives of [go-wire] and the RIPEMD-160 digest come from
    libraries outside the package; the node code is stated over any
    implementation of them.  A writer call appends to the buffer it is given;
    the buffers of the source are in memory, so no write fails. *)

Inductive DecodeError : Type :=
| ErrInsufficientData
| ErrInvalidLength
| ErrVarintOverflow
| ErrNegativeZero.

(** The result [(x, n, err)] of a [Get] primitive: the value and the number
    of bytes read, or the error. *)
Definition got (A : Type) : Type := (A * Z + DecodeError)%type.

Class WireCodec : Type := {
  WriteInt8 : Z -> bytes;
  WriteVarint : Z -> bytes;
  WriteByteSlice : slice -> bytes;
  WriteUint64 : Z -> bytes;
  GetVarint : bytes -> got Z;
  GetByteSlice : bytes -> got slice;
  GetUint64 : bytes -> outcome Z }.

Class Hasher : Type := {
  (** [h := ripemd160.New(); h.Write(b); h.Sum(nil)] *)
  ripemd160_Sum : bytes -> bytes }.

Definition len (b : bytes) : Z := Z.of_nat (List.length b).

(** The slice expression [buf[n:]]. *)
Definition slice_from (n : Z) (buf : bytes) : outcome bytes :=
  if (n <? 0) || (len buf <? n) then Panicked PanicOutOfRange
  else Ok (skipn (Z.to_nat n) buf).

(** What [MakeIAVLNode] returns: a node, or the error of a primitive. *)
Inductive decoded : Type :=
| Decoded (node : IAVLNode)
| DecodeFailed (err : DecodeError).

Definition bindG {A} (g : got A) (f : A -> Z -> outcome decoded)
  : outcome decoded :=
  match g with
  | inl (a, n) => f a n
  | inr err => Ok (DecodeFailed err)
  end.

Notation "'GET' x n <- g ;; k" := (bindG g (fun x n => k))
  (at level 61, x name, n name, g at next level, right associativity).

Section Codec.
Context {wire : WireCodec} {hasher : Hasher}.

Definition MakeIAVLNode (buf : bytes) : outcome decoded :=
  (* Read node header. *)
  match buf with
  | [] => Panicked PanicOutOfRange            (* buf[0] *)
  | b0 :: _ =>
      let node_height := int8 (byte_val b0) in
      let n := 1 in
      buf <~ slice_from n buf ;;
      GET node_size n <- GetVarint buf ;;
      buf <~ slice_from n buf ;;
      GET node_key n <- GetByteSlice buf ;;
      buf <~ slice_from n buf ;;
      node_version <~ GetUint64 buf ;;
      buf <~ slice_from 8 buf ;;
      (* Read node body. *)
      if node_height =? 0 then
        GET node_value n <- GetByteSlice buf ;;
        Ok (Decoded {| key := node_key; value := node_value;
                       version := node_version; height := node_height;
                       size := node_size; hash := None;
                       leftHash := None; leftNode := None;
                       rightHash := None; rightNode := None;
                       persisted := false |})
      else
        (* Read children. *)
        GET leftHash n <- GetByteSlice buf ;;
        buf <~ slice_from n buf ;;
        GET rightHash _n <- GetByteSlice buf ;;
        Ok (Decoded {| key := node_key; value := None;
                       version := node_version; height := node_height;
                       size := node_size; hash := None;
                       leftHash := leftHash; leftNode := None;
                       rightHash := rightHash; rightNode := None;
                       persisted := false |})
  end.

(** The result of [hashWithCount] and of [writeHashBytes] includes the node
    after the call: both store hashes in the node and in its resident
    descendants. *)
Definition hashed : Type := (IAVLNode * slice * Z)%type.

(** [writeHashBytes], with the function it calls on the children as an
    argument; the result is the node after the call, the bytes written,
    their number [n] and [hashCount]. *)
Definition writeHashBytesWith (hashWithCount : IAVLNode -> outcome hashed)
    (node : IAVLNode) : outcome (IAVLNode * bytes * Z * Z) :=
  (* height & size *)
  let w := WriteInt8 (height node) ++ WriteVarint (size node) in
  (* key is not written for inner nodes, unlike writeBytes *)
  if isLeaf node then
    (* key & value *)
    let w := w ++ WriteByteSlice (key node) in
    let w := w ++ WriteByteSlice (value node) in
    let w := w ++ WriteUint64 (version node) in
    Ok (node, w, len w, 0)
  else
    let hashCount := 0 in
    (* the right child pointer, which the assignments to the left hash
       below leave as it is *)
    let right := rightNode node in
    (* left *)
    '(node, hashCount) <~
      match leftNode node with
      | Some l =>
          '(l, leftHash, leftCount) <~ hashWithCount l ;;
          Ok (with_left leftHash (Some l) node, hashCount + leftCount)
      | None => Ok (node, hashCount)
      end ;;
    if is_nil (leftHash node) then Panicked PanicHashLeftNil
    else
      let w := w ++ WriteByteSlice (leftHash node) in
      (* right *)
      '(node, hashCount) <~
        match right with
        | Some r =>
            '(r, rightHash, rightCount) <~ hashWithCount r ;;
            Ok (with_right rightHash (Some r) node, hashCount + rightCount)
        | None => Ok (node, hashCount)
        end ;;
      if is_nil (rightHash node) then Panicked PanicHashRightNil
      else
        let w := w ++ WriteByteSlice (rightHash node) in
        Ok (node, w, len w, hashCount).

Fixpoint hashWithCount (node : IAVLNode) {struct node} : outcome hashed :=
  match hash node with
  | Some h => Ok (node, Some h, 0)
  | None =>
      '(node, buf, _n, hashCount) <~ writeHashBytesWith hashWithCount node ;;
      let h := Some (ripemd160_Sum buf) in
      Ok (with_hash h node, h, hashCount + 1)
  end.

Definition writeHashBytes (node : IAVLNode)
  : outcome (IAVLNode * bytes * Z * Z) :=
  writeHashBytesWith hashWithCount node.

(** [writeBytes]: the bytes written and their number. *)
Definition writeBytes (node : IAVLNode) : outcome (bytes * Z) :=
  (* node header *)
  let w := WriteInt8 (height node) ++ WriteVarint (size node) in
  (* key (unlike writeHashBytes, key is written for inner nodes) *)
  let w := w ++ WriteByteSlice (key node) in
  let w := w ++ WriteUint64 (version node) in
  if isLeaf node then
    (* value *)
    let w := w ++ WriteByteSlice (value node) in
    Ok (w, len w)
  else
    (* left *)
    if is_nil (leftHash node) then Panicked PanicStoreLeftNil
    else
      let w := w ++ WriteByteSlice (leftHash node) in
      (* right *)
      if is_nil (rightHash node) then Panicked PanicStoreRightNil
      else
        let w := w ++ WriteByteSlice (rightHash node) in
        Ok (w, len w).
End Codec.

(** ** Concrete primitives

    The statements about the node code hold for every codec and digest.
    The scenarios of the specification are evaluated with the two models
    below. *)

Definition byte_of_Z (z : Z) : byte :=
  match Byte.of_N (Z.to_N (z mod 256)) with
  | Some b => b
  | None => x00
  end.

(** Big-endian bytes of [x], [n] of them. *)
Fixpoint be_bytes (n : nat) (x : Z) : bytes :=
  match n with
  | O => []
  | S n' => byte_of_Z (Z.shiftr x (8 * Z.of_nat n')) :: be_bytes n' x
  end.

(** The number that a list of bytes denotes in big-endian order. *)
Definition be_value (b : bytes) : Z :=
  fold_left (fun acc x => acc * 256 + byte_val x) b 0.

(** Little-endian bytes of [x], [n] of them. *)
Fixpoint le_bytes (n : nat) (x : Z) : bytes :=
  match n with
  | O => []
  | S n' => byte_of_Z x :: le_bytes n' (Z.shiftr x 8)
  end.

Definition le_value (b : bytes) : Z :=
  fold_right (fun x acc => byte_val x + 256 * acc) 0 b.

(** A model of the [go-wire] primitives that the node code calls: an 8-bit
    integer is one byte, a 64-bit integer is eight bytes in big-endian
    order, a varint is a byte with the number of bytes that follow (and
    [0xF0] added for a negative number) followed by the magnitude in
    big-endian order, and a byte slice is its length as a varint followed by
    its bytes. *)
Module GoWire.

Definition uvarintSize (i : Z) : Z :=
  if i =? 0 then 0
  else if i <? 2 ^ 8 then 1
  else if i <? 2 ^ 16 then 2
  else if i <? 2 ^ 24 then 3
  else if i <? 2 ^ 32 then 4
  else if i <? 2 ^ 40 then 5
  else if i <? 2 ^ 48 then 6
  else if i <? 2 ^ 56 then 7
  else 8.

Definition WriteInt8 (i : Z) : bytes := [byte_of_Z i].

Definition WriteUint64 (i : Z) : bytes := be_bytes 8 i.

Definition WriteVarint (i : Z) : bytes :=
  let negate := i <? 0 in
  let i := if negate then int64 (- i) else i in
  (* the magnitude as an unsigned 64-bit integer *)
  let u := i mod 2 ^ 64 in
  let size := uvarintSize u in
  byte_of_Z (if negate then size + 240 else size)
    :: be_bytes (Z.to_nat size) u.

Definition WriteByteSlice (bz : slice) : bytes :=
  WriteVarint (len (slice_data bz)) ++ slice_data bz.

Definition GetVarint (buf : bytes) : got Z :=
  match buf with
  | [] => inr ErrInsufficientData
  | b0 :: rest =>
      let size := byte_val b0 in
      let negate := Z.shiftr size 4 =? 15 in
      let size := if negate then Z.land size 15 else size in
      if 8 <? size then inr ErrVarintOverflow
      else if size =? 0 then
        if negate then inr ErrNegativeZero else inl (0, 1)
      else if len rest <? size then inr ErrInsufficientData
      else
        let i := int64 (be_value (firstn (Z.to_nat size) rest)) in
        inl (if negate then int64 (- i) else i, 1 + size)
  end.

Definition GetByteSlice (buf : bytes) : got slice :=
  match GetVarint buf with
  | inr err => inr err
  | inl (length, n) =>
      let buf := skipn (Z.to_nat n) buf in
      if length <? 0 then inr ErrInvalidLength
      else if len buf <? length then inr ErrInsufficientData
      else inl (Some (firstn (Z.to_nat length) buf), n + length)
  end.

(** [binary.BigEndian.Uint64] *)
Definition GetUint64 (buf : bytes) : outcome Z :=
  if len buf <? 8 then Panicked PanicOutOfRange
  else Ok (be_value (firstn 8 buf)).

Definition codec : WireCodec :=
  Build_WireCodec WriteInt8 WriteVarint WriteByteSlice WriteUint64
                  GetVarint GetByteSlice GetUint64.

End GoWire.

(** RIPEMD-160 (Dobbertin, Bosselaers and Preneel), the digest that
    [golang.org/x/crypto/ripemd160] implements, on 32-bit words. *)
Module Ripemd160.

Definition w32 (x : Z) : Z := x mod 2 ^ 32.

Definition rol (s x : Z) : Z :=
  w32 (Z.lor (Z.shiftl x s) (Z.shiftr x (32 - s))).

Definition not32 (x : Z) : Z := Z.lxor x (2 ^ 32 - 1).

(** The five boolean functions, by round. *)
Definition f (round : Z) (x y z : Z) : Z :=
  if round =? 0 then Z.lxor (Z.lxor x y) z
  else if round =? 1 then Z.lor (Z.land x y) (Z.land (not32 x) z)
  else if round =? 2 then Z.lxor (Z.lor x (not32 y)) z
  else if round =? 3 then Z.lor (Z.land x z) (Z.land y (not32 z))
  else Z.lxor x (Z.lor y (not32 z)).

Definition K : list Z :=
  [0x00000000; 0x5A827999; 0x6ED9EBA1; 0x8F1BBCDC; 0xA953FD4E].
Definition K' : list Z :=
  [0x50A28BE6; 0x5C4DD124; 0x6D703EF3; 0x7A6D76E9; 0x00000000].

Definition r : list Z :=
  [0; 1; 2; 3; 4; 5; 6; 7; 8; 9; 10; 11; 12; 13; 14; 15;
   7; 4; 13; 1; 10; 6; 15; 3; 12; 0; 9; 5; 2; 14; 11; 8;
   3; 10; 14; 4; 9; 15; 8; 1; 2; 7; 0; 6; 13; 11; 5; 12;
   1; 9; 11; 10; 0; 8; 12; 4; 13; 3; 7; 15; 14; 5; 6; 2;
   4; 0; 5; 9; 7; 12; 2; 10; 14; 1; 3; 8; 11; 6; 15; 13].
Definition r' : list Z :=
  [5; 14; 7; 0; 9; 2; 11; 4; 13; 6; 15; 8; 1; 10; 3; 12;
   6; 11; 3; 7; 0; 13; 5; 10; 14; 15; 8; 12; 4; 9; 1; 2;
   15; 5; 1; 3; 7; 14; 6; 9; 11; 8; 12; 2; 10; 0; 4; 13;
   8; 6; 4; 1; 3; 11; 15; 0; 5; 12; 2; 13; 9; 7; 10; 14;
   12; 15; 10; 4; 1; 5; 8; 7; 6; 2; 13; 14; 0; 3; 9; 11].
Definition s : list Z :=
  [11; 14; 15; 12; 5; 8; 7; 9; 11; 13; 14; 15; 6; 7; 9; 8;
   7; 6; 8; 13; 11; 9; 7; 15; 7; 12; 15; 9; 11; 7; 13; 12;
   11; 13; 6; 7; 14; 9; 13; 15; 14; 8; 13; 6; 5; 12; 7; 5;
   11; 12; 14; 15; 14; 15; 9; 8; 9; 14; 5; 6; 8; 6; 5; 12;
   9; 15; 5; 11; 6; 8; 13; 12; 5; 12; 13; 14; 11; 8; 5; 6].
Definition s' : list Z :=
  [8; 9; 9; 11; 13; 15; 15; 5; 7; 7; 8; 11; 14; 14; 12; 6;
   9; 13; 15; 7; 12; 8; 9; 11; 7; 7; 12; 7; 6; 15; 13; 11;
   9; 7; 15; 11; 8; 6; 6; 14; 12; 13; 5; 14; 13; 13; 7; 5;
   15; 5; 8; 11; 14; 14; 6; 14; 6; 9; 12; 9; 12; 5; 15; 8;
   8; 5; 12; 9; 12; 5; 14; 6; 8; 13; 6; 5; 15; 13; 11; 11].

Definition at_ (l : list Z) (j : nat) : Z := nth j l 0.

(** The chaining state and one line of the compression function. *)
Definition state : Type := (Z * Z * Z * Z * Z)%type.

Definition step (X : list Z) (fn k rj sj : Z) (st : state) : state :=
  let '(a, b, c, d, e) := st in
  let t := w32 (rol sj (w32 (a + f fn b c d + at_ X (Z.to_nat rj) + k)) + e) in
  (e, t, b, rol 10 c, d).

Fixpoint line (X : list Z) (left : bool) (j : nat) (count : nat)
    (st : state) : state :=
  match count with
  | O => st
  | S count' =>
      let round := Z.of_nat j / 16 in
      let st :=
        if left
        then step X round (at_ K (Z.to_nat round)) (at_ r j) (at_ s j) st
        else step X (4 - round) (at_ K' (Z.to_nat round))
                  (at_ r' j) (at_ s' j) st in
      line X left (S j) count' st
  end.

Definition compress (h : state) (X : list Z) : state :=
  let '(h0, h1, h2, h3, h4) := h in
  let '(a, b, c, d, e) := line X true 0 80 h in
  let '(a', b', c', d', e') := line X false 0 80 h in
  (w32 (h1 + c + d'), w32 (h2 + d + e'), w32 (h3 + e + a'),
   w32 (h4 + a + b'), w32 (h0 + b + c')).

(** The message followed by the byte [0x80], zero bytes up to 56 modulo
    64, and the length in bits as 64 bits, least significant byte first. *)
Definition pad (msg : bytes) : bytes :=
  let l := len msg in
  let zeros := (55 - l) mod 64 in
  msg ++ [byte_of_Z 128] ++ repeat x00 (Z.to_nat zeros)
      ++ le_bytes 8 (8 * l).

Fixpoint words (count : nat) (b : bytes) : list Z :=
  match count with
  | O => []
  | S count' => le_value (firstn 4 b) :: words count' (skipn 4 b)
  end.

Fixpoint blocks (count : nat) (b : bytes) (h : state) : state :=
  match count with
  | O => h
  | S count' => blocks count' (skipn 64 b) (compress h (words 16 (firstn 64 b)))
  end.

Definition init : state :=
  (0x67452301, 0xEFCDAB89, 0x98BADCFE, 0x10325476, 0xC3D2E1F0).

Definition Sum (msg : bytes) : bytes :=
  let p := pad msg in
  let '(h0, h1, h2, h3, h4) := blocks (Nat.div (List.length p) 64) p init in
  le_bytes 4 h0 ++ le_bytes 4 h1 ++ le_bytes 4 h2 ++ le_bytes 4 h3
    ++ le_bytes 4 h4.

Definition digest : Hasher := {| ripemd160_Sum := Sum |}.

End Ripemd160.

(** Bytes as lower-case hexadecimal text. *)
Definition hex_digit (z : Z) : ascii :=
  if z <? 10 then ascii_of_nat (Z.to_nat (48 + z))
  else ascii_of_nat (Z.to_nat (87 + z)).

Fixpoint hex (b : bytes) : string :=
  match b with
  | [] => EmptyString
  | x :: b' =>
      String (hex_digit (byte_val x / 16))
        (String (hex_digit (byte_val x mod 16)) (hex b'))
  end.

(** ** The tree above the nodes, and the scenarios of the specification *)

(** Modelled from the spec: the operations of the tree handle, which belong
    to another file of the package.  Setting a key in the empty tree yields
    a tree of a single leaf; otherwise the root node does the work. *)
Definition tree_set (fuel : nat) (root : option IAVLNode) (k v : slice)
  : M (option IAVLNode * bool * list IAVLNode) :=
  match root with
  | None => ret (Some (NewIAVLNode k v), false, [])
  | Some node =>
      '(newRoot, updated, orphaned) <- set fuel node k v ;;
      ret (Some newRoot, updated, orphaned)
  end.

(** Modelled from the spec: removal at the tree handle gives the new root,
    the removed value and the flag.  A new root that [remove] names by its
    hash only is fetched from the node database. *)
Definition tree_remove (fuel : nat) (root : option IAVLNode) (k : slice)
  : M (option IAVLNode * slice * bool) :=
  match root with
  | None => ret (None, None, false)
  | Some node =>
      '(newHash, newNode, _newKey, val, removed) <- remove fuel node k ;;
      if negb removed then ret (root, None, false)
      else
        match newNode with
        | None =>
            if is_nil newHash then ret (None, val, true)
            else
              n <- rd (fun t => GetNode t newHash) ;;
              ret (Some n, val, true)
        | Some n => ret (Some n, val, true)
        end
  end.

Inductive op : Type :=
| Insert (k v : slice)
| Delete (k : slice).

Fixpoint run_ops (fuel : nat) (ops : list op) (root : option IAVLNode)
  : M (option IAVLNode) :=
  match ops with
  | [] => ret root
  | Insert k v :: ops' =>
      '(root', _, _) <- tree_set fuel root k v ;;
      run_ops fuel ops' root'
  | Delete k :: ops' =>
      '(root', _, _) <- tree_remove fuel root k ;;
      run_ops fuel ops' root'
  end.

(** The root hash of a tree: [hashWithCount] of its root. *)
Definition root_hash {wire : WireCodec} {hasher : Hasher}
    (root : option IAVLNode) : outcome slice :=
  match root with
  | None => Ok None
  | Some node => '(_, h, _) <~ hashWithCount node ;; Ok h
  end.

(** Modelled from the spec: what saving a tree does to its nodes, with a
    store that keeps every node resident: every node is hashed and its flag
    [persisted] is set. *)
Fixpoint mark_persisted (n : IAVLNode) : IAVLNode :=
  {| key := key n; value := value n; version := version n;
     height := height n; size := size n; hash := hash n;
     leftHash := leftHash n;
     leftNode := match leftNode n with
                 | Some l => Some (mark_persisted l)
                 | None => None
                 end;
     rightHash := rightHash n;
     rightNode := match rightNode n with
                  | Some r => Some (mark_persisted r)
                  | None => None
                  end;
     persisted := true |}.

Definition save_tree {wire : WireCodec} {hasher : Hasher}
    (root : IAVLNode) : outcome IAVLNode :=
  '(root', _, _) <~ hashWithCount root ;; Ok (mark_persisted root').

(** The stub store of the scenarios refuses all lookups: a tree without
    node database. *)
Definition stub : IAVLTree := {| ndb := None |}.

Definition leaf (k v : string) : IAVLNode := NewIAVLNode (bs k) (bs v).

Definition S2_ops : list op :=
  [Insert (bs "a") (bs "1"); Insert (bs "b") (bs "2")].

Definition S2_tree : IAVLNode :=
  newInner (bs "b") (leaf "a" "1") (leaf "b" "2").

(** The tree of S2 after a save, with the model codec and RIPEMD-160: the
    hashes are stored and every node is persisted. *)
Definition S2_saved : IAVLNode :=
  Eval vm_compute in
    match save_tree (wire := GoWire.codec) (hasher := Ripemd160.digest)
            S2_tree with
    | Ok n => n
    | _ => S2_tree
    end.

(** The old leaf "a" of the saved tree. *)
Definition S4_old_leaf : IAVLNode :=
  match leftNode S2_saved with Some l => l | None => S2_saved end.

(** The root that S4 returns: a copy of the old root with a fresh leaf on
    the left, which shares the right subtree with the old root. *)
Definition S4_new_root : IAVLNode :=
  {| key := bs "b"; value := None; version := 0; height := 1; size := 2;
     hash := None; leftHash := None; leftNode := Some (leaf "a" "1'");
     rightHash := rightHash S2_saved; rightNode := rightNode S2_saved;
     persisted := false |}.

Definition S3_ops : list op :=
  [Insert (bs "c") (bs "3"); Insert (bs "b") (bs "2");
   Insert (bs "a") (bs "1")].

(** The tree that the three inserts of S3 build. *)
Definition S3_tree : IAVLNode :=
  {| key := bs "c"; value := None; version := 0; height := 2; size := 3;
     hash := None; leftHash := None;
     leftNode := Some (newInner (bs "b") (leaf "a" "1") (leaf "b" "2"));
     rightHash := None; rightNode := Some (leaf "c" "3");
     persisted := false |}.

(** The tree that S3 claims: a single inner node over the leaves "a" and
    "c". *)
Definition S3_claimed (root : IAVLNode) : Prop :=
  key root = bs "b" /\ height root = 1 /\
  (exists l, leftNode root = Some l /\ isLeaf l = true /\ key l = bs "a") /\
  (exists r, rightNode root = Some r /\ isLeaf r = true /\ key r = bs "c").

Definition S5_tree : IAVLNode :=
  {| key := bs "c"; value := None; version := 0; height := 1; size := 2;
     hash := None; leftHash := None; leftNode := Some (leaf "b" "2");
     rightHash := None; rightNode := Some (leaf "c" "3");
     persisted := false |}.

Definition S6_ops_1 : list op :=
  [Insert (bs "a") (bs "1"); Insert (bs "b") (bs "2");
   Insert (bs "c") (bs "3")].

Definition S6_ops_2 : list op :=
  [Insert (bs "c") (bs "3"); Insert (bs "a") (bs "1");
   Insert (bs "b") (bs "2"); Insert (bs "b") (bs "2")].

(** ** Notions used in the statements *)

(** A tree all of whose nodes are in memory. *)
Fixpoint resident (n : IAVLNode) : bool :=
  isLeaf n ||
  (match leftNode n with Some l => resident l | None => false end &&
   match rightNode n with Some r => resident r | None => false end).

(** The number of nodes on the longest path of resident nodes. *)
Fixpoint depth (n : IAVLNode) : nat :=
  S (Nat.max (match leftNode n with Some l => depth l | None => O end)
             (match rightNode n with Some r => depth r | None => O end)).

(** The leaves of a resident tree, from left to right. *)
Fixpoint leaves (n : IAVLNode) : list IAVLNode :=
  if isLeaf n then [n]
  else match leftNode n with Some l => leaves l | None => [] end ++
       match rightNode n with Some r => leaves r | None => [] end.

(** The leftmost leaf below a resident node ([lmd] in the source). *)
Fixpoint leftmost (n : IAVLNode) : IAVLNode :=
  if isLeaf n then n
  else match leftNode n with Some l => leftmost l | None => n end.

(** Every separator is the key of the leftmost leaf of the right subtree. *)
Fixpoint separators_ok (n : IAVLNode) : bool :=
  isLeaf n ||
  (match leftNode n with Some l => separators_ok l | None => false end &&
   match rightNode n with
   | Some r => separators_ok r && bytes_Equal (key n) (key (leftmost r))
   | None => false
   end).

(** No hash is stored in the node or below it. *)
Fixpoint unhashed (n : IAVLNode) : bool :=
  is_nil (hash n) && is_nil (leftHash n) && is_nil (rightHash n) &&
  match leftNode n with Some l => unhashed l | None => true end &&
  match rightNode n with Some r => unhashed r | None => true end.

(** A tree as [set] and [remove] build it without a store: no hash is
    stored, the children that are there are such trees, and only a leaf
    lacks a child. *)
Fixpoint tidy (n : IAVLNode) : bool :=
  is_nil (hash n) && is_nil (leftHash n) && is_nil (rightHash n) &&
  match leftNode n with Some l => tidy l | None => isLeaf n end &&
  match rightNode n with Some r => tidy r | None => isLeaf n end.

(** What of a tree enters its hash: height and size of every node, the
    entries of the leaves, and the shape. *)
Inductive skel : Type :=
| SLeaf (h s : Z) (k v : slice) (ver : Z)
| SInner (h s : Z) (l r : option skel).

Fixpoint skeleton (n : IAVLNode) : skel :=
  if isLeaf n then SLeaf (height n) (size n) (key n) (value n) (version n)
  else SInner (height n) (size n)
         (match leftNode n with Some l => Some (skeleton l) | None => None end)
         (match rightNode n with Some r => Some (skeleton r) | None => None end).

(** The hash and the count of a call of [hashWithCount]. *)
Definition hash_and_count {A} (o : outcome (A * slice * Z)) : outcome (slice * Z) :=
  '(_, h, c) <~ o ;; Ok (h, c).

(** The bytes written by a call of [writeHashBytes]. *)
Definition written {A B C} (o : outcome (A * bytes * B * C)) : outcome bytes :=
  '(_, w, _, _) <~ o ;; Ok w.

Section Statements.
Context {wire : WireCodec} {hasher : Hasher}.

(** The hash of a child as [writeHashBytes] takes it: computed from the
    resident child, the stored hash otherwise. *)
Definition child_hash (c : option IAVLNode) (h : slice) : outcome slice :=
  match c with
  | Some n => '(_, h', _) <~ hashWithCount n ;; Ok h'
  | None => Ok h
  end.

(** The hash of a child and the number of nodes hashed for it. *)
Definition child_hash_count (c : option IAVLNode) (h : slice)
  : outcome (slice * Z) :=
  match c with
  | Some n => hash_and_count (hashWithCount n)
  | None => Ok (h, 0)
  end.

(** The hash-bytes as the specification lists them (section 4.4.1):
    height, size, then key, value and version for a leaf, the two child
    hashes for an inner node. *)
Definition hashBytes_spec (node : IAVLNode) : outcome bytes :=
  let header := WriteInt8 (height node) ++ WriteVarint (size node) in
  if isLeaf node then
    Ok (header ++ WriteByteSlice (key node) ++ WriteByteSlice (value node)
               ++ WriteUint64 (version node))
  else
    lh <~ child_hash (leftNode node) (leftHash node) ;;
    if is_nil lh then Panicked PanicHashLeftNil
    else
      rh <~ child_hash (rightNode node) (rightHash node) ;;
      if is_nil rh then Panicked PanicHashRightNil
      else Ok (header ++ WriteByteSlice lh ++ WriteByteSlice rh).

(** A node with another separator key and another version. *)
Definition with_key_version (k : slice) (ver : Z) (n : IAVLNode) : IAVLNode :=
  {| key := k; value := value n; version := ver; height := height n;
     size := size n; hash := hash n; leftHash := leftHash n;
     leftNode := leftNode n; rightHash := rightHash n;
     rightNode := rightNode n; persisted := persisted n |}.

(** The laws of a codec that reads back what it writes. *)
Class WireLaws : Prop := {
  WriteInt8_one_byte :
    forall i, is_int8 i -> exists b, WriteInt8 i = [b] /\ int8 (byte_val b) = i;
  GetVarint_WriteVarint :
    forall i rest, is_int i ->
      GetVarint (WriteVarint i ++ rest) = inl (i, len (WriteVarint i));
  GetByteSlice_WriteByteSlice :
    forall bz rest, is_int (len (slice_data bz)) ->
      GetByteSlice (WriteByteSlice bz ++ rest)
      = inl (Some (slice_data bz), len (WriteByteSlice bz));
  GetUint64_WriteUint64 :
    forall i rest, is_uint64 i -> GetUint64 (WriteUint64 i ++ rest) = Ok i;
  WriteUint64_eight : forall i, len (WriteUint64 i) = 8 }.

(** The values of the fields fit their Go types, and an inner node has
    both child hashes. *)
Definition encodable (n : IAVLNode) : Prop :=
  is_int8 (height n) /\ is_int (size n) /\ is_uint64 (version n) /\
  is_int (len (slice_data (key n))) /\
  is_int (len (slice_data (value n))) /\
  is_int (len (slice_data (leftHash n))) /\
  is_int (len (slice_data (rightHash n))) /\
  (isLeaf n = false -> is_nil (leftHash n) = false /\ is_nil (rightHash n) = false).

(** What the store-bytes keep of a node. *)
Definition stored_view (n : IAVLNode) : IAVLNode :=
  {| key := Some (slice_data (key n));
     value := if isLeaf n then Some (slice_data (value n)) else None;
     version := version n; height := height n; size := size n;
     hash := None;
     leftHash := if isLeaf n then None else Some (slice_data (leftHash n));
     leftNode := None;
     rightHash := if isLeaf n then None else Some (slice_data (rightHash n));
     rightNode := None;
     persisted := false |}.
End Statements.

Section TraversalSpec.
Variable S : Type.

(** The nodes that a traversal offers to its callback when the callback
    never stops it, in the order of the specification (section 4.5): the
    node itself if it is in the range; below an inner node, in ascending
    order, the left subtree if [afterStart] and then the right subtree if
    [beforeEnd], and the mirror image in descending order. *)
Fixpoint candidates (fuel : nat) (t : IAVLTree) (n : IAVLNode)
    (start end_ : slice) (ascending inclusive : bool)
  : outcome (list IAVLNode) :=
  match fuel with
  | O => OutOfFuel
  | Datatypes.S fuel' =>
      let afterStart := is_nil start || (bytes_Compare start (key n) <=? 0) in
      let beforeEnd :=
        is_nil end_ ||
        (if inclusive then bytes_Compare (key n) end_ <=? 0
         else bytes_Compare (key n) end_ <? 0) in
      let self := if afterStart && beforeEnd then [n] else [] in
      if isLeaf n then Ok self
      else
        let below_left :=
          if afterStart then
            l <~ getLeftNode t n ;;
            candidates fuel' t l start end_ ascending inclusive
          else Ok [] in
        let below_right :=
          if beforeEnd then
            r <~ getRightNode t n ;;
            candidates fuel' t r start end_ ascending inclusive
          else Ok [] in
        if ascending then
          ls <~ below_left ;; rs <~ below_right ;; Ok (self ++ ls ++ rs)
        else
          rs <~ below_right ;; ls <~ below_left ;; Ok (self ++ rs ++ ls)
  end.

(** The range predicate of the specification: [afterStart] and
    [beforeEnd]. *)
Definition in_range (start end_ : slice) (inclusive : bool) (n : IAVLNode)
  : bool :=
  (is_nil start || (bytes_Compare start (key n) <=? 0)) &&
  (is_nil end_ ||
   (if inclusive then bytes_Compare (key n) end_ <=? 0
    else bytes_Compare (key n) end_ <? 0)).

(** The callback applied to a list of nodes up to the first node at which
    it answers stop. *)
Fixpoint run_until_stop (cb : IAVLNode -> ST S bool) (l : list IAVLNode)
  : ST S bool :=
  match l with
  | [] => ret false
  | n :: l' =>
      stop <- cb n ;;
      if (stop : bool) then ret true else run_until_stop cb l'
  end.
End TraversalSpec.

(** A callback that records the keys it is given and stops at a key. *)
Definition record_until (stop_at : slice) (n : IAVLNode)
  : ST (list slice) bool :=
  fun log => Ok (bytes_Equal (key n) stop_at, log ++ [key n]).

(** ** Further notions of the statements *)

(** A computation that does not stop with a given panic. *)
Definition avoids {S A} (p : panic) (m : ST S A) : Prop :=
  forall s, m s <> Panicked p.

(** The first six bytes of the store-bytes of the leaf ("a", "1"): height,
    size and key, without the eight bytes of the version. *)
Definition truncated_leaf : bytes :=
  firstn 6 (GoWire.WriteInt8 0 ++ GoWire.WriteVarint 1
              ++ GoWire.WriteByteSlice (bs "a") ++ GoWire.WriteUint64 0).

(** A tree whose separator "b" is the key of no leaf. *)
Definition stray_separator : IAVLNode :=
  newInner (bs "b") (leaf "a" "1") (leaf "c" "3").

(** The node that the search for a key reaches from a node in [d] steps:
    at an inner node the search goes to the left child when the key is
    below the separator and to the right child otherwise; at a leaf it
    stays.  The children are taken as [getLeftNode] and [getRightNode]
    give them. *)
Fixpoint descend (d : nat) (t : IAVLTree) (node : IAVLNode) (k : slice)
  : outcome IAVLNode :=
  match d with
  | O => Ok node
  | S d' =>
      if isLeaf node then Ok node
      else if bytes_Compare k (key node) <? 0 then
        l <~ getLeftNode t node ;; descend d' t l k
      else
        r <~ getRightNode t node ;; descend d' t r k
  end.

(** The inner node "b" of S3 without its children in memory, and the tree
    of S3 with that node below the root. *)
Definition unloaded_b : IAVLNode :=
  with_left None None (with_right None None S2_tree).

Definition S3_unloaded : IAVLNode :=
  with_left None (Some unloaded_b) S3_tree.

(** The bytes, their number and the count of a call of [writeHashBytes]. *)
Definition bytes_and_count (o : outcome (IAVLNode * bytes * Z * Z))
  : outcome (bytes * Z * Z) :=
  '(_, w, n, c) <~ o ;; Ok (w, n, c).

(** A root that is a tidy tree, or no root. *)
Definition tidy_root (root : option IAVLNode) : Prop :=
  forall n, root = Some n -> tidy n = true.

(** The entries of a tree: the keys and values of its leaves, from left to
    right. *)
Definition entries (root : option IAVLNode) : list (slice * slice) :=
  match root with
  | Some n => map (fun lf => (key lf, value lf)) (leaves n)
  | None => []
  end.

(** ** The other operations of a node *)

(** The additions of the source on [int] wrap around. *)
Fixpoint get (fuel : nat) (t : IAVLTree) (node : IAVLNode) (k : slice)
  : outcome (Z * slice * bool) :=
  match fuel with
  | O => OutOfFuel
  | S fuel' =>
      if isLeaf node then
        let c := bytes_Compare (key node) k in
        if c =? -1 then Ok (1, None, false)
        else if c =? 1 then Ok (0, None, false)
        else Ok (0, value node, true)
      else if bytes_Compare k (key node) <? 0 then
        l <~ getLeftNode t node ;; get fuel' t l k
      else
        rightNode <~ getRightNode t node ;;
        '(index, val, exists_) <~ get fuel' t rightNode k ;;
        let index := int64 (index + int64 (size node - size rightNode)) in
        Ok (index, val, exists_)
  end.

(** What [getByIndex] gives: the entry at the index, or the panic
    "getByIndex asked for invalid index" of the source. *)
Inductive indexed : Type :=
| Indexed (k v : slice)
| InvalidIndex.

Fixpoint getByIndex (fuel : nat) (t : IAVLTree) (node : IAVLNode) (index : Z)
  : outcome indexed :=
  match fuel with
  | O => OutOfFuel
  | S fuel' =>
      if isLeaf node then
        if index =? 0 then Ok (Indexed (key node) (value node))
        else Ok InvalidIndex
      else
        leftNode <~ getLeftNode t node ;;
        if index <? size leftNode then getByIndex fuel' t leftNode index
        else
          r <~ getRightNode t node ;;
          getByIndex fuel' t r (int64 (index - size leftNode))
  end.

Fixpoint lmd (fuel : nat) (t : IAVLTree) (node : IAVLNode) : outcome IAVLNode :=
  match fuel with
  | O => OutOfFuel
  | S fuel' =>
      if isLeaf node then Ok node
      else l <~ getLeftNode t node ;; lmd fuel' t l
  end.

Fixpoint rmd (fuel : nat) (t : IAVLTree) (node : IAVLNode) : outcome IAVLNode :=
  match fuel with
  | O => OutOfFuel
  | S fuel' =>
      if isLeaf node then Ok node
      else r <~ getRightNode t node ;; rmd fuel' t r
  end.

(** ** Notions of the further statements *)

(** A node without the hashes stored in it and below it. *)
Fixpoint strip (n : IAVLNode) : IAVLNode :=
  {| key := key n; value := value n; version := version n;
     height := height n; size := size n; hash := None; leftHash := None;
     leftNode := match leftNode n with
                 | Some l => Some (strip l)
                 | None => None
                 end;
     rightHash := None;
     rightNode := match rightNode n with
                  | Some r => Some (strip r)
                  | None => None
                  end;
     persisted := persisted n |}.

(** The number of nodes of a resident tree. *)
Fixpoint count_nodes (n : IAVLNode) : Z :=
  if isLeaf n then 1
  else 1 + match leftNode n with Some l => count_nodes l | None => 0 end
         + match rightNode n with Some r => count_nodes r | None => 0 end.

(** Every node of a resident tree has its hash, and an inner node has the
    hashes of its children as its child hashes. *)
Fixpoint hash_linked (n : IAVLNode) : bool :=
  negb (is_nil (hash n)) &&
  (isLeaf n ||
   (match leftNode n with
    | Some l => hash_linked l && bytes_Equal (leftHash n) (hash l)
                && negb (is_nil (leftHash n))
    | None => false
    end &&
    match rightNode n with
    | Some r => hash_linked r && bytes_Equal (rightHash n) (hash r)
                && negb (is_nil (rightHash n))
    | None => false
    end)).

(** The sizes of a resident tree count its leaves, within the range of
    [int]. *)
Fixpoint sized (n : IAVLNode) : bool :=
  if isLeaf n then size n =? 1
  else
    match leftNode n, rightNode n with
    | Some l, Some r =>
        sized l && sized r && (size n =? size l + size r)
        && (size n <? 2 ^ 63)
    | _, _ => false
    end.

(** A callback that collects the leaves it is given and never stops. *)
Definition collect_leaves (n : IAVLNode) : ST (list IAVLNode) bool :=
  fun log => Ok (false, if isLeaf n then log ++ [n] else log).

(** The number of leaves in a list, as an integer. *)
Definition len_leaves (l : list IAVLNode) : Z := Z.of_nat (List.length l).

(** ** Search trees *)

(** The order of the keys: [bytes.Compare] below 0, and at most 0. *)
Definition klt (a b : slice) : bool := bytes_Compare a b <? 0.
Definition kle (a b : slice) : bool := bytes_Compare a b <=? 0.

(** The keys of the left subtree are below the separator, and the keys of
    the right subtree are not. *)
Fixpoint ordered (n : IAVLNode) : bool :=
  isLeaf n ||
  match leftNode n, rightNode n with
  | Some l, Some r =>
      ordered l && ordered r &&
      forallb (fun x => klt (key x) (key n)) (leaves l) &&
      forallb (fun x => kle (key n) (key x)) (leaves r)
  | _, _ => false
  end.

(** The height of an inner node is one more than the greater height of its
    children, and the heights of the children differ by 1 at most. *)
Fixpoint balanced (n : IAVLNode) : bool :=
  isLeaf n ||
  match leftNode n, rightNode n with
  | Some l, Some r =>
      balanced l && balanced r &&
      (height n =? Z.max (height l) (height r) + 1) &&
      (Z.abs (height l - height r) <=? 1)
  | _, _ => false
  end.

(** A resident tree with its keys in order, its heights and sizes right,
    and in balance. *)
Definition search_tree (n : IAVLNode) : Prop :=
  ordered n = true /\ balanced n = true /\ sized n = true.

(** Insertion of an entry into a list of leaves in the order of their
    keys; an entry with the same key is replaced. *)
Fixpoint ins (k v : slice) (ls : list IAVLNode) : list IAVLNode :=
  match ls with
  | [] => [NewIAVLNode k v]
  | x :: rest =>
      if klt k (key x) then NewIAVLNode k v :: x :: rest
      else if bytes_Equal k (key x) then NewIAVLNode k v :: rest
      else x :: ins k v rest
  end.

(** The first leaf of a list with a key, and the number of leaves with a
    smaller key. *)
Fixpoint lookup (k : slice) (ls : list IAVLNode) : option IAVLNode :=
  match ls with
  | [] => None
  | x :: rest => if bytes_Equal (key x) k then Some x else lookup k rest
  end.

Definition rank (k : slice) (ls : list IAVLNode) : Z :=
  len_leaves (filter (fun x => klt (key x) k) ls).

(** The value of a leaf that a lookup may have found. *)
Definition found_value (o : option IAVLNode) : slice :=
  match o with Some x => value x | None => None end.

(** An inner node with a separator over two children, with the height and
    the size that [calcHeightAndSize] gives it. *)
Definition inner_over (m : IAVLNode) (k : slice) (l r : IAVLNode) : Prop :=
  key m = k /\ leftNode m = Some l /\ rightNode m = Some r /\
  height m = Z.max (height l) (height r) + 1 /\
  size m = size l + size r.

(** All keys of a list of leaves are below a key, and none is. *)
Definition all_below (ls : list IAVLNode) (k : slice) : Prop :=
  forall x, In x ls -> klt (key x) k = true.
Definition none_below (k : slice) (ls : list IAVLNode) : Prop :=
  forall x, In x ls -> kle k (key x) = true.

(** Removal of the first leaf with a key from a list of leaves. *)
Fixpoint del (k : slice) (ls : list IAVLNode) : list IAVLNode :=
  match ls with
  | [] => []
  | x :: rest => if bytes_Equal k (key x) then rest else x :: del k rest
  end.

(** The nodes of a resident tree, a node before the nodes below it. *)
Fixpoint nodes (n : IAVLNode) : list IAVLNode :=
  if isLeaf n then [n]
  else n :: match leftNode n with Some l => nodes l | None => [] end
         ++ match rightNode n with Some r => nodes r | None => [] end.

(** ** Stored hashes *)

Section CachedHashes.
Context {wire : WireCodec} {hasher : Hasher}.

(** The hashes stored in the nodes of a resident tree are right: a hash
    stored in a node is the hash that [hashWithCount] computes for the node
    when no hash is stored in it or below it. *)
Fixpoint cached_ok (n : IAVLNode) : Prop :=
  match hash n with
  | Some h =>
      exists c, hash_and_count (hashWithCount (strip n)) = Ok (Some h, c)
  | None => True
  end /\
  match leftNode n with Some l => cached_ok l | None => isLeaf n = true end /\
  match rightNode n with Some r => cached_ok r | None => isLeaf n = true end.
End CachedHashes.

(** * Properties *)

(** ** Reasoning about computations *)

Lemma bindM_Ok {S A B} (m : ST S A) (f : A -> ST S B) s r :
  bindM m f s = Ok r ->
  exists a s', m s = Ok (a, s') /\ f a s' = Ok r.
Proof.
  unfold bindM. destruct (m s) as [[a s']| |]; try discriminate.
  intros H. exists a, s'. split; [reflexivity | exact H].
Qed.

Lemma bindM_step {S A B} (m : ST S A) (f : A -> ST S B) s a s' :
  m s = Ok (a, s') -> bindM m f s = f a s'.
Proof. unfold bindM. intros ->. reflexivity. Qed.

Lemma lift_Ok {S A} (m : outcome A) (s : S) a s' :
  lift m s = Ok (a, s') -> m = Ok a /\ s' = s.
Proof.
  unfold lift. destruct m; try discriminate.
  intros H. injection H as <- <-. split; reflexivity.
Qed.

Lemma rd_Ok {A} (f : IAVLTree -> outcome A) t a t' :
  rd f t = Ok (a, t') -> f t = Ok a /\ t' = t.
Proof. unfold rd. apply lift_Ok. Qed.

Lemma ret_Ok {S A} (a : A) (s : S) b s' :
  ret a s = Ok (b, s') -> b = a /\ s' = s.
Proof. unfold ret. intros H. injection H as <- <-. split; reflexivity. Qed.

Lemma bindO_Ok {A B} (m : outcome A) (f : A -> outcome B) r :
  bindO m f = Ok r -> exists a, m = Ok a /\ f a = Ok r.
Proof.
  destruct m; simpl; try discriminate. intros H. exists a. split; auto.
Qed.

(** Inversion of a computation that is known to have returned. *)
Ltac inv_ok :=
  repeat match goal with
    | H : bindM _ _ _ = Ok _ |- _ =>
        let a := fresh "a" in let s := fresh "t" in
        let H1 := fresh "Hm" in let H2 := fresh "Hk" in
        apply bindM_Ok in H; destruct H as (a & s & H1 & H2)
    | H : bindO _ _ = Ok _ |- _ =>
        let a := fresh "a" in
        let H1 := fresh "Hm" in let H2 := fresh "Hk" in
        apply bindO_Ok in H; destruct H as (a & H1 & H2)
    | H : rd _ _ = Ok (_, _) |- _ =>
        let H1 := fresh "Hr" in
        apply rd_Ok in H; destruct H as (H1 & ->)
    | H : lift _ _ = Ok (_, _) |- _ =>
        let H1 := fresh "Hl" in
        apply lift_Ok in H; destruct H as (H1 & ->)
    | H : ret _ _ = Ok (_, _) |- _ =>
        let H1 := fresh "Hv" in
        apply ret_Ok in H; destruct H as (H1 & ->)
    | H : Ok _ = Ok _ |- _ => injection H; clear H; intros
    | H : (_, _) = (_, _) |- _ => injection H; clear H; intros
    end.

Lemma avoids_bind {S A B} p (m : ST S A) (f : A -> ST S B) :
  avoids p m ->
  (forall s a s', m s = Ok (a, s') -> f a s' <> Panicked p) ->
  avoids p (bindM m f).
Proof.
  intros Hm Hf s. unfold bindM. specialize (Hm s).
  destruct (m s) as [[a s']| q |] eqn:E.
  - apply (Hf s a s' E).
  - intros Heq. apply Hm. injection Heq as ->. reflexivity.
  - discriminate.
Qed.

Lemma avoids_at {S A} p (m : ST S A) s : avoids p m -> m s <> Panicked p.
Proof. intros H. apply H. Qed.

Lemma avoids_ret {S A} p (a : A) : avoids (S := S) p (ret a).
Proof. intros s. discriminate. Qed.

Lemma avoids_lift {S A} p (m : outcome A) :
  m <> Panicked p -> avoids (S := S) p (lift m).
Proof. intros H s. unfold lift. destruct m; congruence. Qed.

Lemma avoids_rd {A} p (f : IAVLTree -> outcome A) :
  (forall t, f t <> Panicked p) -> avoids p (rd f).
Proof. intros H t. unfold rd, lift. specialize (H t). destruct (f t); congruence. Qed.

(** ** Panics of the basic operations *)

Lemma GetNode_panics t h p :
  GetNode t h = Panicked p -> p = PanicNilDatabase \/ p = PanicStoreMiss.
Proof.
  unfold GetNode. destruct (ndb t) as [db|].
  - destruct (db_lookup _ _); [discriminate|]. intros H. injection H as <-. auto.
  - intros H. injection H as <-. auto.
Qed.

Lemma getLeftNode_panics t n p :
  getLeftNode t n = Panicked p -> p = PanicNilDatabase \/ p = PanicStoreMiss.
Proof.
  unfold getLeftNode. destruct (leftNode n); [discriminate|]. apply GetNode_panics.
Qed.

Lemma getRightNode_panics t n p :
  getRightNode t n = Panicked p -> p = PanicNilDatabase \/ p = PanicStoreMiss.
Proof.
  unfold getRightNode. destruct (rightNode n); [discriminate|]. apply GetNode_panics.
Qed.

Lemma getLeftNode_not_persisted_panic t n :
  getLeftNode t n <> Panicked PanicBalancePersisted.
Proof. intros H. apply getLeftNode_panics in H. destruct H; discriminate. Qed.

Lemma getRightNode_not_persisted_panic t n :
  getRightNode t n <> Panicked PanicBalancePersisted.
Proof. intros H. apply getRightNode_panics in H. destruct H; discriminate. Qed.

Lemma copy_not_persisted_panic n : _copy n <> Panicked PanicBalancePersisted.
Proof. unfold _copy. destruct (isLeaf n); discriminate. Qed.

Lemma copy_Ok n n' :
  _copy n = Ok n' ->
  isLeaf n = false /\ persisted n' = false /\ hash n' = None /\
  key n' = key n /\ height n' = height n /\ size n' = size n /\
  version n' = version n /\
  leftHash n' = leftHash n /\ leftNode n' = leftNode n /\
  rightHash n' = rightHash n /\ rightNode n' = rightNode n.
Proof.
  unfold _copy. destruct (isLeaf n); [discriminate|].
  intros H. injection H as <-. simpl. repeat split; reflexivity.
Qed.

Lemma calcHeightAndSize_not_persisted_panic t n :
  calcHeightAndSize t n <> Panicked PanicBalancePersisted.
Proof.
  unfold calcHeightAndSize.
  pose proof (getLeftNode_not_persisted_panic t n).
  pose proof (getRightNode_not_persisted_panic t n).
  destruct (getLeftNode t n); simpl; try congruence.
  destruct (getRightNode t n); simpl; congruence.
Qed.

Lemma calcHeightAndSize_persisted t n n' :
  calcHeightAndSize t n = Ok n' -> persisted n' = persisted n.
Proof.
  unfold calcHeightAndSize. intros H. inv_ok. subst. reflexivity.
Qed.

Lemma calcBalance_not_persisted_panic t n :
  calcBalance t n <> Panicked PanicBalancePersisted.
Proof.
  unfold calcBalance.
  pose proof (getLeftNode_not_persisted_panic t n).
  pose proof (getRightNode_not_persisted_panic t n).
  destruct (getLeftNode t n); simpl; try congruence.
  destruct (getRightNode t n); simpl; congruence.
Qed.

Lemma removeOrphan_avoids p n : avoids p (removeOrphan n).
Proof.
  intros t. unfold removeOrphan.
  destruct (negb (persisted n)); [discriminate|].
  destruct (ndb t); discriminate.
Qed.

Create HintDb nopanic.

#[local] Hint Resolve avoids_ret removeOrphan_avoids
  copy_not_persisted_panic getLeftNode_not_persisted_panic
  getRightNode_not_persisted_panic calcHeightAndSize_not_persisted_panic
  calcBalance_not_persisted_panic : nopanic.

(** Splits a sequence of calls into the calls. *)
Ltac avoid_steps :=
  repeat (apply avoids_bind;
          [first [apply avoids_lift | apply avoids_rd; intro
                 | apply removeOrphan_avoids]; auto with nopanic
          | intros ? ? ? _; apply avoids_at]).

Lemma rotateRight_avoids n : avoids PanicBalancePersisted (rotateRight n).
Proof. unfold rotateRight. avoid_steps. apply avoids_ret. Qed.

Lemma rotateLeft_avoids n : avoids PanicBalancePersisted (rotateLeft n).
Proof. unfold rotateLeft. avoid_steps. apply avoids_ret. Qed.

Lemma balance_avoids n :
  persisted n = false -> avoids PanicBalancePersisted (balance n).
Proof.
  intros Hp. unfold balance. rewrite Hp.
  apply avoids_bind; [apply avoids_rd; intro; auto with nopanic|].
  intros ? b ? _. destruct (1 <? b).
  - apply avoids_at. avoid_steps.
    destruct (0 <=? _); [apply rotateRight_avoids|].
    avoid_steps.
    apply avoids_bind; [apply rotateLeft_avoids|].
    intros ? ? ? _. apply rotateRight_avoids.
  - destruct (b <? -1); [|discriminate].
    apply avoids_at. avoid_steps.
    destruct (_ <=? 0); [apply rotateLeft_avoids|].
    avoid_steps.
    apply avoids_bind; [apply rotateRight_avoids|].
    intros ? ? ? _. apply rotateLeft_avoids.
Qed.

(** The node that [set] and [remove] hand to [balance]: a copy with a child
    replaced and height and size recomputed. *)
Lemma rebalance_avoids (n : IAVLNode) :
  persisted n = false ->
  avoids PanicBalancePersisted
    (node <- rd (fun t => calcHeightAndSize t n) ;; balance node).
Proof.
  intros Hp. apply avoids_bind; [apply avoids_rd; intro; auto with nopanic|].
  intros t n' t' H. apply rd_Ok in H. destruct H as [H _].
  apply calcHeightAndSize_persisted in H.
  apply avoids_at, balance_avoids. congruence.
Qed.

Lemma avoids_bind_assoc {S A B C} p (m : ST S A) (f : A -> ST S B)
    (g : B -> ST S C) :
  avoids p (x <- m ;; f x) ->
  (forall b, avoids p (g b)) ->
  avoids p (x <- m ;; y <- f x ;; g y).
Proof.
  intros Hmf Hg s. specialize (Hmf s). unfold bindM in *.
  destruct (m s) as [[a s1]| |]; [|congruence|congruence].
  destruct (f a s1) as [[b s2]| |]; [apply Hg|congruence|congruence].
Qed.

Lemma set_avoids fuel :
  forall n k v, avoids PanicBalancePersisted (set fuel n k v).
Proof.
  induction fuel as [|fuel IH]; intros n k v; simpl.
  - intros s. discriminate.
  - destruct (isLeaf n).
    + destruct (_ =? -1); [apply avoids_ret|].
      destruct (_ =? 1); apply avoids_ret.
    + apply avoids_bind; [apply avoids_lift; auto with nopanic|].
      intros t c t' Hc. apply lift_Ok in Hc. destruct Hc as [Hc _].
      apply copy_Ok in Hc. destruct Hc as (_ & Hp & _).
      apply avoids_at.
      destruct (_ <? 0).
      * apply avoids_bind; [apply avoids_rd; intro; auto with nopanic|].
        intros ? l ? _. apply avoids_at.
        apply avoids_bind; [apply IH|].
        intros ? [[newLeft updated] orphaned] ? _. apply avoids_at.
        destruct updated; [apply avoids_ret|].
        apply avoids_bind_assoc; [|intro; apply avoids_ret].
        apply rebalance_avoids. exact Hp.
      * apply avoids_bind; [apply avoids_rd; intro; auto with nopanic|].
        intros ? r ? _. apply avoids_at.
        apply avoids_bind; [apply IH|].
        intros ? [[newRight updated] orphaned] ? _. apply avoids_at.
        destruct updated; [apply avoids_ret|].
        apply avoids_bind_assoc; [|intro; apply avoids_ret].
        apply rebalance_avoids. exact Hp.
Qed.

Lemma remove_avoids fuel :
  forall n k, avoids PanicBalancePersisted (remove fuel n k).
Proof.
  induction fuel as [|fuel IH]; intros n k; simpl.
  - intros s. discriminate.
  - destruct (isLeaf n).
    + destruct (bytes_Equal _ _); [|apply avoids_ret].
      avoid_steps. apply avoids_ret.
    + destruct (_ <? 0).
      * apply avoids_bind; [apply avoids_rd; intro; auto with nopanic|].
        intros ? l ? _. apply avoids_at.
        apply avoids_bind; [apply IH|].
        intros ? [[[[newHash newNode] newKey] val] removed] ? _.
        apply avoids_at.
        destruct (negb removed); [apply avoids_ret|].
        destruct (_ && _); [apply avoids_ret|].
        apply avoids_bind; [apply removeOrphan_avoids|].
        intros ? _ ? _. apply avoids_at.
        apply avoids_bind; [apply avoids_lift; auto with nopanic|].
        intros t c t' Hc. apply lift_Ok in Hc. destruct Hc as [Hc _].
        apply copy_Ok in Hc. destruct Hc as (_ & Hp & _).
        apply avoids_at.
        apply avoids_bind_assoc; [|intro; apply avoids_ret].
        apply rebalance_avoids. exact Hp.
      * apply avoids_bind; [apply avoids_rd; intro; auto with nopanic|].
        intros ? r ? _. apply avoids_at.
        apply avoids_bind; [apply IH|].
        intros ? [[[[newHash newNode] newKey] val] removed] ? _.
        apply avoids_at.
        destruct (negb removed); [apply avoids_ret|].
        destruct (_ && _); [apply avoids_ret|].
        apply avoids_bind; [apply removeOrphan_avoids|].
        intros ? _ ? _. apply avoids_at.
        apply avoids_bind; [apply avoids_lift; auto with nopanic|].
        intros t c t' Hc. apply lift_Ok in Hc. destruct Hc as [Hc _].
        apply copy_Ok in Hc. destruct Hc as (_ & Hp & _).
        apply avoids_at.
        apply avoids_bind_assoc; [|intro; apply avoids_ret].
        apply rebalance_avoids.
        destruct (negb (is_nil newKey)); exact Hp.
Qed.

(** C8. A call of [balance] on a persisted node panics, whatever the tree
    and the node are; no call of [set] or of [remove], on any node, in any
    tree and with any amount of fuel, ends in that panic, because both hand
    to [balance] a fresh copy only. *)
Theorem balance_persisted_is_fatal_and_unreachable :
  (forall n t, persisted n = true ->
               balance n t = Panicked PanicBalancePersisted) /\
  (forall fuel n k v t,
      set fuel n k v t <> Panicked PanicBalancePersisted) /\
  (forall fuel n k t,
      remove fuel n k t <> Panicked PanicBalancePersisted).
Proof.
  split; [|split].
  - intros n t Hp. unfold balance. rewrite Hp. reflexivity.
  - intros fuel n k v t. apply set_avoids.
  - intros fuel n k t. apply remove_avoids.
Qed.

Lemma balance_persisted_witness :
  balance (mark_persisted S2_tree) stub = Panicked PanicBalancePersisted.
Proof.
  apply (proj1 balance_persisted_is_fatal_and_unreachable). reflexivity.
Defined.

(** ** Insertion: the scenarios S2, S3 and S4 *)

Lemma S2_two_keys fuel :
  run_ops (S fuel) S2_ops None stub = Ok (Some S2_tree, stub).
Proof. reflexivity. Qed.

(** The digest on the test vectors published with RIPEMD-160. *)
Example ripemd160_of_the_empty_message :
  hex (Ripemd160.Sum []) = "9c1185a5c5e9fc54612808977ee8f548b2258d31"%string.
Proof. vm_compute. reflexivity. Qed.

Example ripemd160_of_abc :
  hex (Ripemd160.Sum (slice_data (bs "abc")))
  = "8eb208f7e05d987a9b044a8e98c6b087f15a0bfc"%string.
Proof. vm_compute. reflexivity. Qed.

Example ripemd160_of_two_blocks :
  hex (Ripemd160.Sum
         (slice_data (bs "abcdbcdecdefdefgefghfghighijhijkijkljklmklmnlmnomnopnopq")))
  = "12a053384a9c0c88e405a06c27dcf49ada62eb2b"%string.
Proof. vm_compute. reflexivity. Qed.

(** With a fourth key the left subtree is two levels deeper than the right
    one, and [balance] rotates to the right: the inserts of "d", "c", "b"
    and "a" end in the inner node "c" over the inner nodes "b" and "d". *)
Example four_inserts_rotate_right :
  run_ops 3 (Insert (bs "d") (bs "4") :: S3_ops) None stub
  = Ok (Some {| key := bs "c"; value := None; version := 0;
                height := 2; size := 4; hash := None; leftHash := None;
                leftNode := Some (newInner (bs "b") (leaf "a" "1") (leaf "b" "2"));
                rightHash := None;
                rightNode := Some (newInner (bs "d") (leaf "c" "3") (leaf "d" "4"));
                persisted := false |}, stub).
Proof. reflexivity. Qed.

(** C3, as amended.  The inserts of "c", "b" and "a" into the empty tree
    trigger no rotation: the root has the separator "c", height 2 and size
    3, its left child is the inner node with separator "b" over the leaves
    "a" and "b", its right child is the leaf "c", and its balance factor is
    1, which [balance] leaves alone. *)
Theorem S3_three_inserts_keep_three_leaves :
  forall fuel,
    run_ops (S (S fuel)) S3_ops None stub = Ok (Some S3_tree, stub) /\
    calcBalance stub S3_tree = Ok 1 /\
    balance S3_tree stub = Ok (S3_tree, stub).
Proof. intros fuel. repeat split. Qed.

(** C3, as stated, fails: the root after the three inserts is not the
    single inner node over the leaves "a" and "c". *)
Lemma S3_is_not_a_single_rotation :
  exists root t,
    run_ops 3 S3_ops None stub = Ok (Some root, t) /\ ~ S3_claimed root.
Proof.
  exists S3_tree, stub. split; [reflexivity|].
  intros (Hk & _). discriminate Hk.
Qed.

(** The orphans that [set] returns are the replaced leaf, if the key was
    there, and nothing else: the inner nodes on the path are not among
    them. *)
Lemma set_orphaned_is_the_old_leaf fuel :
  forall node k v t newSelf updated orphaned t',
    set fuel node k v t = Ok (newSelf, updated, orphaned, t') ->
    (updated = false /\ orphaned = []) \/
    (updated = true /\ exists old, orphaned = [old] /\ isLeaf old = true).
Proof.
  induction fuel as [|fuel IH]; intros node k v t newSelf updated orphaned t' H;
    simpl in H; [discriminate|].
  destruct (isLeaf node) eqn:Hleaf.
  - destruct (_ =? -1); [inv_ok; subst; auto|].
    destruct (_ =? 1); inv_ok; subst; auto.
    right. split; [reflexivity|]. exists node. auto.
  - inv_ok. destruct (_ <? 0); inv_ok;
      match goal with
      | Hs : set fuel _ _ _ _ = Ok (?r, _) |- _ =>
          destruct r as [[child u] o]; apply IH in Hs;
          destruct u; inv_ok; subst; exact Hs
      end.
Qed.

(** C1.  The tree of S2 is saved, so that every node of it is persisted,
    and the value of "a" is set again.  The call returns [updated = true]
    and one orphan, the old leaf "a"; the old inner node, which the call
    descends through, is not in the list. *)
Theorem S4_set_returns_the_old_leaf_only :
  forall fuel,
    save_tree (wire := GoWire.codec) (hasher := Ripemd160.digest) S2_tree
      = Ok S2_saved /\
    persisted S2_saved = true /\ isLeaf S2_saved = false /\
    leftNode S2_saved = Some S4_old_leaf /\
    persisted S4_old_leaf = true /\
    key S4_old_leaf = bs "a" /\ value S4_old_leaf = bs "1" /\
    set (S (S fuel)) S2_saved (bs "a") (bs "1'") stub
      = Ok (S4_new_root, true, [S4_old_leaf], stub) /\
    ~ In S2_saved [S4_old_leaf].
Proof.
  intros fuel.
  repeat (split; [vm_compute; reflexivity|]).
  intros [H|[]]. discriminate H.
Qed.

(** ** Removal: the collapse of an inner node, and the scenario S5 *)

(** C4.  When the child that [remove] descends into collapses to nothing
    (it returns neither hash nor node), an inner node is replaced by its
    other child: after a collapse on the left the call returns the right
    hash and the right node and the separator of the node as the new key;
    after a collapse on the right it returns the left hash and the left
    node and no new key.  Removing "a" from the tree of S3 returns the value
    "1" and the inner node with separator "c" over the leaves "b" and "c",
    of size 2 and height 1. *)
Theorem remove_collapse_returns_the_sibling :
  (forall fuel node k l t t' newKey val,
      isLeaf node = false ->
      bytes_Compare k (key node) < 0 ->
      getLeftNode t node = Ok l ->
      remove fuel l k t = Ok (None, None, newKey, val, true, t') ->
      remove (S fuel) node k t
      = Ok (rightHash node, rightNode node, key node, val, true, t')) /\
  (forall fuel node k r t t' newKey val,
      isLeaf node = false ->
      0 <= bytes_Compare k (key node) ->
      getRightNode t node = Ok r ->
      remove fuel r k t = Ok (None, None, newKey, val, true, t') ->
      remove (S fuel) node k t
      = Ok (leftHash node, leftNode node, None, val, true, t')) /\
  (forall fuel,
      run_ops (S (S fuel)) S3_ops None stub = Ok (Some S3_tree, stub) /\
      remove (S (S (S fuel))) S3_tree (bs "a") stub
      = Ok (None, Some S5_tree, bs "b", bs "1", true, stub) /\
      tree_remove (S (S (S fuel))) (Some S3_tree) (bs "a") stub
      = Ok (Some S5_tree, bs "1", true, stub)).
Proof.
  split; [|split].
  - intros fuel node k l t t' newKey val Hleaf Hk Hl Hrem.
    simpl. rewrite Hleaf.
    apply Z.ltb_lt in Hk. rewrite Hk.
    rewrite bindM_step with (a := l) (s' := t) by (unfold rd; rewrite Hl; reflexivity).
    rewrite bindM_step with (1 := Hrem). reflexivity.
  - intros fuel node k r t t' newKey val Hleaf Hk Hr Hrem.
    simpl. rewrite Hleaf.
    apply Z.ltb_ge in Hk. rewrite Hk.
    rewrite bindM_step with (a := r) (s' := t) by (unfold rd; rewrite Hr; reflexivity).
    rewrite bindM_step with (1 := Hrem). reflexivity.
  - intros fuel. repeat split.
Qed.

Lemma remove_collapse_witness :
  remove 2 (newInner (bs "b") (leaf "a" "1") (leaf "b" "2")) (bs "a") stub
  = Ok (None, Some (leaf "b" "2"), bs "b", bs "1", true, stub).
Proof.
  apply (proj1 remove_collapse_returns_the_sibling 1%nat
           (newInner (bs "b") (leaf "a" "1") (leaf "b" "2")) (bs "a")
           (leaf "a" "1") stub stub None (bs "1")).
  - reflexivity.
  - vm_compute. reflexivity.
  - reflexivity.
  - reflexivity.
Defined.

(** ** Decoding of short input *)

(** C7.  [MakeIAVLNode] does not return an error for every malformed input:
    on the empty input it panics at [buf[0]], with any codec, and on an
    input that ends before the version it panics where the version is
    read. *)
Theorem MakeIAVLNode_panics_on_short_input :
  (forall wire : WireCodec, MakeIAVLNode [] = Panicked PanicOutOfRange) /\
  MakeIAVLNode (wire := GoWire.codec) truncated_leaf
  = Panicked PanicOutOfRange.
Proof. split; reflexivity. Qed.

(** ** Lookup by separator *)

Lemma byte_val_inj x y : byte_val x = byte_val y -> x = y.
Proof.
  unfold byte_val. intros H. apply N2Z.inj in H.
  pose proof (Byte.of_to_N x) as Hx. pose proof (Byte.of_to_N y) as Hy.
  rewrite H in Hx. congruence.
Qed.

Lemma compare_bytes_eq a : forall b, compare_bytes a b = 0 <-> a = b.
Proof.
  induction a as [|x a IH]; intros [|y b]; simpl; split; intros H;
    try reflexivity; try discriminate.
  - destruct (byte_val x <? byte_val y) eqn:E1; [discriminate|].
    destruct (byte_val y <? byte_val x) eqn:E2; [discriminate|].
    apply Z.ltb_ge in E1, E2. apply IH in H. subst b.
    f_equal. apply byte_val_inj. lia.
  - injection H as <- <-. rewrite Z.ltb_irrefl. apply IH. reflexivity.
Qed.

Lemma bytes_Equal_data a b :
  bytes_Equal a b = true <-> slice_data a = slice_data b.
Proof.
  unfold bytes_Equal, bytes_Compare. rewrite Z.eqb_eq. apply compare_bytes_eq.
Qed.

Lemma leftmost_in_leaves n : resident n = true -> In (leftmost n) (leaves n).
Proof.
  induction n as [n IHl IHr] using IAVLNode_tree_ind.
  destruct n as [k v ve h s ha lh ln rh rn p]; simpl in *.
  unfold isLeaf; simpl. destruct (h =? 0); simpl; [intros _; left; reflexivity|].
  destruct ln as [l|]; [|discriminate].
  intros H. apply andb_prop in H. destruct H as [Hl _].
  apply in_or_app. left. apply (IHl l eq_refl Hl).
Qed.

Lemma has_true_is_a_leaf fuel :
  forall t n k,
    resident n = true -> separators_ok n = true ->
    has fuel t n k = Ok true ->
    exists lf, In lf (leaves n) /\ bytes_Equal (key lf) k = true.
Proof.
  induction fuel as [|fuel IH]; intros t n k Hres Hsep H; [discriminate|].
  destruct n as [nk v ve h s ha lh ln rh rn p].
  simpl in H, Hres, Hsep |- *. unfold isLeaf in *; simpl in *.
  destruct (bytes_Equal nk k) eqn:Heq.
  - destruct (h =? 0); simpl in *.
    + eexists. split; [left; reflexivity|exact Heq].
    + destruct ln as [l|]; [|discriminate].
      destruct rn as [r|]; [|rewrite andb_false_r in Hres; discriminate].
      apply andb_prop in Hres. destruct Hres as [_ Hr].
      apply andb_prop in Hsep. destruct Hsep as [_ Hsep].
      apply andb_prop in Hsep. destruct Hsep as [_ Hlm].
      exists (leftmost r). split.
      * apply in_or_app. right. apply leftmost_in_leaves. exact Hr.
      * apply bytes_Equal_data. apply bytes_Equal_data in Hlm, Heq.
        simpl in *. congruence.
  - destruct (h =? 0); simpl in *; [discriminate|].
    destruct ln as [l|]; [|discriminate].
    destruct rn as [r|]; [|rewrite andb_false_r in Hres; discriminate].
    apply andb_prop in Hres. destruct Hres as [Hl Hr].
    apply andb_prop in Hsep. destruct Hsep as [Hsl Hsep].
    apply andb_prop in Hsep. destruct Hsep as [Hsr _].
    unfold getLeftNode, getRightNode in H. simpl in H.
    destruct (bytes_Compare k nk <? 0).
    + destruct (IH t l k Hl Hsl H) as (lf & Hin & Hk).
      exists lf. split; [apply in_or_app; left; exact Hin|exact Hk].
    + destruct (IH t r k Hr Hsr H) as (lf & Hin & Hk).
      exists lf. split; [apply in_or_app; right; exact Hin|exact Hk].
Qed.

(** On a resident tree [has] returns, with fuel for the depth of the tree. *)
Lemma has_returns fuel :
  forall t n k,
    resident n = true -> (depth n <= fuel)%nat ->
    exists b, has fuel t n k = Ok b.
Proof.
  induction fuel as [|fuel IH]; intros t n k Hres Hd.
  - destruct n; simpl in Hd. lia.
  - destruct n as [nk v ve h s ha lh ln rh rn p].
    simpl in Hres, Hd |- *. unfold isLeaf in *; simpl in *.
    destruct (bytes_Equal nk k); [eexists; reflexivity|].
    destruct (h =? 0); simpl in *; [eexists; reflexivity|].
    destruct ln as [l|]; [|discriminate].
    destruct rn as [r|]; [|rewrite andb_false_r in Hres; discriminate].
    apply andb_prop in Hres. destruct Hres as [Hl Hr].
    unfold getLeftNode, getRightNode; simpl.
    destruct (_ <? 0); apply IH; auto; lia.
Qed.

Lemma has_on_the_descent d :
  forall t root k m fuel,
    descend d t root k = Ok m -> bytes_Equal (key m) k = true ->
    (d < fuel)%nat -> has fuel t root k = Ok true.
Proof.
  induction d as [|d IH]; intros t root k m fuel H Hk Hf.
  - injection H as <-. destruct fuel as [|fuel]; [lia|].
    cbn [has]. rewrite Hk. reflexivity.
  - destruct fuel as [|fuel]; [lia|]. cbn [has].
    destruct (bytes_Equal (key root) k) eqn:E; [reflexivity|].
    cbn [descend] in H. destruct (isLeaf root).
    + injection H as <-. congruence.
    + destruct (bytes_Compare k (key root) <? 0).
      * destruct (getLeftNode t root) as [l| |]; try discriminate.
        cbn [bindO] in H |- *. apply (IH t l k m fuel H Hk). lia.
      * destruct (getRightNode t root) as [r| |]; try discriminate.
        cbn [bindO] in H |- *. apply (IH t r k m fuel H Hk). lia.
Qed.

(** C10.  [has] answers true at a node whose key equals the search key, at
    once: one unit of fuel is enough, and no child is looked at, so that the
    answer is the same in a tree without store and for a node without
    children.  This holds at every node on the way of the search, not only
    at the root: when the search for the key from the root reaches in [d]
    steps a node whose key equals the search key, [has] on the root answers
    true, with the fuel for these [d] steps and one more, so that it goes
    no further down.  In the tree of S3 with the inner node "b" below the
    root and the children of that node not in memory and not to be loaded,
    [has] on the root answers true for "b", while for "a", which is below
    that node, it panics where the child is loaded.  On a resident tree in
    which every separator is the key of the leftmost leaf of the right
    subtree, the answer true means that a leaf has the key.  Without that
    invariant it does not: in the tree with separator "b" over the leaves
    "a" and "c", [has] answers true for "b", which no leaf has. *)
Theorem has_answers_true_at_the_separator :
  (forall fuel t node k,
      bytes_Equal (key node) k = true -> has (S fuel) t node k = Ok true) /\
  (forall d t root k m fuel,
      descend d t root k = Ok m -> bytes_Equal (key m) k = true ->
      (d < fuel)%nat -> has fuel t root k = Ok true) /\
  (descend 1 stub S3_unloaded (bs "b") = Ok unloaded_b /\
   isLeaf unloaded_b = false /\
   getLeftNode stub unloaded_b = Panicked PanicNilDatabase /\
   getRightNode stub unloaded_b = Panicked PanicNilDatabase /\
   has 2 stub S3_unloaded (bs "b") = Ok true /\
   has 3 stub S3_unloaded (bs "a") = Panicked PanicNilDatabase) /\
  (forall fuel t node k,
      resident node = true -> separators_ok node = true ->
      has fuel t node k = Ok true ->
      exists lf, In lf (leaves node) /\ bytes_Equal (key lf) k = true) /\
  (resident stray_separator = true /\
   separators_ok stray_separator = false /\
   has 1 stub stray_separator (bs "b") = Ok true /\
   forall lf, In lf (leaves stray_separator) ->
              bytes_Equal (key lf) (bs "b") = false).
Proof.
  split; [|split; [|split; [|split]]].
  - intros fuel t node k H. simpl. rewrite H. reflexivity.
  - intros d. apply has_on_the_descent.
  - repeat split.
  - intros fuel. apply has_true_is_a_leaf.
  - repeat split.
    intros lf [<-|[<-|[]]]; reflexivity.
Qed.

Lemma has_separator_witness :
  has 1 stub unloaded_b (bs "b") = Ok true /\
  has 2 stub S3_tree (bs "b") = Ok true /\
  exists lf, In lf (leaves S3_tree) /\ bytes_Equal (key lf) (bs "c") = true.
Proof.
  split; [|split].
  - apply (proj1 has_answers_true_at_the_separator). reflexivity.
  - apply (proj1 (proj2 has_answers_true_at_the_separator)
             1%nat stub S3_tree (bs "b") S2_tree 2%nat).
    + reflexivity.
    + reflexivity.
    + lia.
  - apply (proj1 (proj2 (proj2 (proj2 has_answers_true_at_the_separator)))
             1%nat stub).
    + reflexivity.
    + reflexivity.
    + reflexivity.
Defined.

(** ** The bytes that are hashed *)

Section HashBytes.
Context {wire : WireCodec} {hasher : Hasher}.

Lemma hashWithCount_unfold node :
  hashWithCount node
  = match hash node with
    | Some h => Ok (node, Some h, 0)
    | None =>
        '(node, buf, _n, hashCount) <~ writeHashBytes node ;;
        let h := Some (ripemd160_Sum buf) in
        Ok (with_hash h node, h, hashCount + 1)
    end.
Proof. destruct node; reflexivity. Qed.

Lemma written_writeHashBytes node :
  written (writeHashBytes node) = hashBytes_spec node.
Proof.
  unfold writeHashBytes, writeHashBytesWith, hashBytes_spec, written, child_hash.
  destruct (isLeaf node).
  - simpl. rewrite <- !app_assoc. reflexivity.
  - destruct (leftNode node) as [l|].
    + destruct (hashWithCount l) as [[[l' lh] lc]| |]; simpl; try reflexivity.
      destruct (is_nil lh); [reflexivity|].
      destruct (rightNode node) as [r|].
      * destruct (hashWithCount r) as [[[r' rh] rc]| |]; simpl; try reflexivity.
        destruct (is_nil rh); simpl; [reflexivity|].
        rewrite <- !app_assoc. reflexivity.
      * simpl. destruct (is_nil (rightHash node)); simpl; [reflexivity|].
        rewrite <- !app_assoc. reflexivity.
    + simpl. destruct (is_nil (leftHash node)); [reflexivity|].
      destruct (rightNode node) as [r|].
      * destruct (hashWithCount r) as [[[r' rh] rc]| |]; simpl; try reflexivity.
        destruct (is_nil rh); simpl; [reflexivity|].
        rewrite <- !app_assoc. reflexivity.
      * simpl. destruct (is_nil (rightHash node)); simpl; [reflexivity|].
        rewrite <- !app_assoc. reflexivity.
Qed.

Lemma writeHashBytes_ignores_key_version node k ver :
  isLeaf node = false ->
  bytes_and_count (writeHashBytes (with_key_version k ver node))
  = bytes_and_count (writeHashBytes node).
Proof.
  intros Hleaf.
  unfold writeHashBytes, writeHashBytesWith, bytes_and_count.
  change (isLeaf (with_key_version k ver node)) with (isLeaf node).
  rewrite Hleaf. simpl.
  destruct (leftNode node) as [l|].
  - destruct (hashWithCount l) as [[[l' lh] lc]| |]; simpl; try reflexivity.
    destruct (is_nil lh); [reflexivity|].
    destruct (rightNode node) as [r|].
    + destruct (hashWithCount r) as [[[r' rh] rc]| |]; simpl; try reflexivity.
      destruct (is_nil rh); reflexivity.
    + simpl. destruct (is_nil (rightHash node)); reflexivity.
  - simpl. destruct (is_nil (leftHash node)); [reflexivity|].
    destruct (rightNode node) as [r|].
    + destruct (hashWithCount r) as [[[r' rh] rc]| |]; simpl; try reflexivity.
      destruct (is_nil rh); reflexivity.
    + simpl. destruct (is_nil (rightHash node)); reflexivity.
Qed.

Lemma hashWithCount_ignores_key_version node k ver :
  isLeaf node = false ->
  hash_and_count (hashWithCount (with_key_version k ver node))
  = hash_and_count (hashWithCount node).
Proof.
  intros Hleaf. rewrite !hashWithCount_unfold.
  change (hash (with_key_version k ver node)) with (hash node).
  destruct (hash node); [reflexivity|].
  pose proof (@writeHashBytes_ignores_key_version node k ver Hleaf) as H.
  unfold bytes_and_count, hash_and_count in *.
  destruct (writeHashBytes (with_key_version k ver node)) as [[[[n1 w1] m1] c1]| |];
    destruct (writeHashBytes node) as [[[[n2 w2] m2] c2]| |];
    simpl in *; congruence.
Qed.

(** C6.  The bytes that [writeHashBytes] writes are those that the
    specification lists: height and size, then key, value and version for
    a leaf, and the two child hashes for an inner node.  The key and the
    version of an inner node are not among them: with another key and
    another version an inner node writes the same bytes and has the same
    hash. *)
Theorem writeHashBytes_writes_the_listed_fields :
  (forall node, written (writeHashBytes node) = hashBytes_spec node) /\
  (forall node,
      isLeaf node = true ->
      written (writeHashBytes node)
      = Ok (WriteInt8 (height node) ++ WriteVarint (size node)
              ++ WriteByteSlice (key node) ++ WriteByteSlice (value node)
              ++ WriteUint64 (version node))) /\
  (forall node k ver,
      isLeaf node = false ->
      bytes_and_count (writeHashBytes (with_key_version k ver node))
      = bytes_and_count (writeHashBytes node) /\
      hash_and_count (hashWithCount (with_key_version k ver node))
      = hash_and_count (hashWithCount node)).
Proof.
  split; [|split].
  - apply written_writeHashBytes.
  - intros node Hleaf. rewrite written_writeHashBytes.
    unfold hashBytes_spec. rewrite Hleaf, <- !app_assoc. reflexivity.
  - intros node k ver Hleaf. split.
    + apply writeHashBytes_ignores_key_version. exact Hleaf.
    + apply hashWithCount_ignores_key_version. exact Hleaf.
Qed.
End HashBytes.

Lemma writeHashBytes_fields_witness :
  hash_and_count (hashWithCount (wire := GoWire.codec)
                    (hasher := Ripemd160.digest)
                    (with_key_version (bs "zz") 7 S2_tree))
  = hash_and_count (hashWithCount (wire := GoWire.codec)
                      (hasher := Ripemd160.digest) S2_tree).
Proof.
  apply (proj2 (proj2 (writeHashBytes_writes_the_listed_fields
                         (wire := GoWire.codec) (hasher := Ripemd160.digest)))
           S2_tree (bs "zz") 7).
  reflexivity.
Defined.

(** ** Traversal *)

Section TraversalFacts.
Variable S : Type.
Implicit Types (cb : IAVLNode -> ST S bool) (s : S).

Lemma bindM_ext {A B} (m : ST S A) (f g : A -> ST S B) s :
  (forall a s', f a s' = g a s') -> bindM m f s = bindM m g s.
Proof.
  intros H. unfold bindM. destruct (m s) as [[a s']| |]; auto.
Qed.

Lemma bindM_cong {A B} (m m' : ST S A) (f g : A -> ST S B) s :
  (forall s0, m s0 = m' s0) -> (forall a s', f a s' = g a s') ->
  bindM m f s = bindM m' g s.
Proof.
  intros Hm H. unfold bindM. rewrite Hm. destruct (m' s) as [[a s']| |]; auto.
Qed.

Lemma bindM_ret_r {A} (m : ST S A) s : bindM m (fun a => ret a) s = m s.
Proof. unfold bindM. destruct (m s) as [[a s']| |]; reflexivity. Qed.

Lemma run_until_stop_app cb (a b : list IAVLNode) s :
  run_until_stop cb (a ++ b) s
  = (stop <- run_until_stop cb a ;;
     if (stop : bool) then ret true else run_until_stop cb b) s.
Proof.
  revert s. induction a as [|n a IH]; intros s; simpl.
  - reflexivity.
  - unfold bindM. destruct (cb n s) as [[stop s1]| |]; try reflexivity.
    destruct stop; [reflexivity|]. rewrite IH. reflexivity.
Qed.

(** A traversal is the callback run over the candidates up to the first
    stop. *)
Lemma traverseInRange_runs_the_candidates fuel :
  forall t n start end_ ascending inclusive cb l s,
    candidates fuel t n start end_ ascending inclusive = Ok l ->
    traverseInRange fuel t n start end_ ascending inclusive cb s
    = run_until_stop cb l s.
Proof.
  induction fuel as [|fuel IH];
    intros t n start end_ ascending inclusive cb l s H; [discriminate|].
  simpl in H. simpl traverseInRange.
  set (afterStart := is_nil start || (bytes_Compare start (key n) <=? 0)) in *.
  assert (HbE :
    (if inclusive
     then is_nil end_ || (bytes_Compare (key n) end_ <=? 0)
     else is_nil end_ || (bytes_Compare (key n) end_ <? 0))
    = is_nil end_ ||
      (if inclusive then bytes_Compare (key n) end_ <=? 0
       else bytes_Compare (key n) end_ <? 0))
    by (destruct inclusive; reflexivity).
  rewrite HbE. clear HbE.
  set (beforeEnd :=
         is_nil end_ ||
         (if inclusive then bytes_Compare (key n) end_ <=? 0
          else bytes_Compare (key n) end_ <? 0)) in *.
  set (self := if afterStart && beforeEnd then [n] else []) in *.
  (* the callback at the node itself *)
  assert (Hself : forall (k : bool -> ST S bool) s0,
    (stop <- (if afterStart && beforeEnd then cb n else ret false) ;; k stop) s0
    = (stop <- run_until_stop cb self ;; k stop) s0).
  { intros k s0. subst self. destruct (afterStart && beforeEnd); simpl.
    - unfold bindM. destruct (cb n s0) as [[stop s1]| |]; try reflexivity.
      destruct stop; reflexivity.
    - reflexivity. }
  rewrite Hself. clear Hself.
  destruct (isLeaf n).
  - injection H as <-.
    unfold bindM. destruct (run_until_stop cb self s) as [[stop s1]| |];
      try reflexivity.
    destruct stop; reflexivity.
  - (* the subtrees *)
    assert (Hleft : forall ls,
      (if afterStart then
         l <~ getLeftNode t n ;;
         candidates fuel t l start end_ ascending inclusive
       else Ok []) = Ok ls ->
      forall s0,
        (if afterStart then
           l <- lift (getLeftNode t n) ;;
           traverseInRange fuel t l start end_ ascending inclusive cb
         else ret false) s0 = run_until_stop cb ls s0).
    { intros ls Hls s0. destruct afterStart.
      - apply bindO_Ok in Hls. destruct Hls as (c & Hc & Hls).
        rewrite Hc. unfold bindM, lift. apply IH. exact Hls.
      - injection Hls as <-. reflexivity. }
    assert (Hright : forall rs,
      (if beforeEnd then
         r <~ getRightNode t n ;;
         candidates fuel t r start end_ ascending inclusive
       else Ok []) = Ok rs ->
      forall s0,
        (if beforeEnd then
           r <- lift (getRightNode t n) ;;
           traverseInRange fuel t r start end_ ascending inclusive cb
         else ret false) s0 = run_until_stop cb rs s0).
    { intros rs Hrs s0. destruct beforeEnd.
      - apply bindO_Ok in Hrs. destruct Hrs as (c & Hc & Hrs).
        rewrite Hc. unfold bindM, lift. apply IH. exact Hrs.
      - injection Hrs as <-. reflexivity. }
    destruct ascending.
    + apply bindO_Ok in H. destruct H as (ls & Hls & H).
      apply bindO_Ok in H. destruct H as (rs & Hrs & H).
      injection H as <-.
      specialize (Hleft ls Hls). specialize (Hright rs Hrs).
      rewrite run_until_stop_app. apply bindM_ext. intros stop s1.
      destruct stop; [reflexivity|].
      rewrite run_until_stop_app. apply bindM_cong; [exact Hleft|].
      intros stop s2. destruct stop; [reflexivity|].
      rewrite bindM_ret_r. apply Hright.
    + apply bindO_Ok in H. destruct H as (rs & Hrs & H).
      apply bindO_Ok in H. destruct H as (ls & Hls & H).
      injection H as <-.
      specialize (Hleft ls Hls). specialize (Hright rs Hrs).
      rewrite run_until_stop_app. apply bindM_ext. intros stop s1.
      destruct stop; [reflexivity|].
      rewrite run_until_stop_app. apply bindM_cong; [exact Hright|].
      intros stop s2. destruct stop; [reflexivity|].
      rewrite bindM_ret_r. apply Hleft.
Qed.
End TraversalFacts.

(** On a resident tree the candidates exist, with fuel for the depth. *)
Lemma candidates_returns fuel :
  forall t n start end_ ascending inclusive,
    resident n = true -> (depth n <= fuel)%nat ->
    exists l, candidates fuel t n start end_ ascending inclusive = Ok l.
Proof.
  induction fuel as [|fuel IH]; intros t n start end_ ascending inclusive Hres Hd.
  - destruct n; simpl in Hd. lia.
  - destruct n as [nk v ve h s ha lh ln rh rn p].
    simpl in Hres, Hd |- *. unfold isLeaf in *; simpl in *.
    destruct (h =? 0); simpl in *; [eexists; reflexivity|].
    destruct ln as [l|]; [|discriminate].
    destruct rn as [r|]; [|rewrite andb_false_r in Hres; discriminate].
    apply andb_prop in Hres. destruct Hres as [Hl Hr].
    unfold getLeftNode, getRightNode; simpl.
    destruct (IH t l start end_ ascending inclusive Hl) as [ls Hls]; [lia|].
    destruct (IH t r start end_ ascending inclusive Hr) as [rs Hrs]; [lia|].
    rewrite Hls, Hrs.
    destruct ascending;
      destruct (is_nil start || _); destruct (is_nil end_ || _);
      simpl; eexists; reflexivity.
Qed.

Lemma candidates_in_range fuel :
  forall t n start end_ ascending inclusive l,
    candidates fuel t n start end_ ascending inclusive = Ok l ->
    forall m, In m l -> in_range start end_ inclusive m = true.
Proof.
  induction fuel as [|fuel IH];
    intros t n start end_ ascending inclusive l H m Hin; [discriminate|].
  simpl in H.
  assert (Hself : forall x,
    In x (if (is_nil start || (bytes_Compare start (key n) <=? 0)) &&
             (is_nil end_ ||
              (if inclusive then bytes_Compare (key n) end_ <=? 0
               else bytes_Compare (key n) end_ <? 0))
          then [n] else []) ->
    in_range start end_ inclusive x = true).
  { intros x Hx. unfold in_range.
    destruct (_ && _) eqn:E in Hx; [|destruct Hx].
    destruct Hx as [<-|[]]. exact E. }
  assert (Hsub : forall (c : bool) (get : outcome IAVLNode) ms,
    (if c then
       x <~ get ;; candidates fuel t x start end_ ascending inclusive
     else Ok []) = Ok ms ->
    In m ms -> in_range start end_ inclusive m = true).
  { intros c get ms Hms Hm. destruct c.
    - apply bindO_Ok in Hms. destruct Hms as (x & _ & Hms).
      apply (IH _ _ _ _ _ _ _ Hms m Hm).
    - injection Hms as <-. destruct Hm. }
  destruct (isLeaf n).
  - injection H as <-. apply Hself. exact Hin.
  - destruct ascending;
      apply bindO_Ok in H; destruct H as (xs & Hxs & H);
      apply bindO_Ok in H; destruct H as (ys & Hys & H);
      injection H as <-;
      apply in_app_or in Hin; destruct Hin as [Hin|Hin];
      try (apply Hself; exact Hin);
      apply in_app_or in Hin; destruct Hin as [Hin|Hin];
      first [ apply (Hsub _ _ _ Hxs Hin) | apply (Hsub _ _ _ Hys Hin) ].
Qed.

(** The node itself is the first candidate if it is in the range, and no
    candidate otherwise; a leaf has no candidates below it. *)
Lemma candidates_start_with_the_node fuel t n start end_ ascending inclusive l :
  candidates fuel t n start end_ ascending inclusive = Ok l ->
  exists below,
    l = (if in_range start end_ inclusive n then [n] else []) ++ below /\
    (isLeaf n = true -> below = []).
Proof.
  destruct fuel as [|fuel]; [discriminate|].
  simpl. unfold in_range. intros H.
  destruct (isLeaf n).
  - injection H as <-. exists []. rewrite app_nil_r. auto.
  - destruct ascending;
      apply bindO_Ok in H; destruct H as (xs & _ & H);
      apply bindO_Ok in H; destruct H as (ys & _ & H);
      injection H as <-; eexists; (split; [reflexivity|discriminate]).
Qed.

(** C9.  [traverse] is [traverseInRange] without bounds and not inclusive.
    A traversal gives to the callback the candidates of the specification,
    in their order, up to the first at which the callback answers stop, and
    answers stop itself if and only if the callback did: each node that is
    reached is a candidate exactly when [afterStart] and [beforeEnd] hold
    for it (it is then the first candidate, and every candidate is in the
    range), the ascending order goes left if [afterStart] and then right if
    [beforeEnd], and the descending order does the mirror image.  On a
    resident tree, fuel for the depth of the tree is enough. *)
Theorem traverseInRange_follows_the_specification :
  (forall (S : Type) fuel t n ascending (cb : IAVLNode -> ST S bool),
      traverse fuel t n ascending cb
      = traverseInRange fuel t n None None ascending false cb) /\
  (forall (S : Type) fuel t n start end_ ascending inclusive
          (cb : IAVLNode -> ST S bool) l s,
      candidates fuel t n start end_ ascending inclusive = Ok l ->
      traverseInRange fuel t n start end_ ascending inclusive cb s
      = run_until_stop cb l s /\
      (forall m, In m l -> in_range start end_ inclusive m = true) /\
      (exists below,
          l = (if in_range start end_ inclusive n then [n] else []) ++ below /\
          (isLeaf n = true -> below = []))) /\
  (forall fuel t n start end_ ascending inclusive,
      resident n = true -> (depth n <= fuel)%nat ->
      exists l, candidates fuel t n start end_ ascending inclusive = Ok l).
Proof.
  split; [|split].
  - reflexivity.
  - intros S fuel t n start end_ ascending inclusive cb l s H.
    split; [|split].
    + apply traverseInRange_runs_the_candidates. exact H.
    + apply (candidates_in_range _ _ _ _ _ _ _ H).
    + apply (candidates_start_with_the_node _ _ _ _ _ _ _ H).
  - intros fuel. apply candidates_returns.
Qed.

(** Over the tree of S3, from "b" on and in descending order, the callback
    sees the root "c", the leaf "c" and the inner node "b", where it stops;
    the leaves "b" and "a" below are not visited. *)
Lemma traverseInRange_witness :
  traverseInRange 3 stub S3_tree (bs "b") None false false
    (record_until (bs "b")) []
  = Ok (true, [bs "c"; bs "c"; bs "b"]) /\
  exists l, candidates 3 stub S3_tree (bs "b") None true true = Ok l.
Proof.
  split.
  - destruct (proj1 (proj2 traverseInRange_follows_the_specification)
                (list slice) 3%nat stub S3_tree (bs "b") None false false
                (record_until (bs "b"))
                [S3_tree; leaf "c" "3"; S2_tree; leaf "b" "2"] [] eq_refl)
      as [H _].
    rewrite H. reflexivity.
  - apply (proj2 (proj2 traverseInRange_follows_the_specification)).
    + reflexivity.
    + simpl. lia.
Defined.

(** ** The model codec reads back what it writes *)

Lemma byte_val_range b : 0 <= byte_val b < 256.
Proof.
  unfold byte_val. pose proof (Byte.to_N_bounded b). lia.
Qed.

Lemma byte_val_of_Z z : byte_val (byte_of_Z z) = z mod 256.
Proof.
  unfold byte_val, byte_of_Z.
  assert (0 <= z mod 256 < 256) by (apply Z.mod_pos_bound; lia).
  destruct (Byte.of_N (Z.to_N (z mod 256))) eqn:E.
  - apply Byte.to_of_N in E. rewrite E. rewrite Z2N.id; lia.
  - apply Byte.of_N_None_iff in E. lia.
Qed.

Lemma len_app (a b : bytes) : len (a ++ b) = len a + len b.
Proof. unfold len. rewrite length_app. lia. Qed.

Lemma len_cons x (a : bytes) : len (x :: a) = 1 + len a.
Proof. unfold len. simpl List.length. lia. Qed.

Lemma len_nonneg (a : bytes) : 0 <= len a.
Proof. unfold len. lia. Qed.

Lemma slice_from_app (a b : bytes) : slice_from (len a) (a ++ b) = Ok b.
Proof.
  unfold slice_from. rewrite len_app.
  pose proof (len_nonneg a). pose proof (len_nonneg b).
  destruct (len a <? 0) eqn:E1; [apply Z.ltb_lt in E1; lia|].
  destruct (len a + len b <? len a) eqn:E2; [apply Z.ltb_lt in E2; lia|].
  simpl. unfold len. rewrite Nat2Z.id.
  rewrite skipn_app, skipn_all, Nat.sub_diag. reflexivity.
Qed.

Lemma be_value_acc (l : bytes) : forall acc,
  fold_left (fun a x => a * 256 + byte_val x) l acc
  = acc * 256 ^ len l + be_value l.
Proof.
  unfold be_value.
  induction l as [|x l IH]; intros acc.
  - simpl. unfold len. simpl. lia.
  - cbn [fold_left]. rewrite IH. rewrite (IH (0 * 256 + byte_val x)).
    rewrite len_cons. rewrite Z.pow_add_r by (pose proof (len_nonneg l); lia).
    change (256 ^ 1) with 256. ring.
Qed.

Lemma be_value_cons x (l : bytes) :
  be_value (x :: l) = byte_val x * 256 ^ len l + be_value l.
Proof.
  unfold be_value at 1. cbn [fold_left]. rewrite be_value_acc. ring.
Qed.

Lemma length_be_bytes n x : List.length (be_bytes n x) = n.
Proof. induction n as [|n IH]; simpl; [reflexivity|]. rewrite IH. reflexivity. Qed.

Lemma be_value_be_bytes n x :
  0 <= x -> be_value (be_bytes n x) = x mod 256 ^ Z.of_nat n.
Proof.
  intros Hx. induction n as [|n IH].
  - simpl. rewrite Z.mod_1_r. reflexivity.
  - cbn [be_bytes]. rewrite be_value_cons, IH, byte_val_of_Z.
    unfold len. rewrite length_be_bytes.
    rewrite Z.shiftr_div_pow2 by lia.
    rewrite Z.pow_mul_r by lia. change (2 ^ 8) with 256.
    rewrite Nat2Z.inj_succ, Z.pow_succ_r by lia.
    rewrite (Z.mul_comm 256).
    rewrite Z.rem_mul_r by (try apply Z.pow_nonzero; lia).
    ring.
Qed.

Lemma int64_small x : is_int x -> int64 x = x.
Proof.
  unfold is_int, int64, wrap_signed.
  change (2 ^ (64 - 1)) with 9223372036854775808.
  change (2 ^ 63) with 9223372036854775808.
  change (2 ^ 64) with 18446744073709551616.
  intros H. rewrite Z.mod_small; lia.
Qed.

Lemma int64_mod x : int64 (x mod 2 ^ 64) = int64 x.
Proof.
  unfold int64, wrap_signed.
  change (2 ^ (64 - 1)) with 9223372036854775808.
  change (2 ^ 64) with 18446744073709551616.
  rewrite Zplus_mod_idemp_l. reflexivity.
Qed.

Lemma int64_range x : is_int (int64 x).
Proof.
  unfold is_int, int64, wrap_signed.
  change (2 ^ (64 - 1)) with 9223372036854775808.
  change (2 ^ 63) with 9223372036854775808.
  change (2 ^ 64) with 18446744073709551616.
  pose proof (Z.mod_pos_bound (x + 9223372036854775808) 18446744073709551616).
  lia.
Qed.

Lemma int64_neg_neg i : is_int i -> int64 (- int64 (- i)) = i.
Proof.
  intros H. unfold is_int in H.
  change (2 ^ 63) with 9223372036854775808 in H.
  destruct (Z.eq_dec i (-9223372036854775808)) as [->|Hne]; [reflexivity|].
  rewrite (int64_small (x := - i)).
  - rewrite Z.opp_involutive. apply int64_small. unfold is_int.
    change (2 ^ 63) with 9223372036854775808. lia.
  - unfold is_int. change (2 ^ 63) with 9223372036854775808. lia.
Qed.

Lemma uvarintSize_bounds u :
  0 <= u < 2 ^ 64 ->
  0 <= GoWire.uvarintSize u <= 8 /\
  u < 256 ^ GoWire.uvarintSize u /\
  (GoWire.uvarintSize u = 0 <-> u = 0).
Proof.
  intros Hu. unfold GoWire.uvarintSize.
  change (2 ^ 64) with 18446744073709551616 in Hu.
  repeat match goal with
         | |- context [if ?c then _ else _] =>
             let E := fresh "E" in
             destruct c eqn:E;
             [ first [apply Z.eqb_eq in E | apply Z.ltb_lt in E]
             | first [apply Z.eqb_neq in E | apply Z.ltb_ge in E] ]
         end;
    cbn in *; lia.
Qed.

Lemma small_size_cases sz :
  0 <= sz <= 8 ->
  sz = 0 \/ sz = 1 \/ sz = 2 \/ sz = 3 \/ sz = 4 \/ sz = 5 \/ sz = 6 \/
  sz = 7 \/ sz = 8.
Proof. lia. Qed.

Lemma varint_header_plain sz :
  0 <= sz <= 8 -> (Z.shiftr (sz mod 256) 4 =? 15) = false.
Proof.
  intros H. apply small_size_cases in H.
  repeat (destruct H as [->|H]; [reflexivity|]). subst. reflexivity.
Qed.

Lemma varint_header_negative sz :
  0 <= sz <= 8 ->
  (Z.shiftr ((sz + 240) mod 256) 4 =? 15) = true /\
  Z.land ((sz + 240) mod 256) 15 = sz.
Proof.
  intros H. apply small_size_cases in H.
  repeat (destruct H as [->|H]; [split; reflexivity|]). subst. split; reflexivity.
Qed.

Lemma firstn_be_bytes n u (rest : bytes) :
  firstn n (be_bytes n u ++ rest) = be_bytes n u.
Proof.
  rewrite firstn_app, length_be_bytes, Nat.sub_diag. simpl.
  rewrite app_nil_r. apply firstn_all2. rewrite length_be_bytes. lia.
Qed.

(** Reading a header byte and the magnitude that follows it. *)
Lemma GetVarint_header (negate : bool) sz u rest :
  1 <= sz <= 8 -> 0 <= u < 256 ^ sz ->
  GoWire.GetVarint
    (byte_of_Z (if negate then sz + 240 else sz)
       :: be_bytes (Z.to_nat sz) u ++ rest)
  = inl (if negate then int64 (- int64 u) else int64 u, 1 + sz).
Proof.
  intros Hsz Hu. unfold GoWire.GetVarint. rewrite byte_val_of_Z.
  assert (Hbody :
    (if 8 <? sz then inr ErrVarintOverflow
     else if sz =? 0 then
       if negate then inr ErrNegativeZero else inl (0, 1)
     else if len (be_bytes (Z.to_nat sz) u ++ rest) <? sz
          then inr ErrInsufficientData
     else
       let i := int64 (be_value (firstn (Z.to_nat sz)
                                   (be_bytes (Z.to_nat sz) u ++ rest))) in
       inl (if negate then int64 (- i) else i, 1 + sz))
    = inl (if negate then int64 (- int64 u) else int64 u, 1 + sz)).
  { destruct (8 <? sz) eqn:E1; [apply Z.ltb_lt in E1; lia|].
    destruct (sz =? 0) eqn:E2; [apply Z.eqb_eq in E2; lia|].
    rewrite len_app. unfold len at 1. rewrite length_be_bytes.
    rewrite Z2Nat.id by lia.
    pose proof (len_nonneg rest).
    destruct (sz + len rest <? sz) eqn:E3; [apply Z.ltb_lt in E3; lia|].
    rewrite firstn_be_bytes, be_value_be_bytes by lia.
    rewrite Z2Nat.id by lia. rewrite Z.mod_small by lia. reflexivity. }
  destruct negate.
  - destruct (varint_header_negative (sz := sz)) as [H1 H2]; [lia|].
    rewrite H1, H2. exact Hbody.
  - rewrite varint_header_plain by lia.
    rewrite (Z.mod_small sz 256) by lia. exact Hbody.
Qed.

Lemma GoWire_GetVarint_WriteVarint i rest :
  is_int i ->
  GoWire.GetVarint (GoWire.WriteVarint i ++ rest)
  = inl (i, len (GoWire.WriteVarint i)).
Proof.
  intros Hi. unfold GoWire.WriteVarint.
  set (i' := if i <? 0 then int64 (- i) else i).
  set (u := i' mod 2 ^ 64).
  assert (Hi' : is_int i').
  { subst i'. destruct (i <? 0); [apply int64_range|exact Hi]. }
  assert (Hu : 0 <= u < 2 ^ 64) by (apply Z.mod_pos_bound; reflexivity).
  assert (Hiu : int64 u = i') by (subst u; rewrite int64_mod; apply int64_small; exact Hi').
  destruct (uvarintSize_bounds Hu) as (Hsz & Hlt & Hzero).
  rewrite len_cons. unfold len. rewrite length_be_bytes.
  rewrite Z2Nat.id by lia. cbn [app].
  destruct (Z.eq_dec (GoWire.uvarintSize u) 0) as [E|E].
  - (* the magnitude is zero *)
    assert (Hu0 : u = 0) by (apply Hzero; exact E).
    assert (Hi0 : i' = 0) by (rewrite <- Hiu, Hu0; reflexivity).
    rewrite E. clearbody u. subst i'.
    destruct (i <? 0) eqn:Hneg.
    + exfalso. apply Z.ltb_lt in Hneg.
      pose proof (int64_neg_neg Hi) as Hnn.
      rewrite Hi0 in Hnn. change (int64 (- 0)) with 0 in Hnn. lia.
    + rewrite Hi0. unfold GoWire.GetVarint. rewrite byte_val_of_Z.
      reflexivity.
  - rewrite GetVarint_header by lia. rewrite Hiu. f_equal. f_equal.
    subst i'. destruct (i <? 0); [apply int64_neg_neg; exact Hi|reflexivity].
Qed.

Lemma GoWire_GetByteSlice_WriteByteSlice bz rest :
  is_int (len (slice_data bz)) ->
  GoWire.GetByteSlice (GoWire.WriteByteSlice bz ++ rest)
  = inl (Some (slice_data bz), len (GoWire.WriteByteSlice bz)).
Proof.
  intros Hlen. unfold GoWire.GetByteSlice, GoWire.WriteByteSlice.
  rewrite <- app_assoc. rewrite GoWire_GetVarint_WriteVarint by exact Hlen.
  pose proof (len_nonneg (slice_data bz)) as Hnn.
  pose proof (len_nonneg rest).
  set (hd := GoWire.WriteVarint (len (slice_data bz))).
  replace (skipn (Z.to_nat (len hd)) (hd ++ slice_data bz ++ rest))
    with (slice_data bz ++ rest).
  2:{ unfold len. rewrite Nat2Z.id, skipn_app, skipn_all, Nat.sub_diag.
      reflexivity. }
  destruct (_ <? 0) eqn:E1; [apply Z.ltb_lt in E1; lia|].
  rewrite len_app.
  destruct (_ <? len (slice_data bz)) eqn:E2; [apply Z.ltb_lt in E2; lia|].
  unfold len at 1. rewrite Nat2Z.id.
  rewrite firstn_app, firstn_all, Nat.sub_diag. simpl firstn.
  rewrite app_nil_r, len_app. reflexivity.
Qed.

Lemma GoWire_GetUint64_WriteUint64 i rest :
  is_uint64 i -> GoWire.GetUint64 (GoWire.WriteUint64 i ++ rest) = Ok i.
Proof.
  intros Hi. unfold GoWire.GetUint64, GoWire.WriteUint64.
  rewrite len_app. unfold len at 1. rewrite length_be_bytes.
  pose proof (len_nonneg rest).
  destruct (_ <? 8) eqn:E; [apply Z.ltb_lt in E; lia|].
  rewrite firstn_be_bytes, be_value_be_bytes by (unfold is_uint64 in Hi; lia).
  unfold is_uint64 in Hi. rewrite Z.mod_small; [reflexivity|].
  change (256 ^ Z.of_nat 8) with (2 ^ 64). lia.
Qed.

Lemma GoWire_WriteInt8_one_byte i :
  is_int8 i ->
  exists b, GoWire.WriteInt8 i = [b] /\ int8 (byte_val b) = i.
Proof.
  intros Hi. exists (byte_of_Z i). split; [reflexivity|].
  rewrite byte_val_of_Z. unfold is_int8 in Hi. unfold int8, wrap_signed.
  change (2 ^ (8 - 1)) with 128. change (2 ^ 8) with 256.
  rewrite Zplus_mod_idemp_l. rewrite Z.mod_small; lia.
Qed.

Lemma GoWire_laws : WireLaws (wire := GoWire.codec).
Proof.
  constructor.
  - exact GoWire_WriteInt8_one_byte.
  - exact GoWire_GetVarint_WriteVarint.
  - exact GoWire_GetByteSlice_WriteByteSlice.
  - exact GoWire_GetUint64_WriteUint64.
  - intros i. reflexivity.
Qed.

(** ** Decoding the store-bytes *)

Lemma slice_from_1 b (l : bytes) : slice_from 1 (b :: l) = Ok l.
Proof.
  unfold slice_from. rewrite len_cons. pose proof (len_nonneg l).
  destruct (1 <? 0) eqn:E1; [discriminate|].
  destruct (1 + len l <? 1) eqn:E2; [apply Z.ltb_lt in E2; lia|].
  reflexivity.
Qed.

Lemma bytes_Equal_stored (s : slice) : bytes_Equal (Some (slice_data s)) s = true.
Proof. apply bytes_Equal_data. reflexivity. Qed.

Section RoundTrip.
Context {wire : WireCodec} {laws : WireLaws}.

Lemma slice_from_8 i (rest : bytes) :
  slice_from 8 (WriteUint64 i ++ rest) = Ok rest.
Proof. rewrite <- (WriteUint64_eight i). apply slice_from_app. Qed.

Lemma MakeIAVLNode_writeBytes node :
  encodable node ->
  exists w,
    writeBytes node = Ok (w, len w) /\
    MakeIAVLNode w = Ok (Decoded (stored_view node)).
Proof.
  intros (Hh & Hs & Hv & Hk & Hval & Hlh & Hrh & Hinner).
  destruct (WriteInt8_one_byte Hh) as (b & Hb & Hint).
  unfold writeBytes, stored_view. rewrite Hb.
  destruct (isLeaf node) eqn:Hleaf.
  - eexists. split; [reflexivity|].
    rewrite <- !app_assoc. cbn [app]. unfold MakeIAVLNode.
    rewrite Hint. rewrite slice_from_1. cbn [bindO].
    rewrite GetVarint_WriteVarint by exact Hs. cbn [bindG].
    rewrite slice_from_app. cbn [bindO].
    rewrite GetByteSlice_WriteByteSlice by exact Hk. cbn [bindG].
    rewrite slice_from_app. cbn [bindO].
    rewrite GetUint64_WriteUint64 by exact Hv. cbn [bindO].
    rewrite slice_from_8. cbn [bindO].
    unfold isLeaf in Hleaf. rewrite Hleaf.
    rewrite <- (app_nil_r (WriteByteSlice (value node))).
    rewrite GetByteSlice_WriteByteSlice by exact Hval. reflexivity.
  - destruct (Hinner eq_refl) as [Hl Hr]. rewrite Hl, Hr.
    eexists. split; [reflexivity|].
    rewrite <- !app_assoc. cbn [app]. unfold MakeIAVLNode.
    rewrite Hint. rewrite slice_from_1. cbn [bindO].
    rewrite GetVarint_WriteVarint by exact Hs. cbn [bindG].
    rewrite slice_from_app. cbn [bindO].
    rewrite GetByteSlice_WriteByteSlice by exact Hk. cbn [bindG].
    rewrite slice_from_app. cbn [bindO].
    rewrite GetUint64_WriteUint64 by exact Hv. cbn [bindO].
    rewrite slice_from_8. cbn [bindO].
    unfold isLeaf in Hleaf. rewrite Hleaf.
    rewrite GetByteSlice_WriteByteSlice by exact Hlh. cbn [bindG].
    rewrite slice_from_app. cbn [bindO].
    rewrite <- (app_nil_r (WriteByteSlice (rightHash node))).
    rewrite GetByteSlice_WriteByteSlice by exact Hrh. reflexivity.
Qed.

(** C5, as amended.  For a node whose fields fit their types and which, if
    inner, has both child hashes, decoding its store-bytes gives a node with
    the same height, size and version, the same bytes as key, and the same
    bytes as value (leaf) or as child hashes (inner).  The decoded node has
    no hash, is not persisted, and has no resident child. *)
Theorem decode_writeBytes_keeps_the_stored_fields :
  forall node,
    encodable node ->
    exists w d,
      writeBytes node = Ok (w, len w) /\
      MakeIAVLNode w = Ok (Decoded d) /\
      height d = height node /\ size d = size node /\
      version d = version node /\
      bytes_Equal (key d) (key node) = true /\
      (isLeaf node = true -> bytes_Equal (value d) (value node) = true) /\
      (isLeaf node = false ->
       bytes_Equal (leftHash d) (leftHash node) = true /\
       bytes_Equal (rightHash d) (rightHash node) = true) /\
      hash d = None /\ persisted d = false /\
      leftNode d = None /\ rightNode d = None.
Proof.
  intros node Henc.
  destruct (MakeIAVLNode_writeBytes Henc) as (w & Hw & Hd).
  exists w, (stored_view node).
  split; [exact Hw|]. split; [exact Hd|].
  unfold stored_view; simpl.
  split; [reflexivity|]. split; [reflexivity|]. split; [reflexivity|].
  split; [apply bytes_Equal_stored|].
  split; [intros Hleaf; rewrite Hleaf; apply bytes_Equal_stored|].
  split; [|repeat split].
  intros Hleaf; rewrite Hleaf. split; apply bytes_Equal_stored.
Qed.
End RoundTrip.

Lemma S2_saved_encodable : encodable S2_saved.
Proof.
  unfold encodable, is_int8, is_int, is_uint64.
  repeat split; try (vm_compute; congruence).
Qed.

Lemma decode_writeBytes_witness :
  exists w d,
    writeBytes (wire := GoWire.codec) S2_saved = Ok (w, len w) /\
    MakeIAVLNode (wire := GoWire.codec) w = Ok (Decoded d) /\
    bytes_Equal (key d) (key S2_saved) = true.
Proof.
  destruct (decode_writeBytes_keeps_the_stored_fields
              (laws := GoWire_laws) S2_saved_encodable)
    as (w & d & Hw & Hd & _ & _ & _ & Hk & _).
  exists w, d. repeat split; assumption.
Defined.

(** C5, as stated, fails: the saved tree of S2 has its children resident,
    and the node decoded from its store-bytes has none. *)
Lemma decode_forgets_the_resident_children :
  exists w d,
    writeBytes (wire := GoWire.codec) S2_saved = Ok (w, len w) /\
    MakeIAVLNode (wire := GoWire.codec) w = Ok (Decoded d) /\
    leftNode S2_saved <> None /\ leftNode d = None /\
    leftNode d <> leftNode S2_saved.
Proof.
  exists (match writeBytes (wire := GoWire.codec) S2_saved with
          | Ok (w, _) => w
          | _ => []
          end).
  exists (stored_view S2_saved).
  repeat split; try (vm_compute; reflexivity); discriminate.
Qed.

(** ** The hash as a function of the skeleton *)

Section SkeletonHash.
Context {wire : WireCodec} {hasher : Hasher}.

(** [writeHashBytes] in terms of the hashes of the children. *)
Lemma writeHashBytes_by_children node :
  bytes_and_count (writeHashBytes node)
  = if isLeaf node then
      let w := WriteInt8 (height node) ++ WriteVarint (size node)
                 ++ WriteByteSlice (key node) ++ WriteByteSlice (value node)
                 ++ WriteUint64 (version node) in
      Ok (w, len w, 0)
    else
      '(lh, lc) <~ child_hash_count (leftNode node) (leftHash node) ;;
      if is_nil lh then Panicked PanicHashLeftNil
      else
        '(rh, rc) <~ child_hash_count (rightNode node) (rightHash node) ;;
        if is_nil rh then Panicked PanicHashRightNil
        else
          let w := WriteInt8 (height node) ++ WriteVarint (size node)
                     ++ WriteByteSlice lh ++ WriteByteSlice rh in
          Ok (w, len w, 0 + lc + rc).
Proof.
  unfold writeHashBytes, writeHashBytesWith, bytes_and_count,
    child_hash_count, hash_and_count.
  destruct (isLeaf node).
  - simpl. rewrite <- !app_assoc. reflexivity.
  - destruct (leftNode node) as [l|].
    + destruct (hashWithCount l) as [[[l' lh] lc]| |]; simpl; try reflexivity.
      destruct (is_nil lh); [reflexivity|].
      destruct (rightNode node) as [r|].
      * destruct (hashWithCount r) as [[[r' rh] rc]| |]; simpl; try reflexivity.
        destruct (is_nil rh); simpl; [reflexivity|].
        rewrite <- !app_assoc. reflexivity.
      * simpl. destruct (is_nil (rightHash node)); simpl; [reflexivity|].
        rewrite <- !app_assoc, Z.add_0_r. reflexivity.
    + simpl. destruct (is_nil (leftHash node)); [reflexivity|].
      destruct (rightNode node) as [r|].
      * destruct (hashWithCount r) as [[[r' rh] rc]| |]; simpl; try reflexivity.
        destruct (is_nil rh); simpl; [reflexivity|].
        rewrite <- !app_assoc. reflexivity.
      * simpl. destruct (is_nil (rightHash node)); simpl; [reflexivity|].
        rewrite <- !app_assoc. reflexivity.
Qed.

Lemma hashWithCount_by_bytes node :
  hash_and_count (hashWithCount node)
  = match hash node with
    | Some h => Ok (Some h, 0)
    | None =>
        '(w, _, c) <~ bytes_and_count (writeHashBytes node) ;;
        Ok (Some (ripemd160_Sum w), c + 1)
    end.
Proof.
  rewrite hashWithCount_unfold. unfold hash_and_count, bytes_and_count.
  destruct (hash node); [reflexivity|].
  destruct (writeHashBytes node) as [[[[n w] m] c]| |]; reflexivity.
Qed.

Lemma skeleton_unfold n :
  skeleton n
  = if isLeaf n then SLeaf (height n) (size n) (key n) (value n) (version n)
    else SInner (height n) (size n)
           (match leftNode n with Some l => Some (skeleton l) | None => None end)
           (match rightNode n with Some r => Some (skeleton r) | None => None end).
Proof. destruct n; reflexivity. Qed.

Lemma unhashed_unfold n :
  unhashed n
  = is_nil (hash n) && is_nil (leftHash n) && is_nil (rightHash n) &&
    match leftNode n with Some l => unhashed l | None => true end &&
    match rightNode n with Some r => unhashed r | None => true end.
Proof. destruct n; reflexivity. Qed.

Lemma unhashed_fields n :
  unhashed n = true ->
  hash n = None /\ leftHash n = None /\ rightHash n = None /\
  (forall l, leftNode n = Some l -> unhashed l = true) /\
  (forall r, rightNode n = Some r -> unhashed r = true).
Proof.
  rewrite unhashed_unfold. intros H.
  repeat (apply andb_prop in H; destruct H as [H ?]).
  destruct (hash n); [discriminate|].
  destruct (leftHash n); [discriminate|].
  destruct (rightHash n); [discriminate|].
  repeat split; try reflexivity.
  - intros l E. rewrite E in *. assumption.
  - intros r E. rewrite E in *. assumption.
Qed.

Lemma hash_by_skeleton n1 :
  forall n2,
    unhashed n1 = true -> unhashed n2 = true ->
    skeleton n1 = skeleton n2 ->
    hash_and_count (hashWithCount n1) = hash_and_count (hashWithCount n2).
Proof.
  induction n1 as [n1 IHl IHr] using IAVLNode_tree_ind.
  intros n2 Hu1 Hu2 Hsk.
  apply unhashed_fields in Hu1. destruct Hu1 as (Hh1 & Hlh1 & Hrh1 & Hul1 & Hur1).
  apply unhashed_fields in Hu2. destruct Hu2 as (Hh2 & Hlh2 & Hrh2 & Hul2 & Hur2).
  rewrite !hashWithCount_by_bytes, Hh1, Hh2.
  rewrite !writeHashBytes_by_children.
  rewrite (skeleton_unfold n1), (skeleton_unfold n2) in Hsk.
  destruct (isLeaf n1), (isLeaf n2); try discriminate.
  - injection Hsk as -> -> -> -> ->. reflexivity.
  - injection Hsk as -> -> Hl Hr.
    assert (HL : child_hash_count (leftNode n1) (leftHash n1)
                 = child_hash_count (leftNode n2) (leftHash n2)).
    { rewrite Hlh1, Hlh2.
      destruct (leftNode n1) as [l1|], (leftNode n2) as [l2|];
        try discriminate; [|reflexivity].
      injection Hl as Hl. simpl. apply (IHl l1 eq_refl); auto. }
    assert (HR : child_hash_count (rightNode n1) (rightHash n1)
                 = child_hash_count (rightNode n2) (rightHash n2)).
    { rewrite Hrh1, Hrh2.
      destruct (rightNode n1) as [r1|], (rightNode n2) as [r2|];
        try discriminate; [|reflexivity].
      injection Hr as Hr. simpl. apply (IHr r1 eq_refl); auto. }
    rewrite HL, HR. reflexivity.
Qed.

Lemma tidy_unfold n :
  tidy n
  = is_nil (hash n) && is_nil (leftHash n) && is_nil (rightHash n) &&
    match leftNode n with Some l => tidy l | None => isLeaf n end &&
    match rightNode n with Some r => tidy r | None => isLeaf n end.
Proof. destruct n; reflexivity. Qed.

Lemma tidy_fields n :
  tidy n = true ->
  hash n = None /\ leftHash n = None /\ rightHash n = None /\
  (forall l, leftNode n = Some l -> tidy l = true) /\
  (forall r, rightNode n = Some r -> tidy r = true) /\
  (isLeaf n = false ->
   exists l r, leftNode n = Some l /\ rightNode n = Some r).
Proof.
  rewrite tidy_unfold. intros H.
  repeat (apply andb_prop in H; destruct H as [H ?]).
  destruct (hash n); [discriminate|].
  destruct (leftHash n); [discriminate|].
  destruct (rightHash n); [discriminate|].
  repeat split; try reflexivity.
  - intros l E. rewrite E in *. assumption.
  - intros r E. rewrite E in *. assumption.
  - intros Hleaf. rewrite Hleaf in *.
    destruct (leftNode n) as [l|]; [|discriminate].
    destruct (rightNode n) as [r|]; [|discriminate].
    exists l, r. split; reflexivity.
Qed.

Lemma tidy_unhashed n : tidy n = true -> unhashed n = true.
Proof.
  induction n as [n IHl IHr] using IAVLNode_tree_ind.
  intros H. apply tidy_fields in H.
  destruct H as (Hh & Hlh & Hrh & Hl & Hr & _).
  rewrite unhashed_unfold, Hh, Hlh, Hrh. simpl.
  destruct (leftNode n) as [l|]; [rewrite (IHl l eq_refl (Hl l eq_refl))|];
    destruct (rightNode n) as [r|]; try rewrite (IHr r eq_refl (Hr r eq_refl));
    reflexivity.
Qed.

(** A tidy tree has a hash. *)
Lemma tidy_has_a_hash n :
  tidy n = true -> exists h c, hash_and_count (hashWithCount n) = Ok (Some h, c).
Proof.
  induction n as [n IHl IHr] using IAVLNode_tree_ind.
  intros H. apply tidy_fields in H.
  destruct H as (Hh & Hlh & Hrh & Hl & Hr & Hin).
  rewrite hashWithCount_by_bytes, Hh, writeHashBytes_by_children.
  destruct (isLeaf n); [eexists _, _; reflexivity|].
  destruct (Hin eq_refl) as (l & r & El & Er).
  rewrite El, Er. simpl.
  destruct (IHl l El (Hl l El)) as (lh & lc & ->).
  destruct (IHr r Er (Hr r Er)) as (rh & rc & ->).
  simpl. eexists _, _. reflexivity.
Qed.
End SkeletonHash.

(** ** Trees built without a store are tidy *)

Lemma getLeftNode_without_store t n l :
  ndb t = None -> getLeftNode t n = Ok l -> leftNode n = Some l.
Proof.
  intros Ht. unfold getLeftNode, GetNode. rewrite Ht.
  destruct (leftNode n); [congruence|discriminate].
Qed.

Lemma getRightNode_without_store t n r :
  ndb t = None -> getRightNode t n = Ok r -> rightNode n = Some r.
Proof.
  intros Ht. unfold getRightNode, GetNode. rewrite Ht.
  destruct (rightNode n); [congruence|discriminate].
Qed.

Lemma removeOrphan_without_store n t u t' :
  ndb t = None -> removeOrphan n t = Ok (u, t') -> t' = t.
Proof.
  intros Ht. unfold removeOrphan. rewrite Ht.
  destruct (negb (persisted n)); congruence.
Qed.

Lemma tidy_left n l : tidy n = true -> leftNode n = Some l -> tidy l = true.
Proof.
  intros H E. apply tidy_fields in H. destruct H as (_ & _ & _ & Hl & _).
  apply Hl. exact E.
Qed.

Lemma tidy_right n r : tidy n = true -> rightNode n = Some r -> tidy r = true.
Proof.
  intros H E. apply tidy_fields in H. destruct H as (_ & _ & _ & _ & Hr & _).
  apply Hr. exact E.
Qed.

Lemma tidy_build n l r :
  hash n = None -> leftHash n = None -> rightHash n = None ->
  leftNode n = Some l -> rightNode n = Some r ->
  tidy l = true -> tidy r = true -> tidy n = true.
Proof.
  intros Hh Hlh Hrh El Er Hl Hr.
  rewrite tidy_unfold, Hh, Hlh, Hrh, El, Er, Hl, Hr. reflexivity.
Qed.

Lemma tidy_leaf k v : tidy (NewIAVLNode k v) = true.
Proof. reflexivity. Qed.

Lemma tidy_copy n c : _copy n = Ok c -> tidy n = true -> tidy c = true.
Proof.
  intros Hc H. apply copy_Ok in Hc.
  destruct Hc as (Hleaf & _ & Hh & _ & _ & _ & _ & Hlh & Hln & Hrh & Hrn).
  apply tidy_fields in H. destruct H as (_ & Hlh' & Hrh' & Hl & Hr & Hin).
  destruct (Hin Hleaf) as (l & r & El & Er).
  apply (@tidy_build c l r); try congruence; auto.
Qed.

Lemma tidy_calcHeightAndSize t n n' :
  ndb t = None -> calcHeightAndSize t n = Ok n' ->
  tidy n = true -> tidy n' = true.
Proof.
  intros Ht H Hn. unfold calcHeightAndSize in H. inv_ok.
  match goal with
  | Hl : getLeftNode _ _ = Ok ?l, Hr : getRightNode _ _ = Ok ?r |- _ =>
      apply getLeftNode_without_store in Hl; [|exact Ht];
      apply getRightNode_without_store in Hr; [|exact Ht];
      pose proof (@tidy_left _ _ Hn Hl); pose proof (@tidy_right _ _ Hn Hr);
      apply tidy_fields in Hn; destruct Hn as (Hh & Hlh & Hrh & _);
      subst n';
      apply (@tidy_build _ l r); auto
  end.
Qed.

Lemma tidy_with_left n l r :
  tidy n = true -> rightNode n = Some r -> tidy l = true ->
  tidy (with_left None (Some l) n) = true.
Proof.
  intros Hn Er Hl. apply tidy_fields in Hn.
  destruct Hn as (Hh & _ & Hrh & _ & Hr & _).
  apply (@tidy_build _ l r); auto.
Qed.

Lemma tidy_with_right n l r :
  tidy n = true -> leftNode n = Some l -> tidy r = true ->
  tidy (with_right None (Some r) n) = true.
Proof.
  intros Hn El Hr. apply tidy_fields in Hn.
  destruct Hn as (Hh & Hlh & _ & Hl & _ & _).
  apply (@tidy_build _ l r); auto.
Qed.

Lemma tidy_inner n :
  tidy n = true -> isLeaf n = false ->
  exists l r, leftNode n = Some l /\ rightNode n = Some r.
Proof. intros H. apply tidy_fields in H. apply H. Qed.

Lemma copy_inner n c : _copy n = Ok c -> isLeaf n = false /\ isLeaf c = false.
Proof.
  intros H. apply copy_Ok in H. destruct H as (Hleaf & _ & _ & _ & Hh & _).
  split; [exact Hleaf|]. unfold isLeaf in *. congruence.
Qed.

(** One call of a sequence, with names for its result. *)
Tactic Notation "step" hyp(H) "as" ident(x) ident(s) ident(Hx) :=
  apply bindM_Ok in H; destruct H as (x & s & Hx & H).

Tactic Notation "step_lift" hyp(H) "as" ident(x) ident(Hx) :=
  let s := fresh "s" in
  apply bindM_Ok in H; destruct H as (x & s & Hx & H);
  apply lift_Ok in Hx; destruct Hx as (Hx & ->).

Tactic Notation "step_rd" hyp(H) "as" ident(x) ident(Hx) :=
  let s := fresh "s" in
  apply bindM_Ok in H; destruct H as (x & s & Hx & H);
  apply rd_Ok in Hx; destruct Hx as (Hx & ->).

Tactic Notation "step_orphan" hyp(H) "with" hyp(Ht) :=
  let u := fresh "u" in let s := fresh "s" in let Ho := fresh "Ho" in
  apply bindM_Ok in H; destruct H as (u & s & Ho & H);
  apply removeOrphan_without_store in Ho; [|exact Ht]; subst s.

Lemma rotateRight_tidy n t r t' :
  ndb t = None -> tidy n = true ->
  rotateRight n t = Ok (r, t') -> t' = t /\ tidy r = true.
Proof.
  intros Ht Hn H. unfold rotateRight in H.
  step_lift H as c Hc. step_rd H as l Hg. step_orphan H with Ht.
  step_lift H as cl Hcl. step_rd H as c' Hc'. step_rd H as cl' Hcl'.
  apply ret_Ok in H. destruct H as [-> ->]. split; [reflexivity|].
  pose proof (@tidy_copy _ _ Hc Hn) as Hcn.
  pose proof (@copy_inner _ _ Hc) as [_ Hci].
  destruct (@tidy_inner _ Hcn Hci) as (cx & cy & Ecx & Ecy).
  apply getLeftNode_without_store in Hg; [|exact Ht].
  pose proof (@tidy_left _ _ Hcn Hg) as Hl.
  pose proof (@tidy_copy _ _ Hcl Hl) as Hcln.
  pose proof (@copy_inner _ _ Hcl) as [_ Hcli].
  pose proof (@tidy_fields _ Hcln) as (_ & _ & Hrh & _ & Hr & _).
  destruct (@tidy_inner _ Hcln Hcli) as (x & y & Ex & Ey).
  rewrite Ey, Hrh in Hc'.
  apply tidy_calcHeightAndSize in Hc'; [|exact Ht|].
  - pose proof (@tidy_fields _ Hc') as (Hh & _).
    rewrite Hh in Hcl'.
    apply tidy_calcHeightAndSize in Hcl'; [exact Hcl'|exact Ht|].
    apply (@tidy_with_right _ x); auto.
  - apply (@tidy_with_left _ _ cy); auto.
Qed.

Lemma rotateLeft_tidy n t r t' :
  ndb t = None -> tidy n = true ->
  rotateLeft n t = Ok (r, t') -> t' = t /\ tidy r = true.
Proof.
  intros Ht Hn H. unfold rotateLeft in H.
  step_lift H as c Hc. step_rd H as l Hg. step_orphan H with Ht.
  step_lift H as cl Hcl. step_rd H as c' Hc'. step_rd H as cl' Hcl'.
  apply ret_Ok in H. destruct H as [-> ->]. split; [reflexivity|].
  pose proof (@tidy_copy _ _ Hc Hn) as Hcn.
  pose proof (@copy_inner _ _ Hc) as [_ Hci].
  destruct (@tidy_inner _ Hcn Hci) as (cx & cy & Ecx & Ecy).
  apply getRightNode_without_store in Hg; [|exact Ht].
  pose proof (@tidy_right _ _ Hcn Hg) as Hl.
  pose proof (@tidy_copy _ _ Hcl Hl) as Hcln.
  pose proof (@copy_inner _ _ Hcl) as [_ Hcli].
  pose proof (@tidy_fields _ Hcln) as (_ & Hlh & _ & Hl' & _ & _).
  destruct (@tidy_inner _ Hcln Hcli) as (x & y & Ex & Ey).
  rewrite Ex, Hlh in Hc'.
  apply tidy_calcHeightAndSize in Hc'; [|exact Ht|].
  - pose proof (@tidy_fields _ Hc') as (Hh & _).
    rewrite Hh in Hcl'.
    apply tidy_calcHeightAndSize in Hcl'; [exact Hcl'|exact Ht|].
    apply (@tidy_with_left _ _ y); auto.
  - apply (@tidy_with_right _ cx); auto.
Qed.

Lemma calcBalance_children t n b :
  ndb t = None -> calcBalance t n = Ok b ->
  exists l r, leftNode n = Some l /\ rightNode n = Some r.
Proof.
  intros Ht H. unfold calcBalance in H.
  apply bindO_Ok in H. destruct H as (l & Hl & H).
  apply bindO_Ok in H. destruct H as (r & Hr & _).
  exists l, r. split.
  - eapply getLeftNode_without_store; eassumption.
  - eapply getRightNode_without_store; eassumption.
Qed.

Lemma balance_tidy n t r t' :
  ndb t = None -> tidy n = true ->
  balance n t = Ok (r, t') -> t' = t /\ tidy r = true.
Proof.
  intros Ht Hn H. unfold balance in H.
  destruct (persisted n); [discriminate|].
  step_rd H as b Hb.
  destruct (@calcBalance_children _ _ _ Ht Hb) as (cx & cy & Ecx & Ecy).
  destruct (1 <? b).
  - step_rd H as l Hl. step_rd H as lb Hlb.
    destruct (0 <=? lb); [apply (@rotateRight_tidy _ _ _ _ Ht Hn H)|].
    step_rd H as l' Hl'. step_orphan H with Ht.
    step H as rl t1 Hrl.
    apply getLeftNode_without_store in Hl'; [|exact Ht].
    apply rotateLeft_tidy in Hrl; [|exact Ht|apply (@tidy_left _ _ Hn Hl')].
    destruct Hrl as [-> Hrl].
    apply rotateRight_tidy in H; [exact H|exact Ht|].
    apply (@tidy_with_left _ _ cy); auto.
  - destruct (b <? -1).
    + step_rd H as x Hx. step_rd H as rb Hrb.
      destruct (rb <=? 0); [apply (@rotateLeft_tidy _ _ _ _ Ht Hn H)|].
      step_rd H as x' Hx'. step_orphan H with Ht.
      step H as rr t1 Hrr.
      apply getRightNode_without_store in Hx'; [|exact Ht].
      apply rotateRight_tidy in Hrr; [|exact Ht|apply (@tidy_right _ _ Hn Hx')].
      destruct Hrr as [-> Hrr].
      apply rotateLeft_tidy in H; [exact H|exact Ht|].
      apply (@tidy_with_right _ cx); auto.
    + apply ret_Ok in H. destruct H as [-> ->]. auto.
Qed.

Lemma tidy_with_key k n : tidy (with_key k n) = tidy n.
Proof. rewrite !tidy_unfold. reflexivity. Qed.

(** The tail of [set] and of [remove]: height and size, then balance. *)
Lemma rebalance_tidy n t r t' :
  ndb t = None -> tidy n = true ->
  (node <- rd (fun t => calcHeightAndSize t n) ;; balance node) t = Ok (r, t') ->
  t' = t /\ tidy r = true.
Proof.
  intros Ht Hn H. step_rd H as n1 Hn1.
  apply tidy_calcHeightAndSize in Hn1; [|exact Ht|exact Hn].
  apply (@balance_tidy _ _ _ _ Ht Hn1 H).
Qed.

Lemma set_tidy fuel :
  forall n k v t r u o t',
    ndb t = None -> tidy n = true ->
    set fuel n k v t = Ok (r, u, o, t') -> t' = t /\ tidy r = true.
Proof.
  induction fuel as [|fuel IH]; intros n k v t r u o t' Ht Hn H;
    [discriminate|].
  simpl in H. destruct (isLeaf n) eqn:Hleaf.
  - destruct (_ =? -1).
    { apply ret_Ok in H. destruct H as [H ->]. injection H as -> _ _.
      split; [reflexivity|].
      apply (@tidy_build _ (NewIAVLNode k v) n); auto. }
    destruct (_ =? 1).
    { apply ret_Ok in H. destruct H as [H ->]. injection H as -> _ _.
      split; [reflexivity|].
      apply (@tidy_build _ n (NewIAVLNode k v)); auto. }
    apply ret_Ok in H. destruct H as [H ->]. injection H as -> _ _.
    split; reflexivity.
  - step_lift H as c Hc.
    pose proof (@tidy_copy _ _ Hc Hn) as Hcn.
    pose proof (@copy_inner _ _ Hc) as [_ Hci].
    destruct (@tidy_inner _ Hcn Hci) as (cx & cy & Ecx & Ecy).
    destruct (_ <? 0).
    + step_rd H as l Hl. step H as res t1 Hres.
      destruct res as [[newLeft updated] orphaned].
      apply getLeftNode_without_store in Hl; [|exact Ht].
      apply IH in Hres; [|exact Ht|apply (@tidy_left _ _ Hcn Hl)].
      destruct Hres as [-> Hnew].
      assert (Hw : tidy (with_left None (Some newLeft) c) = true)
        by (apply (@tidy_with_left _ _ cy); auto).
      destruct updated.
      * apply ret_Ok in H. destruct H as [H ->]. injection H as -> _ _. auto.
      * apply bindM_Ok in H. destruct H as (n1 & t1 & Hn1 & H).
        apply bindM_Ok in H. destruct H as (n2 & t2 & Hn2 & H).
        apply ret_Ok in H. destruct H as [H ->]. injection H as -> _ _.
        apply rd_Ok in Hn1. destruct Hn1 as [Hn1 ->].
        apply tidy_calcHeightAndSize in Hn1; [|exact Ht|exact Hw].
        apply (@balance_tidy _ _ _ _ Ht Hn1 Hn2).
    + step_rd H as x Hx. step H as res t1 Hres.
      destruct res as [[newRight updated] orphaned].
      apply getRightNode_without_store in Hx; [|exact Ht].
      apply IH in Hres; [|exact Ht|apply (@tidy_right _ _ Hcn Hx)].
      destruct Hres as [-> Hnew].
      assert (Hw : tidy (with_right None (Some newRight) c) = true)
        by (apply (@tidy_with_right _ cx); auto).
      destruct updated.
      * apply ret_Ok in H. destruct H as [H ->]. injection H as -> _ _. auto.
      * apply bindM_Ok in H. destruct H as (n1 & t1 & Hn1 & H).
        apply bindM_Ok in H. destruct H as (n2 & t2 & Hn2 & H).
        apply ret_Ok in H. destruct H as [H ->]. injection H as -> _ _.
        apply rd_Ok in Hn1. destruct Hn1 as [Hn1 ->].
        apply tidy_calcHeightAndSize in Hn1; [|exact Ht|exact Hw].
        apply (@balance_tidy _ _ _ _ Ht Hn1 Hn2).
Qed.

Lemma remove_tidy fuel :
  forall n k t nh nn nk val removed t',
    ndb t = None -> tidy n = true ->
    remove fuel n k t = Ok (nh, nn, nk, val, removed, t') ->
    t' = t /\ nh = None /\ (forall x, nn = Some x -> tidy x = true).
Proof.
  induction fuel as [|fuel IH];
    intros n k t nh nn nk val removed t' Ht Hn H; [discriminate|].
  simpl in H.
  pose proof (@tidy_fields _ Hn) as (Hh & Hlh & Hrh & Hl & Hr & _).
  assert (Hkeep : forall v' b,
    ret (hash n, Some n, @None bytes, v', b) t
    = Ok (nh, nn, nk, val, removed, t') ->
    t' = t /\ nh = None /\ (forall x, nn = Some x -> tidy x = true)).
  { intros v' b E. apply ret_Ok in E. destruct E as [E ->].
    injection E as -> -> _ _ _. repeat split; auto.
    intros x Ex. injection Ex as <-. exact Hn. }
  destruct (isLeaf n) eqn:Hleaf.
  - destruct (bytes_Equal k (key n)); [|apply (Hkeep _ _ H)].
    step_orphan H with Ht.
    apply ret_Ok in H. destruct H as [H ->].
    injection H as -> -> _ _ _. repeat split; auto. discriminate.
  - destruct (_ <? 0).
    + step_rd H as l Hg. step H as res t1 Hres.
      destruct res as [[[[newHash newNode] newKey] val'] removed'].
      apply getLeftNode_without_store in Hg; [|exact Ht].
      apply IH in Hres; [|exact Ht|apply (Hl l Hg)].
      destruct Hres as (-> & -> & Hnew).
      destruct (negb removed'); [apply (Hkeep _ _ H)|].
      destruct newNode as [x|]; simpl in H.
      * step_orphan H with Ht. step_lift H as c Hc.
        apply bindM_Ok in H. destruct H as (n1 & t1 & Hn1 & H).
        apply bindM_Ok in H. destruct H as (n2 & t2 & Hn2 & H).
        apply ret_Ok in H. destruct H as [H ->].
        injection H as -> -> _ _ _.
        apply rd_Ok in Hn1. destruct Hn1 as [Hn1 ->].
        pose proof (@tidy_copy _ _ Hc Hn) as Hcn.
        pose proof (@copy_inner _ _ Hc) as [_ Hci].
        destruct (@tidy_inner _ Hcn Hci) as (cx & cy & Ecx & Ecy).
        apply tidy_calcHeightAndSize in Hn1;
          [|exact Ht|apply (@tidy_with_left _ _ cy); auto].
        destruct (@balance_tidy _ _ _ _ Ht Hn1 Hn2) as [-> Hn2'].
        split; [reflexivity|]. split.
        -- apply (@tidy_fields _ Hn2').
        -- intros y Ey. injection Ey as <-. exact Hn2'.
      * apply ret_Ok in H. destruct H as [H ->].
        injection H as -> -> _ _ _. repeat split; auto.
    + step_rd H as r Hg. step H as res t1 Hres.
      destruct res as [[[[newHash newNode] newKey] val'] removed'].
      apply getRightNode_without_store in Hg; [|exact Ht].
      apply IH in Hres; [|exact Ht|apply (Hr r Hg)].
      destruct Hres as (-> & -> & Hnew).
      destruct (negb removed'); [apply (Hkeep _ _ H)|].
      destruct newNode as [x|]; simpl in H.
      * step_orphan H with Ht. step_lift H as c Hc.
        apply bindM_Ok in H. destruct H as (n1 & t1 & Hn1 & H).
        apply bindM_Ok in H. destruct H as (n2 & t2 & Hn2 & H).
        apply ret_Ok in H. destruct H as [H ->].
        injection H as -> -> _ _ _.
        apply rd_Ok in Hn1. destruct Hn1 as [Hn1 ->].
        pose proof (@tidy_copy _ _ Hc Hn) as Hcn.
        pose proof (@copy_inner _ _ Hc) as [_ Hci].
        destruct (@tidy_inner _ Hcn Hci) as (cx & cy & Ecx & Ecy).
        apply tidy_calcHeightAndSize in Hn1; [|exact Ht|].
        2:{ destruct (negb (is_nil newKey)); [rewrite tidy_with_key|];
            apply (@tidy_with_right _ cx); auto. }
        destruct (@balance_tidy _ _ _ _ Ht Hn1 Hn2) as [-> Hn2'].
        split; [reflexivity|]. split.
        -- apply (@tidy_fields _ Hn2').
        -- intros y Ey. injection Ey as <-. exact Hn2'.
      * apply ret_Ok in H. destruct H as [H ->].
        injection H as -> -> _ _ _. repeat split; auto.
Qed.

Lemma run_ops_tidy fuel ops :
  forall root t root' t',
    ndb t = None -> tidy_root root ->
    run_ops fuel ops root t = Ok (root', t') ->
    tidy_root root'.
Proof.
  induction ops as [|o ops IH]; intros root t root' t' Ht Hroot H.
  - apply ret_Ok in H. destruct H as [-> _]. exact Hroot.
  - destruct o as [k v|k]; simpl in H.
    + step H as res t1 Hres. destruct res as [[root1 u] orph].
      assert (Hstep : t1 = t /\ tidy_root root1).
      { unfold tree_set in Hres. destruct root as [n|].
        - step Hres as res t2 Hset. destruct res as [[n1 u1] o1].
          apply ret_Ok in Hres. destruct Hres as [E ->].
          injection E as -> _ _.
          apply set_tidy in Hset; [|exact Ht|apply Hroot; reflexivity].
          destruct Hset as [-> Hn1]. split; [reflexivity|].
          intros x Ex. injection Ex as <-. exact Hn1.
        - apply ret_Ok in Hres. destruct Hres as [E ->].
          injection E as -> _ _. split; [reflexivity|].
          intros x Ex. injection Ex as <-. reflexivity. }
      destruct Hstep as [-> Hroot1].
      apply (IH _ _ _ _ Ht Hroot1 H).
    + step H as res t1 Hres. destruct res as [[root1 val] removed].
      assert (Hstep : t1 = t /\ tidy_root root1).
      { unfold tree_remove in Hres. destruct root as [n|].
        - step Hres as res t2 Hrem.
          destruct res as [[[[nh nn] nk] val'] removed'].
          apply remove_tidy in Hrem; [|exact Ht|apply Hroot; reflexivity].
          destruct Hrem as (-> & -> & Hnn).
          destruct (negb removed').
          + apply ret_Ok in Hres. destruct Hres as [E ->].
            injection E as -> _ _. split; [reflexivity|exact Hroot].
          + destruct nn as [x|]; simpl in Hres;
              apply ret_Ok in Hres; destruct Hres as [E ->];
              injection E as -> _ _; (split; [reflexivity|]).
            * intros y Ey. apply Hnn. exact Ey.
            * intros y Ey. discriminate Ey.
        - apply ret_Ok in Hres. destruct Hres as [E ->].
          injection E as -> _ _. split; [reflexivity|].
          intros x Ex. discriminate Ex. }
      destruct Hstep as [-> Hroot1].
      apply (IH _ _ _ _ Ht Hroot1 H).
Qed.

Section Determinism.
Context {wire : WireCodec} {hasher : Hasher}.

(** C2, as amended.  The hash of a tree in which no hash is stored is a
    function of its skeleton: the shape, the height and size of every node,
    and the key, value and version of every leaf.  Two sequences of inserts
    and deletes that start from the empty tree, without store, and end in
    trees with the same skeleton give the same root hash, and that hash
    exists.  The separators and the versions of the inner nodes, and the
    path by which the tree was built, do not enter it. *)
Theorem root_hash_is_a_function_of_the_skeleton :
  (forall n1 n2,
      unhashed n1 = true -> unhashed n2 = true ->
      skeleton n1 = skeleton n2 ->
      hash_and_count (hashWithCount n1) = hash_and_count (hashWithCount n2)) /\
  (forall fuel1 fuel2 ops1 ops2 root1 root2 t1 t2,
      run_ops fuel1 ops1 None stub = Ok (root1, t1) ->
      run_ops fuel2 ops2 None stub = Ok (root2, t2) ->
      option_map skeleton root1 = option_map skeleton root2 ->
      exists h, root_hash root1 = Ok h /\ root_hash root2 = Ok h).
Proof.
  split; [intros n1 n2; apply hash_by_skeleton|].
  intros fuel1 fuel2 ops1 ops2 root1 root2 t1 t2 H1 H2 Hsk.
  assert (Hempty : tidy_root None) by (intros n E; discriminate E).
  pose proof (@run_ops_tidy _ _ _ stub _ _ eq_refl Hempty H1) as Ht1.
  pose proof (@run_ops_tidy _ _ _ stub _ _ eq_refl Hempty H2) as Ht2.
  destruct root1 as [n1|], root2 as [n2|]; try discriminate.
  - injection Hsk as Hsk.
    specialize (Ht1 n1 eq_refl). specialize (Ht2 n2 eq_refl).
    pose proof (@hash_by_skeleton _ _ n1 n2 (@tidy_unhashed _ Ht1)
                  (@tidy_unhashed _ Ht2) Hsk) as Heq.
    destruct (@tidy_has_a_hash _ _ _ Ht1) as (h & c & Hh).
    exists (Some h). unfold root_hash.
    rewrite Hh in Heq. symmetry in Heq.
    unfold hash_and_count in Hh, Heq.
    destruct (hashWithCount n1) as [[[a1 b1] c1]| |]; try discriminate.
    destruct (hashWithCount n2) as [[[a2 b2] c2]| |]; try discriminate.
    simpl in *. split; congruence.
  - exists None. split; reflexivity.
Qed.
End Determinism.

(** C2, as stated, fails: the two sequences of S6 end in the same entries,
    and their root hashes differ. *)
Lemma S6_root_hashes_differ :
  exists root1 root2 h1 h2,
    run_ops 3 S6_ops_1 None stub = Ok (root1, stub) /\
    run_ops 3 S6_ops_2 None stub = Ok (root2, stub) /\
    entries root1 = entries root2 /\
    root_hash (wire := GoWire.codec) (hasher := Ripemd160.digest) root1
      = Ok h1 /\
    root_hash (wire := GoWire.codec) (hasher := Ripemd160.digest) root2
      = Ok h2 /\
    h1 <> h2.
Proof.
  eexists _, _, _, _.
  split; [reflexivity|]. split; [reflexivity|]. split; [reflexivity|].
  split; [vm_compute; reflexivity|]. split; [vm_compute; reflexivity|].
  discriminate.
Qed.

(** The tree of S3 with another separator and another version at the root
    has the same hash; the inserts of S3 and the second sequence of S6 end
    in the same tree and so in the same root hash. *)
Lemma root_hash_skeleton_witness :
  hash_and_count (hashWithCount (wire := GoWire.codec)
                    (hasher := Ripemd160.digest) S3_tree)
  = hash_and_count (hashWithCount (wire := GoWire.codec)
                      (hasher := Ripemd160.digest)
                      (with_key_version (bs "zz") 9 S3_tree)) /\
  exists h,
    root_hash (wire := GoWire.codec) (hasher := Ripemd160.digest)
      (Some S3_tree) = Ok h /\
    root_hash (wire := GoWire.codec) (hasher := Ripemd160.digest)
      (Some S3_tree) = Ok h.
Proof.
  split.
  - apply (proj1 (root_hash_is_a_function_of_the_skeleton
                    (wire := GoWire.codec) (hasher := Ripemd160.digest))).
    + reflexivity.
    + reflexivity.
    + reflexivity.
  - apply (proj2 (root_hash_is_a_function_of_the_skeleton
                    (wire := GoWire.codec) (hasher := Ripemd160.digest))
             3%nat 3%nat S3_ops S6_ops_2 (Some S3_tree) (Some S3_tree)
             stub stub).
    + reflexivity.
    + reflexivity.
    + reflexivity.
Defined.

(** * Further properties *)

(** ** Hashing fills in hashes and nothing else *)

Lemma strip_unfold n :
  strip n
  = {| key := key n; value := value n; version := version n;
       height := height n; size := size n; hash := None; leftHash := None;
       leftNode := match leftNode n with
                   | Some l => Some (strip l)
                   | None => None
                   end;
       rightHash := None;
       rightNode := match rightNode n with
                    | Some r => Some (strip r)
                    | None => None
                    end;
       persisted := persisted n |}.
Proof. destruct n; reflexivity. Qed.

Lemma count_nodes_unfold n :
  count_nodes n
  = if isLeaf n then 1
    else 1 + match leftNode n with Some l => count_nodes l | None => 0 end
           + match rightNode n with Some r => count_nodes r | None => 0 end.
Proof. destruct n; reflexivity. Qed.

Lemma hash_linked_unfold n :
  hash_linked n
  = negb (is_nil (hash n)) &&
    (isLeaf n ||
     (match leftNode n with
      | Some l => hash_linked l && bytes_Equal (leftHash n) (hash l)
                  && negb (is_nil (leftHash n))
      | None => false
      end &&
      match rightNode n with
      | Some r => hash_linked r && bytes_Equal (rightHash n) (hash r)
                  && negb (is_nil (rightHash n))
      | None => false
      end)).
Proof. destruct n; reflexivity. Qed.

Lemma bytes_Equal_refl s : bytes_Equal s s = true.
Proof. apply bytes_Equal_data. reflexivity. Qed.

Section HashResult.
Context {wire : WireCodec} {hasher : Hasher}.

(** What a call of [hashWithCount] returns, by induction over the tree. *)
Lemma hashWithCount_result n :
  forall n' h c,
    hashWithCount n = Ok (n', h, c) ->
    strip n' = strip n /\ 0 <= c /\ hash n' = h /\ is_nil h = false /\
    (tidy n = true -> c = count_nodes n /\ hash_linked n' = true).
Proof.
  induction n as [n IHl IHr] using IAVLNode_tree_ind.
  intros n' h c H. rewrite hashWithCount_unfold in H.
  destruct (hash n) as [h0|] eqn:Hh.
  - injection H as <- <- <-.
    split; [reflexivity|]. split; [lia|]. split; [exact Hh|].
    split; [reflexivity|].
    intros Ht. apply tidy_fields in Ht. destruct Ht as (Ht & _). congruence.
  - unfold writeHashBytes, writeHashBytesWith in H.
    destruct (isLeaf n) eqn:Hleaf.
    + simpl in H. injection H as <- <- <-.
      rewrite hash_linked_unfold, (strip_unfold (with_hash _ n)), (strip_unfold n).
      simpl. change (isLeaf (with_hash _ n)) with (isLeaf n). rewrite Hleaf.
      split; [reflexivity|]. split; [lia|]. split; [reflexivity|].
      split; [reflexivity|]. intros _.
      rewrite count_nodes_unfold, Hleaf. split; reflexivity.
    + destruct (leftNode n) as [l|] eqn:El.
      * destruct (hashWithCount l) as [[[l' lh] lc]| |] eqn:Hl;
          simpl in H; try discriminate.
        destruct (IHl l eq_refl _ _ _ Hl) as (Sl & Cl & Hhl & Nl & Tl).
        rewrite Nl in H.
        destruct (rightNode n) as [r|] eqn:Er.
        -- destruct (hashWithCount r) as [[[r' rh] rc]| |] eqn:Hr;
             simpl in H; try discriminate.
           destruct (IHr r eq_refl _ _ _ Hr) as (Sr & Cr & Hhr & Nr & Tr).
           rewrite Nr in H. simpl in H. injection H as <- <- <-.
           rewrite hash_linked_unfold.
           rewrite (strip_unfold (with_hash _ _)), (strip_unfold n).
           simpl. rewrite El, Er, Sl, Sr.
           change (isLeaf (with_hash _ _)) with (isLeaf n). rewrite Hleaf.
           split; [reflexivity|]. split; [lia|]. split; [reflexivity|].
           split; [reflexivity|]. intros Ht.
           destruct (Tl (@tidy_left _ _ Ht El)) as [-> ->].
           destruct (Tr (@tidy_right _ _ Ht Er)) as [-> ->].
           rewrite Hhl, Hhr, !bytes_Equal_refl, Nl, Nr.
           rewrite (count_nodes_unfold n), Hleaf, El, Er.
           split; [lia|reflexivity].
        -- simpl in H. destruct (is_nil (rightHash n)) eqn:Nr; [discriminate|].
           simpl in H. injection H as <- <- <-.
           rewrite (strip_unfold (with_hash _ _)), (strip_unfold n).
           simpl. rewrite El, Er, Sl.
           split; [reflexivity|]. split; [lia|]. split; [reflexivity|].
           split; [reflexivity|]. intros Ht.
           apply (@tidy_inner _ Ht) in Hleaf.
           destruct Hleaf as (x & y & _ & Ey). congruence.
      * simpl in H. destruct (is_nil (leftHash n)) eqn:Nl; [discriminate|].
        assert (Hnt : tidy n = true -> False).
        { intros Ht. apply (@tidy_inner _ Ht) in Hleaf.
          destruct Hleaf as (x & y & Ex & _). congruence. }
        destruct (rightNode n) as [r|] eqn:Er.
        -- destruct (hashWithCount r) as [[[r' rh] rc]| |] eqn:Hr;
             simpl in H; try discriminate.
           destruct (IHr r eq_refl _ _ _ Hr) as (Sr & Cr & Hhr & Nr & Tr).
           rewrite Nr in H. simpl in H. injection H as <- <- <-.
           rewrite (strip_unfold (with_hash _ _)), (strip_unfold n).
           simpl. rewrite El, Er, Sr.
           split; [reflexivity|]. split; [lia|]. split; [reflexivity|].
           split; [reflexivity|]. intros Ht. destruct (Hnt Ht).
        -- simpl in H. destruct (is_nil (rightHash n)) eqn:Nr; [discriminate|].
           simpl in H. injection H as <- <- <-.
           rewrite (strip_unfold (with_hash _ _)), (strip_unfold n).
           simpl. rewrite El, Er.
           split; [reflexivity|]. split; [lia|]. split; [reflexivity|].
           split; [reflexivity|]. intros Ht. destruct (Hnt Ht).
Qed.

(** X1.  [hashWithCount] stores the hash it returns in the node, and the
    hash is not nil.  A second call on the node returns the same hash with
    the count 0 and leaves the node as it is.  A node that has its hash is
    returned as it is with the count 0; otherwise the count is at least
    1. *)
Theorem hashWithCount_caches_the_hash :
  forall n n' h c,
    hashWithCount n = Ok (n', h, c) ->
    hash n' = h /\ is_nil h = false /\
    hashWithCount n' = Ok (n', h, 0) /\
    (is_nil (hash n) = false -> n' = n /\ c = 0) /\
    (is_nil (hash n) = true -> 1 <= c).
Proof.
  intros n n' h c H.
  destruct (hashWithCount_result _ H) as (_ & Hc & Hh & Hn & _).
  split; [exact Hh|]. split; [exact Hn|]. split; [|split].
  - rewrite hashWithCount_unfold, Hh.
    destruct h as [d|]; [reflexivity|discriminate].
  - intros Hset. rewrite hashWithCount_unfold in H.
    destruct (hash n); [|discriminate].
    injection H as <- _ <-. split; reflexivity.
  - intros Hnil. rewrite hashWithCount_unfold in H.
    destruct (hash n); [discriminate|].
    apply bindO_Ok in H. destruct H as ([[[n1 w] m] c1] & Hw & H).
    injection H as _ _ <-.
    assert (0 <= c1); [|lia].
    pose proof (writeHashBytes_by_children n) as Hb.
    rewrite Hw in Hb. simpl in Hb.
    destruct (isLeaf n); [injection Hb as _ _ ->; lia|].
    unfold child_hash_count, hash_and_count in Hb. symmetry in Hb.
    apply bindO_Ok in Hb. destruct Hb as ([lh lc] & Hl & Hb).
    destruct (is_nil lh); [discriminate|].
    apply bindO_Ok in Hb. destruct Hb as ([rh rc] & Hr & Hb).
    destruct (is_nil rh); [discriminate|].
    injection Hb as _ _ <-.
    assert (0 <= lc).
    { destruct (leftNode n) as [l|]; [|injection Hl as _ <-; lia].
      apply bindO_Ok in Hl. destruct Hl as ([[l' lh'] lc'] & Hl & E).
      injection E as _ <-. apply (hashWithCount_result _ Hl). }
    assert (0 <= rc).
    { destruct (rightNode n) as [r|]; [|injection Hr as _ <-; lia].
      apply bindO_Ok in Hr. destruct Hr as ([[r' rh'] rc'] & Hr & E).
      injection E as _ <-. apply (hashWithCount_result _ Hr). }
    lia.
Qed.

(** X2.  [hashWithCount] changes nothing but hashes: the node it returns
    and the node it was given are the same once the hashes stored in them
    and below them are erased. *)
Theorem hashWithCount_changes_hashes_only :
  forall n n' h c,
    hashWithCount n = Ok (n', h, c) -> strip n' = strip n.
Proof. intros n n' h c H. apply (hashWithCount_result _ H). Qed.

(** X3.  On a tree in which no hash is stored and all nodes are resident,
    [hashWithCount] returns a hash; the count is the number of nodes of
    the tree, and in the tree it returns every node has its hash and every
    inner node has the hashes of its children as its child hashes. *)
Theorem hashWithCount_hashes_every_node :
  forall n,
    tidy n = true ->
    exists n' h,
      hashWithCount n = Ok (n', Some h, count_nodes n) /\
      hash_linked n' = true.
Proof.
  intros n Ht.
  destruct (@tidy_has_a_hash _ _ _ Ht) as (h & c & Hh).
  unfold hash_and_count in Hh.
  destruct (hashWithCount n) as [[[n' h'] c']| |] eqn:H; try discriminate.
  injection Hh as -> ->.
  destruct (hashWithCount_result _ H) as (_ & _ & _ & _ & Hc).
  destruct (Hc Ht) as [-> Hl].
  exists n', h. split; [reflexivity|exact Hl].
Qed.
End HashResult.

Lemma hashWithCount_caches_witness :
  exists n' h,
    hashWithCount (wire := GoWire.codec) (hasher := Ripemd160.digest) S2_tree
      = Ok (n', h, 3) /\
    hashWithCount (wire := GoWire.codec) (hasher := Ripemd160.digest) n'
      = Ok (n', h, 0).
Proof.
  destruct (hashWithCount (wire := GoWire.codec) (hasher := Ripemd160.digest)
              S2_tree) as [[[n' h] c]| |] eqn:E.
  - destruct (@hashWithCount_caches_the_hash GoWire.codec Ripemd160.digest
                S2_tree n' h c E) as (_ & _ & H2 & _).
    vm_compute in E. injection E as <- <- <-.
    eexists _, _. split; [reflexivity|exact H2].
  - vm_compute in E. discriminate E.
  - vm_compute in E. discriminate E.
Defined.

Lemma hashWithCount_strip_witness :
  exists n' h c,
    hashWithCount (wire := GoWire.codec) (hasher := Ripemd160.digest)
      (mark_persisted S2_tree) = Ok (n', h, c) /\
    strip n' = strip (mark_persisted S2_tree).
Proof.
  destruct (hashWithCount (wire := GoWire.codec) (hasher := Ripemd160.digest)
              (mark_persisted S2_tree)) as [[[n' h] c]| |] eqn:E.
  - exists n', h, c. split; [reflexivity|].
    apply (@hashWithCount_changes_hashes_only GoWire.codec Ripemd160.digest
             (mark_persisted S2_tree) n' h c E).
  - vm_compute in E. discriminate E.
  - vm_compute in E. discriminate E.
Defined.

Lemma hashWithCount_every_node_witness :
  exists n' h,
    hashWithCount (wire := GoWire.codec) (hasher := Ripemd160.digest) S3_tree
      = Ok (n', Some h, count_nodes S3_tree) /\
    hash_linked n' = true.
Proof.
  apply (hashWithCount_hashes_every_node (wire := GoWire.codec)
           (hasher := Ripemd160.digest)).
  reflexivity.
Defined.

(** ** What [set] returns *)

Lemma calcHeightAndSize_keeps t n n' :
  calcHeightAndSize t n = Ok n' ->
  hash n' = hash n /\ persisted n' = persisted n /\ key n' = key n /\
  version n' = version n /\
  leftNode n' = leftNode n /\ rightNode n' = rightNode n.
Proof.
  unfold calcHeightAndSize. intros H.
  apply bindO_Ok in H. destruct H as (l & _ & H).
  apply bindO_Ok in H. destruct H as (r & _ & H).
  injection H as <-. repeat split.
Qed.

Lemma rotateRight_fresh n t r t' :
  rotateRight n t = Ok (r, t') -> hash r = None /\ persisted r = false.
Proof.
  intros H. unfold rotateRight in H.
  step_lift H as c Hc. step_rd H as l Hg. step H as u t1 Ho.
  step_lift H as cl Hcl. step_rd H as c' Hc'. step_rd H as cl' Hcl'.
  apply ret_Ok in H. destruct H as [-> _].
  apply calcHeightAndSize_keeps in Hcl'. destruct Hcl' as (Hh & Hp & _).
  apply copy_Ok in Hcl. destruct Hcl as (_ & Hp' & Hh' & _).
  simpl in Hh, Hp. split; congruence.
Qed.

Lemma rotateLeft_fresh n t r t' :
  rotateLeft n t = Ok (r, t') -> hash r = None /\ persisted r = false.
Proof.
  intros H. unfold rotateLeft in H.
  step_lift H as c Hc. step_rd H as l Hg. step H as u t1 Ho.
  step_lift H as cl Hcl. step_rd H as c' Hc'. step_rd H as cl' Hcl'.
  apply ret_Ok in H. destruct H as [-> _].
  apply calcHeightAndSize_keeps in Hcl'. destruct Hcl' as (Hh & Hp & _).
  apply copy_Ok in Hcl. destruct Hcl as (_ & Hp' & Hh' & _).
  simpl in Hh, Hp. split; congruence.
Qed.

Lemma balance_fresh n t r t' :
  hash n = None ->
  balance n t = Ok (r, t') -> hash r = None /\ persisted r = false.
Proof.
  intros Hh H. unfold balance in H.
  destruct (persisted n) eqn:Hp; [discriminate|].
  step_rd H as b Hb.
  destruct (1 <? b).
  - step_rd H as l Hl. step_rd H as lb Hlb.
    destruct (0 <=? lb); [apply (@rotateRight_fresh _ _ _ _ H)|].
    step_rd H as l' Hl'. step H as u t1 Ho.
    step H as rl t2 Hrl. apply (@rotateRight_fresh _ _ _ _ H).
  - destruct (b <? -1).
    + step_rd H as x Hx. step_rd H as rb Hrb.
      destruct (rb <=? 0); [apply (@rotateLeft_fresh _ _ _ _ H)|].
      step_rd H as x' Hx'. step H as u t1 Ho.
      step H as rr t2 Hrr. apply (@rotateLeft_fresh _ _ _ _ H).
    + apply ret_Ok in H. destruct H as [-> _]. auto.
Qed.

(** X4.  The node that [set] returns is a new one: it has no hash and is
    not persisted, whatever the node, the tree and the key are. *)
Theorem set_returns_an_unhashed_unpersisted_node :
  forall fuel node k v t newSelf updated orphaned t',
    set fuel node k v t = Ok (newSelf, updated, orphaned, t') ->
    hash newSelf = None /\ persisted newSelf = false.
Proof.
  intros [|fuel] node k v t newSelf updated orphaned t' H; [discriminate|].
  simpl in H. destruct (isLeaf node).
  - destruct (_ =? -1).
    { apply ret_Ok in H. destruct H as [H _]. injection H as -> _ _.
      split; reflexivity. }
    destruct (_ =? 1);
      apply ret_Ok in H; destruct H as [H _]; injection H as -> _ _;
      split; reflexivity.
  - step_lift H as c Hc.
    apply copy_Ok in Hc. destruct Hc as (_ & Hp & Hh & _).
    assert (Hfin : forall (m : IAVLNode) (u : bool) o t0,
      hash m = None -> persisted m = false ->
      (if u then ret (m, u, o)
       else node0 <- rd (fun t1 => calcHeightAndSize t1 m) ;;
            node1 <- balance node0 ;; ret (node1, u, o)) t0
      = Ok (newSelf, updated, orphaned, t') ->
      hash newSelf = None /\ persisted newSelf = false).
    { intros m u o t0 Hhm Hpm E. destruct u.
      - apply ret_Ok in E. destruct E as [E _]. injection E as -> _ _. auto.
      - step_rd E as m1 Hm1. step E as m2 t2 Hm2.
        apply ret_Ok in E. destruct E as [E _]. injection E as -> _ _.
        apply calcHeightAndSize_keeps in Hm1. destruct Hm1 as (Hh1 & _).
        eapply balance_fresh; [|exact Hm2]. congruence. }
    destruct (_ <? 0).
    + step_rd H as l Hl. step H as res t1 Hres.
      destruct res as [[newLeft u] o].
      apply (Hfin (with_left None (Some newLeft) c) _ _ _ Hh Hp H).
    + step_rd H as r Hr. step H as res t1 Hres.
      destruct res as [[newRight u] o].
      apply (Hfin (with_right None (Some newRight) c) _ _ _ Hh Hp H).
Qed.

(** X5.  When [set] replaces the value of a key that is there
    ([updated] is true), it does not rebalance: the node it returns has the
    height of the old node, and for an inner node also its separator, size
    and version. *)
Theorem set_update_keeps_the_shape :
  forall fuel node k v t newSelf orphaned t',
    set fuel node k v t = Ok (newSelf, true, orphaned, t') ->
    height newSelf = height node /\
    (isLeaf node = false ->
     key newSelf = key node /\ size newSelf = size node /\
     version newSelf = version node).
Proof.
  intros [|fuel] node k v t newSelf orphaned t' H; [discriminate|].
  simpl in H. destruct (isLeaf node) eqn:Hleaf.
  - destruct (_ =? -1).
    { apply ret_Ok in H. destruct H as [H _]. discriminate H. }
    destruct (_ =? 1).
    { apply ret_Ok in H. destruct H as [H _]. discriminate H. }
    apply ret_Ok in H. destruct H as [H _]. injection H as -> _.
    unfold isLeaf in Hleaf. apply Z.eqb_eq in Hleaf.
    split; [simpl; congruence|discriminate].
  - step_lift H as c Hc.
    apply copy_Ok in Hc.
    destruct Hc as (_ & _ & _ & Hk & Hh & Hs & Hv & _).
    destruct (_ <? 0).
    + step_rd H as l Hl. step H as res t1 Hres.
      destruct res as [[newLeft u] o]. destruct u.
      * apply ret_Ok in H. destruct H as [H _]. injection H as -> _.
        simpl. auto.
      * step_rd H as m1 Hm1. step H as m2 t2 Hm2.
        apply ret_Ok in H. destruct H as [H _]. discriminate H.
    + step_rd H as r Hr. step H as res t1 Hres.
      destruct res as [[newRight u] o]. destruct u.
      * apply ret_Ok in H. destruct H as [H _]. injection H as -> _.
        simpl. auto.
      * step_rd H as m1 Hm1. step H as m2 t2 Hm2.
        apply ret_Ok in H. destruct H as [H _]. discriminate H.
Qed.

Lemma set_returns_fresh_witness :
  hash S4_new_root = None /\ persisted S4_new_root = false.
Proof.
  apply (@set_returns_an_unhashed_unpersisted_node 2%nat S2_saved
           (bs "a") (bs "1'") stub S4_new_root true [S4_old_leaf] stub).
  vm_compute. reflexivity.
Defined.

Lemma set_update_witness :
  height S4_new_root = height S2_saved /\
  (isLeaf S2_saved = false ->
   key S4_new_root = key S2_saved /\ size S4_new_root = size S2_saved /\
   version S4_new_root = version S2_saved).
Proof.
  apply (@set_update_keeps_the_shape 2%nat S2_saved (bs "a") (bs "1'") stub
           S4_new_root [S4_old_leaf] stub).
  vm_compute. reflexivity.
Defined.

(** ** Removal of a key that is not there *)

Lemma remove_absent fuel :
  forall node k t nh nn nk val t',
    remove fuel node k t = Ok (nh, nn, nk, val, false, t') ->
    nh = hash node /\ nn = Some node /\ nk = None /\ val = None /\ t' = t.
Proof.
  induction fuel as [|fuel IH]; intros node k t nh nn nk val t' H;
    [discriminate|].
  simpl in H.
  assert (Hkeep : forall v0,
    v0 = None ->
    ret (hash node, Some node, @None bytes, v0, false) t
    = Ok (nh, nn, nk, val, false, t') ->
    nh = hash node /\ nn = Some node /\ nk = None /\ val = None /\ t' = t).
  { intros v0 -> E. apply ret_Ok in E. destruct E as [E ->].
    injection E as -> -> -> ->. repeat split. }
  destruct (isLeaf node).
  - destruct (bytes_Equal k (key node)); [|apply (Hkeep None eq_refl H)].
    step H as u t1 Ho. apply ret_Ok in H. destruct H as [H _]. discriminate H.
  - destruct (_ <? 0).
    + step_rd H as l Hl. step H as res t1 Hres.
      destruct res as [[[[nh1 nn1] nk1] val1] removed1].
      destruct removed1; simpl in H.
      * destruct (is_nil nh1 && negb (is_some nn1)).
        -- apply ret_Ok in H. destruct H as [H _]. discriminate H.
        -- step H as u t2 Ho. step_lift H as c Hc.
           step_rd H as m1 Hm1. step H as m2 t3 Hm2.
           apply ret_Ok in H. destruct H as [H _]. discriminate H.
      * destruct (IH _ _ _ _ _ _ _ _ Hres) as (_ & _ & _ & -> & ->).
        apply (Hkeep None eq_refl H).
    + step_rd H as r Hr. step H as res t1 Hres.
      destruct res as [[[[nh1 nn1] nk1] val1] removed1].
      destruct removed1; simpl in H.
      * destruct (is_nil nh1 && negb (is_some nn1)).
        -- apply ret_Ok in H. destruct H as [H _]. discriminate H.
        -- step H as u t2 Ho. step_lift H as c Hc.
           step_rd H as m1 Hm1. step H as m2 t3 Hm2.
           apply ret_Ok in H. destruct H as [H _]. discriminate H.
      * destruct (IH _ _ _ _ _ _ _ _ Hres) as (_ & _ & _ & -> & ->).
        apply (Hkeep None eq_refl H).
Qed.

(** X6.  When [remove] does not remove ([removed] is false), nothing
    changes: it returns the node it was given with its hash, no new key and
    no value, and the tree handle is as before, so that no orphan is
    recorded. *)
Theorem remove_of_an_absent_key_changes_nothing :
  forall fuel node k t newHash newNode newKey val t',
    remove fuel node k t = Ok (newHash, newNode, newKey, val, false, t') ->
    newHash = hash node /\ newNode = Some node /\ newKey = None /\
    val = None /\ t' = t.
Proof. intros fuel. apply remove_absent. Qed.

Lemma remove_absent_witness :
  (None : slice) = hash S3_tree /\ Some S3_tree = Some S3_tree /\
  (None : slice) = None /\ (None : slice) = None /\ stub = stub.
Proof.
  apply (@remove_of_an_absent_key_changes_nothing 3%nat S3_tree (bs "x") stub
           None (Some S3_tree) None None stub).
  reflexivity.
Defined.

(** ** Lookup of a key and of an index *)

Lemma compare_bytes_cases a : forall b,
  compare_bytes a b = -1 \/ compare_bytes a b = 0 \/ compare_bytes a b = 1.
Proof.
  induction a as [|x a IH]; intros [|y b]; simpl; auto.
  destruct (byte_val x <? byte_val y); auto.
  destruct (byte_val y <? byte_val x); auto.
Qed.

(** X7.  A key that [get] finds is a key that [has] finds: when [get]
    answers that the key exists, [has] answers true, in any tree and with
    the same fuel. *)
Theorem get_found_implies_has :
  forall fuel t node k index val,
    get fuel t node k = Ok (index, val, true) ->
    has fuel t node k = Ok true.
Proof.
  induction fuel as [|fuel IH]; intros t node k index val H; [discriminate|].
  simpl in H |- *.
  destruct (bytes_Equal (key node) k) eqn:Heq; [reflexivity|].
  destruct (isLeaf node).
  - unfold bytes_Equal in Heq. apply Z.eqb_neq in Heq.
    destruct (_ =? -1) eqn:E1; [discriminate|].
    destruct (_ =? 1) eqn:E2; [discriminate|].
    apply Z.eqb_neq in E1, E2. unfold bytes_Compare in *.
    destruct (compare_bytes_cases (slice_data (key node)) (slice_data k))
      as [C|[C|C]]; congruence.
  - destruct (_ <? 0).
    + destruct (getLeftNode t node) as [l| |]; try discriminate.
      simpl in *. apply (IH _ _ _ _ _ H).
    + destruct (getRightNode t node) as [r| |]; try discriminate.
      simpl in *.
      destruct (get fuel t r k) as [[[i v] e]| |] eqn:Hg; try discriminate.
      simpl in H. injection H as _ _ ->. apply (IH _ _ _ _ _ Hg).
Qed.

Lemma get_has_witness : has 3 stub S3_tree (bs "b") = Ok true.
Proof.
  apply (@get_found_implies_has 3%nat stub S3_tree (bs "b") 1 (bs "2")).
  reflexivity.
Defined.

Lemma resident_inner n :
  resident n = true -> isLeaf n = false ->
  exists l r, leftNode n = Some l /\ rightNode n = Some r /\
              resident l = true /\ resident r = true.
Proof.
  destruct n as [k v ve h s ha lh ln rh rn p].
  intros H Hleaf. simpl in H. unfold isLeaf in *. simpl in *.
  rewrite Hleaf in H. simpl in H.
  destruct ln as [l|]; [|discriminate].
  destruct rn as [r|]; [|rewrite andb_false_r in H; discriminate].
  apply andb_prop in H. destruct H as [Hl Hr].
  exists l, r. auto.
Qed.

Lemma leaves_unfold n :
  leaves n
  = if isLeaf n then [n]
    else match leftNode n with Some l => leaves l | None => [] end ++
         match rightNode n with Some r => leaves r | None => [] end.
Proof. destruct n; reflexivity. Qed.

Lemma depth_unfold n :
  depth n
  = S (Nat.max (match leftNode n with Some l => depth l | None => O end)
               (match rightNode n with Some r => depth r | None => O end)).
Proof. destruct n; reflexivity. Qed.

(** X8.  On a resident tree [lmd] returns the first leaf and [rmd] the last
    leaf of the tree, in the order from left to right, with fuel for the
    depth of the tree. *)
Theorem lmd_rmd_are_the_outer_leaves :
  forall fuel t node,
    resident node = true -> (depth node <= fuel)%nat ->
    exists first last_ after before,
      lmd fuel t node = Ok first /\ leaves node = first :: after /\
      rmd fuel t node = Ok last_ /\ leaves node = before ++ [last_].
Proof.
  induction fuel as [|fuel IH]; intros t node Hres Hd.
  - rewrite depth_unfold in Hd. lia.
  - simpl. rewrite (leaves_unfold node).
    destruct (isLeaf node) eqn:Hleaf.
    + exists node, node, [], []. repeat split.
    + destruct (resident_inner _ Hres Hleaf) as (l & r & El & Er & Hl & Hr).
      rewrite depth_unfold, El, Er in Hd.
      unfold getLeftNode, getRightNode. rewrite El, Er. simpl.
      destruct (IH t l Hl) as (fl & ll & al & bl & H1 & H2 & _ & _); [lia|].
      destruct (IH t r Hr) as (fr & lr & ar & br & _ & _ & H3 & H4); [lia|].
      exists fl, lr, (al ++ leaves r), (leaves l ++ br).
      rewrite H1, H3. repeat split.
      * rewrite H2. reflexivity.
      * rewrite H4 at 1. rewrite app_assoc. reflexivity.
Qed.

Lemma lmd_rmd_witness :
  exists first last_ after before,
    lmd 3 stub S3_tree = Ok first /\ leaves S3_tree = first :: after /\
    rmd 3 stub S3_tree = Ok last_ /\ leaves S3_tree = before ++ [last_].
Proof.
  apply lmd_rmd_are_the_outer_leaves.
  - reflexivity.
  - simpl. lia.
Defined.

(** X9.  A traversal of a whole resident tree gives the leaves to the
    callback in their order from left to right when it is ascending, and in
    the reverse order when it is descending; it answers that it was not
    stopped. *)
Theorem traverse_visits_the_leaves_in_order :
  forall fuel t node log,
    resident node = true -> (depth node <= fuel)%nat ->
    traverse fuel t node true collect_leaves log
    = Ok (false, log ++ leaves node) /\
    traverse fuel t node false collect_leaves log
    = Ok (false, log ++ rev (leaves node)).
Proof.
  unfold traverse.
  induction fuel as [|fuel IH]; intros t node log Hres Hd.
  - rewrite depth_unfold in Hd. lia.
  - simpl. rewrite (leaves_unfold node).
    unfold bindM, lift, ret.
    change (collect_leaves node log)
      with (@Ok (bool * list IAVLNode)
              (false, if isLeaf node then log ++ [node] else log)).
    destruct (isLeaf node) eqn:Hleaf.
    + split; reflexivity.
    + destruct (resident_inner _ Hres Hleaf) as (l & r & El & Er & Hl & Hr).
      rewrite depth_unfold, El, Er in Hd.
      unfold getLeftNode, getRightNode. rewrite El, Er.
      split.
      * rewrite (proj1 (IH t l log Hl ltac:(lia))).
        rewrite (proj1 (IH t r (log ++ leaves l) Hr ltac:(lia))).
        rewrite app_assoc. reflexivity.
      * rewrite (proj2 (IH t r log Hr ltac:(lia))).
        rewrite (proj2 (IH t l (log ++ rev (leaves r)) Hl ltac:(lia))).
        rewrite rev_app_distr, app_assoc. reflexivity.
Qed.

Lemma traverse_leaves_witness :
  traverse 3 stub S3_tree true collect_leaves []
  = Ok (false, [] ++ leaves S3_tree) /\
  traverse 3 stub S3_tree false collect_leaves []
  = Ok (false, [] ++ rev (leaves S3_tree)).
Proof.
  apply traverse_visits_the_leaves_in_order.
  - reflexivity.
  - simpl. lia.
Defined.

Lemma sized_unfold n :
  sized n
  = if isLeaf n then size n =? 1
    else
      match leftNode n, rightNode n with
      | Some l, Some r =>
          sized l && sized r && (size n =? size l + size r)
          && (size n <? 2 ^ 63)
      | _, _ => false
      end.
Proof. destruct n; reflexivity. Qed.

Lemma sized_leaf n : sized n = true -> isLeaf n = true -> size n = 1.
Proof.
  rewrite sized_unfold. intros H Hleaf. rewrite Hleaf in H.
  apply Z.eqb_eq. exact H.
Qed.

Lemma sized_inner n :
  sized n = true -> isLeaf n = false ->
  exists l r, leftNode n = Some l /\ rightNode n = Some r /\
              sized l = true /\ sized r = true /\
              size n = size l + size r /\ size n < 2 ^ 63.
Proof.
  rewrite sized_unfold. intros H Hleaf. rewrite Hleaf in H.
  destruct (leftNode n) as [l|]; [|discriminate].
  destruct (rightNode n) as [r|]; [|discriminate].
  repeat (apply andb_prop in H; destruct H as [H ?]).
  exists l, r. repeat split; auto.
  - apply Z.eqb_eq. assumption.
  - apply Z.ltb_lt. assumption.
Qed.

(** In a sized tree the size of a node is the number of its leaves. *)
Lemma sized_counts_leaves n :
  sized n = true -> size n = len_leaves (leaves n).
Proof.
  induction n as [n IHl IHr] using IAVLNode_tree_ind.
  intros H. rewrite leaves_unfold. destruct (isLeaf n) eqn:Hleaf.
  - rewrite (sized_leaf _ H Hleaf). reflexivity.
  - destruct (sized_inner _ H Hleaf) as (l & r & El & Er & Hl & Hr & Hs & _).
    rewrite El, Er. unfold len_leaves in *. rewrite length_app, Nat2Z.inj_add.
    rewrite <- (IHl l El Hl), <- (IHr r Er Hr). exact Hs.
Qed.

Lemma sized_positive n : sized n = true -> 1 <= size n < 2 ^ 63.
Proof.
  induction n as [n IHl IHr] using IAVLNode_tree_ind.
  intros H. destruct (isLeaf n) eqn:Hleaf.
  - rewrite (sized_leaf _ H Hleaf). split; [lia|reflexivity].
  - destruct (sized_inner _ H Hleaf) as (l & r & El & Er & Hl & Hr & Hs & Hb).
    pose proof (IHl l El Hl). pose proof (IHr r Er Hr). lia.
Qed.

Lemma int64_id x : - 2 ^ 63 <= x < 2 ^ 63 -> int64 x = x.
Proof. intros H. apply int64_small. exact H. Qed.

Lemma getByIndex_nth fuel :
  forall t n i,
    sized n = true -> (depth n <= fuel)%nat -> is_int i ->
    (0 <= i < size n ->
     exists lf, nth_error (leaves n) (Z.to_nat i) = Some lf /\
                getByIndex fuel t n i = Ok (Indexed (key lf) (value lf))) /\
    (~ 0 <= i < size n -> getByIndex fuel t n i = Ok InvalidIndex).
Proof.
  induction fuel as [|fuel IH]; intros t n i Hs Hd Hi.
  - rewrite depth_unfold in Hd. lia.
  - simpl. rewrite (leaves_unfold n). destruct (isLeaf n) eqn:Hleaf.
    + rewrite (sized_leaf _ Hs Hleaf). split.
      * intros Hr. assert (i = 0) by lia. subst i.
        exists n. split; reflexivity.
      * intros Hr. destruct (i =? 0) eqn:E; [|reflexivity].
        apply Z.eqb_eq in E. lia.
    + destruct (sized_inner _ Hs Hleaf) as (l & r & El & Er & Hl & Hr & Hsz & Hb).
      rewrite depth_unfold, El, Er in Hd.
      unfold getLeftNode, getRightNode. rewrite El, Er. simpl.
      pose proof (sized_positive _ Hl) as Pl.
      pose proof (sized_positive _ Hr) as Pr.
      pose proof (sized_counts_leaves _ Hl) as Cl.
      pose proof (sized_counts_leaves _ Hr) as Cr.
      unfold len_leaves in Cl, Cr. unfold is_int in Hi.
      destruct (i <? size l) eqn:E.
      * apply Z.ltb_lt in E.
        destruct (IH t l i Hl ltac:(lia) Hi) as [Hin Hout].
        split.
        -- intros Hrange. destruct Hin as (lf & Hn & Hg); [lia|].
           exists lf. split; [|exact Hg].
           rewrite nth_error_app1; [exact Hn|]. lia.
        -- intros Hrange. apply Hout. lia.
      * apply Z.ltb_ge in E.
        assert (Hi' : int64 (i - size l) = i - size l)
          by (apply int64_id; lia).
        rewrite Hi'.
        destruct (IH t r (i - size l) Hr ltac:(lia)
                    ltac:(unfold is_int; lia)) as [Hin Hout].
        split.
        -- intros Hrange. destruct Hin as (lf & Hn & Hg); [lia|].
           exists lf. split; [|exact Hg].
           rewrite nth_error_app2 by lia.
           replace (Z.to_nat i - List.length (leaves l))%nat
             with (Z.to_nat (i - size l)) by lia.
           exact Hn.
        -- intros Hrange. apply Hout. lia.
Qed.

(** X10.  On a tree whose sizes count its leaves, [getByIndex] returns the
    key and the value of the leaf at the index, counted from 0 and from
    the left, for an index from 0 up to the size of the tree; for any other
    index it ends in the panic for an invalid index.  The size of the tree
    is the number of its leaves. *)
Theorem getByIndex_returns_the_leaf_at_the_index :
  forall fuel t node index,
    sized node = true -> (depth node <= fuel)%nat -> is_int index ->
    size node = len_leaves (leaves node) /\
    (0 <= index < size node ->
     exists lf, nth_error (leaves node) (Z.to_nat index) = Some lf /\
                getByIndex fuel t node index
                = Ok (Indexed (key lf) (value lf))) /\
    (~ 0 <= index < size node ->
     getByIndex fuel t node index = Ok InvalidIndex).
Proof.
  intros fuel t node index Hs Hd Hi.
  split; [apply sized_counts_leaves; exact Hs|].
  apply getByIndex_nth; assumption.
Qed.

Lemma getByIndex_witness :
  size S3_tree = len_leaves (leaves S3_tree) /\
  (0 <= 1 < size S3_tree ->
   exists lf, nth_error (leaves S3_tree) (Z.to_nat 1) = Some lf /\
              getByIndex 3 stub S3_tree 1 = Ok (Indexed (key lf) (value lf))) /\
  (~ 0 <= 1 < size S3_tree -> getByIndex 3 stub S3_tree 1 = Ok InvalidIndex).
Proof.
  apply getByIndex_returns_the_leaf_at_the_index.
  - reflexivity.
  - simpl. lia.
  - unfold is_int. simpl. lia.
Defined.

Lemma get_index_bounds fuel :
  forall t n k i v e,
    sized n = true ->
    get fuel t n k = Ok (i, v, e) ->
    0 <= i <= size n /\ (e = true -> i < size n).
Proof.
  induction fuel as [|fuel IH]; intros t n k i v e Hs H; [discriminate|].
  simpl in H. destruct (isLeaf n) eqn:Hleaf.
  - rewrite (sized_leaf _ Hs Hleaf).
    destruct (_ =? -1); [injection H as <- _ <-; split; [lia|discriminate]|].
    destruct (_ =? 1); injection H as <- _ <-; split; try lia; discriminate.
  - destruct (sized_inner _ Hs Hleaf) as (l & r & El & Er & Hl & Hr & Hsz & Hb).
    pose proof (sized_positive _ Hl) as Pl.
    pose proof (sized_positive _ Hr) as Pr.
    unfold getLeftNode, getRightNode in H. rewrite El, Er in H. simpl in H.
    destruct (_ <? 0).
    + destruct (IH _ _ _ _ _ _ Hl H) as [B1 B2]. split; [lia|].
      intros E. specialize (B2 E). lia.
    + destruct (get fuel t r k) as [[[i0 v0] e0]| |] eqn:Hg; try discriminate.
      simpl in H. injection H as <- <- <-.
      destruct (IH _ _ _ _ _ _ Hr Hg) as [B1 B2].
      rewrite (int64_id (x := size n - size r)) by lia.
      rewrite int64_id by lia.
      split; [lia|]. intros E. specialize (B2 E). lia.
Qed.

(** X11.  On a tree whose sizes count its leaves, the index that [get]
    returns for a key that exists is the index at which [getByIndex] finds
    the same value and a key with the same bytes; the index is at least 0
    and less than the size of the tree. *)
Theorem getByIndex_after_get :
  forall fuel t node k index val,
    sized node = true ->
    get fuel t node k = Ok (index, val, true) ->
    0 <= index < size node /\
    exists k', getByIndex fuel t node index = Ok (Indexed k' val) /\
               bytes_Equal k' k = true.
Proof.
  induction fuel as [|fuel IH]; intros t node k index val Hs H;
    [discriminate|].
  pose proof (get_index_bounds _ _ _ _ Hs H) as [B1 B2].
  split; [specialize (B2 eq_refl); lia|].
  simpl in H |- *. destruct (isLeaf node) eqn:Hleaf.
  - destruct (_ =? -1) eqn:E1; [discriminate|].
    destruct (_ =? 1) eqn:E2; [discriminate|].
    injection H as <- <-. exists (key node). split; [reflexivity|].
    apply Z.eqb_neq in E1, E2. unfold bytes_Equal. apply Z.eqb_eq.
    unfold bytes_Compare in *.
    destruct (compare_bytes_cases (slice_data (key node)) (slice_data k))
      as [C|[C|C]]; congruence.
  - destruct (sized_inner _ Hs Hleaf) as (l & r & El & Er & Hl & Hr & Hsz & Hb).
    pose proof (sized_positive _ Hl) as Pl.
    pose proof (sized_positive _ Hr) as Pr.
    unfold getLeftNode, getRightNode in H |- *.
    rewrite El, Er in H. rewrite El, Er. simpl in H |- *.
    destruct (_ <? 0).
    + destruct (IH _ _ _ _ _ Hl H) as [Bl Hg].
      destruct (index <? size l) eqn:E; [exact Hg|].
      apply Z.ltb_ge in E. lia.
    + destruct (get fuel t r k) as [[[i0 v0] e0]| |] eqn:Hg; try discriminate.
      simpl in H. injection H as <- <- ->.
      destruct (IH _ _ _ _ _ Hr Hg) as [Br Hgi].
      rewrite (int64_id (x := size node - size r)) by lia.
      rewrite (int64_id (x := i0 + (size node - size r))) by lia.
      destruct (_ <? size l) eqn:E; [apply Z.ltb_lt in E; lia|].
      replace (i0 + (size node - size r) - size l) with i0 by lia.
      rewrite int64_id by lia. exact Hgi.
Qed.

Lemma getByIndex_after_get_witness :
  0 <= 1 < size S3_tree /\
  exists k', getByIndex 3 stub S3_tree 1 = Ok (Indexed k' (bs "2")) /\
             bytes_Equal k' (bs "b") = true.
Proof.
  apply getByIndex_after_get.
  - reflexivity.
  - reflexivity.
Defined.

(** ** The order of the keys *)

Lemma compare_bytes_antisym a : forall b,
  compare_bytes b a = - compare_bytes a b.
Proof.
  induction a as [|x a IH]; intros [|y b]; simpl; try reflexivity.
  destruct (byte_val x <? byte_val y) eqn:E1;
    destruct (byte_val y <? byte_val x) eqn:E2;
    try reflexivity; [|apply IH].
  apply Z.ltb_lt in E1, E2. lia.
Qed.

Lemma compare_bytes_lt_trans a : forall b c,
  compare_bytes a b < 0 -> compare_bytes b c <= 0 -> compare_bytes a c < 0.
Proof.
  induction a as [|x a IH]; intros [|y b] [|z c]; simpl; try lia.
  repeat match goal with
         | |- context [?p <? ?q] =>
             let E := fresh "E" in
             destruct (p <? q) eqn:E;
             [apply Z.ltb_lt in E | apply Z.ltb_ge in E]
         end; try lia.
  apply IH.
Qed.

Lemma compare_bytes_le_lt_trans a b c :
  compare_bytes a b <= 0 -> compare_bytes b c < 0 -> compare_bytes a c < 0.
Proof.
  intros H1 H2.
  pose proof (compare_bytes_antisym b c) as Acb.
  pose proof (compare_bytes_antisym a c) as Aca.
  destruct (Z_lt_ge_dec (compare_bytes a c) 0) as [G|G]; [exact G|].
  exfalso.
  destruct (Z.eq_dec (compare_bytes c a) 0) as [E|E].
  - apply compare_bytes_eq in E. subst c. lia.
  - assert (Hca : compare_bytes c a < 0) by lia.
    pose proof (compare_bytes_lt_trans _ _ _ Hca H1). lia.
Qed.

Lemma klt_trans a b c : klt a b = true -> kle b c = true -> klt a c = true.
Proof.
  unfold klt, kle, bytes_Compare. rewrite !Z.ltb_lt, Z.leb_le.
  apply compare_bytes_lt_trans.
Qed.

Lemma kle_klt_trans a b c : kle a b = true -> klt b c = true -> klt a c = true.
Proof.
  unfold klt, kle, bytes_Compare. rewrite !Z.ltb_lt, Z.leb_le.
  apply compare_bytes_le_lt_trans.
Qed.

Lemma klt_kle a b : klt a b = true -> kle a b = true.
Proof. unfold klt, kle. rewrite Z.ltb_lt, Z.leb_le. lia. Qed.

Lemma klt_false_kle a b : klt a b = false -> kle b a = true.
Proof.
  unfold klt, kle, bytes_Compare. rewrite Z.ltb_ge, Z.leb_le.
  rewrite (compare_bytes_antisym (slice_data a) (slice_data b)). lia.
Qed.

Lemma kle_false_klt a b : kle a b = false -> klt b a = true.
Proof.
  unfold klt, kle, bytes_Compare. rewrite Z.ltb_lt, Z.leb_gt.
  rewrite (compare_bytes_antisym (slice_data a) (slice_data b)). lia.
Qed.

Lemma klt_irrefl_equal a b : klt a b = true -> bytes_Equal a b = false.
Proof.
  unfold klt, bytes_Equal. rewrite Z.ltb_lt, Z.eqb_neq. lia.
Qed.

Lemma klt_not_sym a b : klt a b = true -> klt b a = false.
Proof.
  unfold klt, bytes_Compare. rewrite Z.ltb_lt, Z.ltb_ge.
  rewrite (compare_bytes_antisym (slice_data a) (slice_data b)). lia.
Qed.

Lemma bytes_Equal_sym a b : bytes_Equal a b = bytes_Equal b a.
Proof.
  unfold bytes_Equal, bytes_Compare.
  rewrite (compare_bytes_antisym (slice_data a) (slice_data b)).
  destruct (compare_bytes (slice_data a) (slice_data b)); reflexivity.
Qed.

Lemma bytes_Equal_klt_l a b c :
  bytes_Equal a b = true -> klt a c = klt b c.
Proof.
  intros H. apply bytes_Equal_data in H. unfold klt, bytes_Compare.
  rewrite H. reflexivity.
Qed.

Lemma bytes_Equal_klt_r a b c :
  bytes_Equal a b = true -> klt c a = klt c b.
Proof.
  intros H. apply bytes_Equal_data in H. unfold klt, bytes_Compare.
  rewrite H. reflexivity.
Qed.

Lemma bytes_Equal_kle_l a b c :
  bytes_Equal a b = true -> kle a c = kle b c.
Proof.
  intros H. apply bytes_Equal_data in H. unfold kle, bytes_Compare.
  rewrite H. reflexivity.
Qed.

Lemma bytes_Equal_kle_r a b c :
  bytes_Equal a b = true -> kle c a = kle c b.
Proof.
  intros H. apply bytes_Equal_data in H. unfold kle, bytes_Compare.
  rewrite H. reflexivity.
Qed.

Lemma bytes_Equal_trans_l a b c :
  bytes_Equal a b = true -> bytes_Equal a c = bytes_Equal b c.
Proof.
  intros H. apply bytes_Equal_data in H. unfold bytes_Equal, bytes_Compare.
  rewrite H. reflexivity.
Qed.

(** The three results of [bytes.Compare] in terms of the order. *)
Lemma compare_cases a b :
  (bytes_Compare a b = -1 /\ klt a b = true /\ bytes_Equal a b = false) \/
  (bytes_Compare a b = 0 /\ klt a b = false /\ bytes_Equal a b = true
   /\ klt b a = false) \/
  (bytes_Compare a b = 1 /\ klt a b = false /\ bytes_Equal a b = false
   /\ klt b a = true).
Proof.
  unfold klt, bytes_Equal, bytes_Compare.
  rewrite (compare_bytes_antisym (slice_data a) (slice_data b)).
  destruct (compare_bytes_cases (slice_data a) (slice_data b)) as [C|[C|C]];
    rewrite C; simpl.
  - left. repeat split.
  - right. left. repeat split.
  - right. right. repeat split.
Qed.

(** ** [get] on a search tree *)

Lemma ordered_unfold n :
  ordered n
  = isLeaf n ||
    match leftNode n, rightNode n with
    | Some l, Some r =>
        ordered l && ordered r &&
        forallb (fun x => klt (key x) (key n)) (leaves l) &&
        forallb (fun x => kle (key n) (key x)) (leaves r)
    | _, _ => false
    end.
Proof. destruct n; reflexivity. Qed.

Lemma ordered_inner n l r :
  ordered n = true -> isLeaf n = false ->
  leftNode n = Some l -> rightNode n = Some r ->
  ordered l = true /\ ordered r = true /\
  (forall x, In x (leaves l) -> klt (key x) (key n) = true) /\
  (forall x, In x (leaves r) -> kle (key n) (key x) = true).
Proof.
  rewrite ordered_unfold. intros H Hleaf El Er.
  rewrite Hleaf, El, Er in H. simpl in H.
  repeat (apply andb_prop in H; destruct H as [H ?]).
  repeat split; auto.
  - intros x Hx. eapply forallb_forall in H1; [exact H1|exact Hx].
  - intros x Hx. eapply forallb_forall in H0; [exact H0|exact Hx].
Qed.

Lemma rank_app k (a b : list IAVLNode) : rank k (a ++ b) = rank k a + rank k b.
Proof.
  unfold rank, len_leaves. rewrite filter_app, length_app. lia.
Qed.

Lemma rank_all k (a : list IAVLNode) :
  (forall x, In x a -> klt (key x) k = true) -> rank k a = len_leaves a.
Proof.
  unfold rank, len_leaves. induction a as [|x a IH]; intros H; [reflexivity|].
  cbn [filter]. rewrite (H x (or_introl eq_refl)). cbn [List.length].
  rewrite !Nat2Z.inj_succ, IH; [reflexivity|].
  intros y Hy. apply H. right. exact Hy.
Qed.

Lemma rank_none k (a : list IAVLNode) :
  (forall x, In x a -> klt (key x) k = false) -> rank k a = 0.
Proof.
  unfold rank, len_leaves. induction a as [|x a IH]; intros H; [reflexivity|].
  cbn [filter]. rewrite (H x (or_introl eq_refl)).
  apply IH. intros y Hy. apply H. right. exact Hy.
Qed.

Lemma lookup_app k (a b : list IAVLNode) :
  lookup k (a ++ b)
  = match lookup k a with Some x => Some x | None => lookup k b end.
Proof.
  induction a as [|x a IH]; simpl; [reflexivity|].
  destruct (bytes_Equal (key x) k); [reflexivity|exact IH].
Qed.

Lemma lookup_none k (a : list IAVLNode) :
  (forall x, In x a -> bytes_Equal (key x) k = false) -> lookup k a = None.
Proof.
  induction a as [|x a IH]; intros H; [reflexivity|].
  simpl. rewrite (H x (or_introl eq_refl)).
  apply IH. intros y Hy. apply H. right. exact Hy.
Qed.

Lemma get_on_ordered fuel :
  forall t n k,
    ordered n = true -> sized n = true -> (depth n <= fuel)%nat ->
    get fuel t n k
    = Ok (rank k (leaves n), found_value (lookup k (leaves n)),
          is_some (lookup k (leaves n))).
Proof.
  induction fuel as [|fuel IH]; intros t n k Ho Hs Hd.
  - rewrite depth_unfold in Hd. lia.
  - simpl. rewrite (leaves_unfold n). destruct (isLeaf n) eqn:Hleaf.
    + unfold rank, len_leaves. simpl.
      destruct (compare_cases (key n) k) as [(C & L & E)|[(C & L & E & _)|(C & L & E & _)]];
        rewrite C, L, E; reflexivity.
    + destruct (sized_inner _ Hs Hleaf) as (l & r & El & Er & Hl & Hr & Hsz & Hb).
      destruct (ordered_inner _ Ho Hleaf El Er) as (Ol & Or & Lt & Ge).
      rewrite depth_unfold, El, Er in Hd.
      pose proof (sized_positive _ Hl) as Pl.
      pose proof (sized_positive _ Hr) as Pr.
      unfold getLeftNode, getRightNode. rewrite El, Er. simpl.
      rewrite rank_app, lookup_app.
      destruct (bytes_Compare k (key n) <? 0) eqn:Hk.
      * (* the key is below the separator *)
        rewrite (IH t l k Ol Hl ltac:(lia)).
        assert (Hr0 : forall x, In x (leaves r) -> klt k (key x) = true)
          by (intros x Hx; apply (klt_trans _ _ _ Hk (Ge x Hx))).
        rewrite (rank_none k (leaves r)).
        2:{ intros x Hx. apply klt_not_sym. apply Hr0. exact Hx. }
        rewrite (lookup_none k (leaves r)).
        2:{ intros x Hx. rewrite bytes_Equal_sym.
            apply klt_irrefl_equal. apply Hr0. exact Hx. }
        rewrite Z.add_0_r.
        destruct (lookup k (leaves l)); reflexivity.
      * (* the key is not below the separator *)
        rewrite (IH t r k Or Hr ltac:(lia)). simpl.
        assert (Hl0 : forall x, In x (leaves l) -> klt (key x) k = true).
        { intros x Hx. apply (klt_trans _ (key n)); [apply Lt; exact Hx|].
          apply klt_false_kle. exact Hk. }
        rewrite (rank_all k (leaves l) Hl0).
        rewrite (lookup_none k (leaves l)).
        2:{ intros x Hx. apply klt_irrefl_equal. apply Hl0. exact Hx. }
        rewrite <- (sized_counts_leaves _ Hl).
        assert (Hrk : 0 <= rank k (leaves r) <= size r).
        { rewrite (sized_counts_leaves _ Hr). unfold rank, len_leaves.
          pose proof (filter_length_le (fun x => klt (key x) k) (leaves r)).
          lia. }
        rewrite (int64_id (x := size n - size r)) by lia.
        rewrite int64_id by lia.
        replace (rank k (leaves r) + (size n - size r))
          with (size l + rank k (leaves r)) by lia.
        reflexivity.
Qed.

(** X12.  On a resident tree with its keys in order and its sizes right,
    [get] returns, for any key: as index the number of leaves with a
    smaller key; the value of the leaf with that key, or nil if there is
    none; and whether there is one. *)
Theorem get_returns_rank_value_and_presence :
  forall fuel t node k,
    ordered node = true -> sized node = true -> (depth node <= fuel)%nat ->
    get fuel t node k
    = Ok (rank k (leaves node), found_value (lookup k (leaves node)),
          is_some (lookup k (leaves node))).
Proof. intros fuel. apply get_on_ordered. Qed.

Lemma get_rank_witness :
  get 3 stub S3_tree (bs "bb")
  = Ok (rank (bs "bb") (leaves S3_tree),
        found_value (lookup (bs "bb") (leaves S3_tree)),
        is_some (lookup (bs "bb") (leaves S3_tree))).
Proof.
  apply get_returns_rank_value_and_presence.
  - reflexivity.
  - reflexivity.
  - simpl. lia.
Defined.

(** ** Inner nodes with exact height and size *)

Lemma balanced_unfold n :
  balanced n
  = isLeaf n ||
    match leftNode n, rightNode n with
    | Some l, Some r =>
        balanced l && balanced r &&
        (height n =? Z.max (height l) (height r) + 1) &&
        (Z.abs (height l - height r) <=? 1)
    | _, _ => false
    end.
Proof. destruct n; reflexivity. Qed.

Lemma balanced_inner n l r :
  balanced n = true -> isLeaf n = false ->
  leftNode n = Some l -> rightNode n = Some r ->
  balanced l = true /\ balanced r = true /\
  height n = Z.max (height l) (height r) + 1 /\
  Z.abs (height l - height r) <= 1.
Proof.
  rewrite balanced_unfold. intros H Hleaf El Er.
  rewrite Hleaf, El, Er in H. simpl in H.
  repeat (apply andb_prop in H; destruct H as [H ?]).
  repeat split; auto.
  - apply Z.eqb_eq. assumption.
  - apply Z.leb_le. assumption.
Qed.

Lemma balanced_children n :
  balanced n = true -> isLeaf n = false ->
  exists l r, leftNode n = Some l /\ rightNode n = Some r.
Proof.
  rewrite balanced_unfold. intros H Hleaf. rewrite Hleaf in H. simpl in H.
  destruct (leftNode n) as [l|]; [|discriminate].
  destruct (rightNode n) as [r|]; [|discriminate].
  exists l, r. split; reflexivity.
Qed.

Lemma isLeaf_height n : isLeaf n = true <-> height n = 0.
Proof. unfold isLeaf. apply Z.eqb_eq. Qed.

Lemma balanced_height n :
  balanced n = true -> 0 <= height n.
Proof.
  induction n as [n IHl IHr] using IAVLNode_tree_ind.
  intros H. destruct (isLeaf n) eqn:Hleaf.
  - apply isLeaf_height in Hleaf. lia.
  - destruct (balanced_children _ H Hleaf) as (l & r & El & Er).
    destruct (balanced_inner _ H Hleaf El Er) as (Bl & Br & Hh & _).
    pose proof (IHl l El Bl). pose proof (IHr r Er Br). lia.
Qed.

Lemma inner_over_inner m k l r :
  inner_over m k l r -> 0 <= height l -> isLeaf m = false.
Proof.
  intros (_ & _ & _ & Hh & _) Hl. unfold isLeaf. apply Z.eqb_neq. lia.
Qed.

Lemma inner_over_leaves m k l r :
  inner_over m k l r -> 0 <= height l -> leaves m = leaves l ++ leaves r.
Proof.
  intros H Hl. rewrite leaves_unfold, (inner_over_inner H Hl).
  destruct H as (_ & El & Er & _). rewrite El, Er. reflexivity.
Qed.

Lemma inner_over_ordered m k l r :
  inner_over m k l r -> 0 <= height l ->
  ordered l = true -> ordered r = true ->
  all_below (leaves l) k -> none_below k (leaves r) ->
  ordered m = true.
Proof.
  intros H Hl Ol Or Lt Ge. rewrite ordered_unfold, (inner_over_inner H Hl).
  destruct H as (Hk & El & Er & _). rewrite El, Er, Ol, Or, Hk. simpl.
  apply andb_true_intro. split; apply forallb_forall; assumption.
Qed.

Lemma inner_over_balanced m k l r :
  inner_over m k l r ->
  balanced l = true -> balanced r = true ->
  Z.abs (height l - height r) <= 1 ->
  balanced m = true.
Proof.
  intros H Bl Br Hb. rewrite balanced_unfold.
  rewrite (inner_over_inner H (balanced_height _ Bl)).
  destruct H as (_ & El & Er & Hh & _). rewrite El, Er, Bl, Br. simpl.
  apply andb_true_intro. split; [apply Z.eqb_eq|apply Z.leb_le]; assumption.
Qed.

Lemma inner_over_sized m k l r :
  inner_over m k l r -> 0 <= height l ->
  sized l = true -> sized r = true -> size l + size r < 2 ^ 63 ->
  sized m = true.
Proof.
  intros H Hl Sl Sr Hb. rewrite sized_unfold, (inner_over_inner H Hl).
  destruct H as (_ & El & Er & _ & Hs). rewrite El, Er, Sl, Sr. simpl.
  apply andb_true_intro. split; [apply Z.eqb_eq|apply Z.ltb_lt]; lia.
Qed.

Lemma int8_id x : -128 <= x < 128 -> int8 x = x.
Proof.
  intros H. unfold int8, wrap_signed.
  change (2 ^ (8 - 1)) with 128. change (2 ^ 8) with 256.
  rewrite Z.mod_small; lia.
Qed.

Lemma calcHeightAndSize_exact t m l r :
  leftNode m = Some l -> rightNode m = Some r ->
  -128 <= Z.max (height l) (height r) + 1 < 128 ->
  is_int (size l + size r) ->
  exists m',
    calcHeightAndSize t m = Ok m' /\ inner_over m' (key m) l r /\
    hash m' = hash m /\ persisted m' = persisted m.
Proof.
  intros El Er Hh Hs. unfold calcHeightAndSize, getLeftNode, getRightNode.
  rewrite El, Er. simpl. eexists. split; [reflexivity|].
  unfold inner_over, maxInt8. simpl.
  rewrite (int8_id Hh), (int64_small Hs). repeat split; assumption.
Qed.

Lemma removeOrphan_returns n t : exists t', removeOrphan n t = Ok (tt, t').
Proof.
  unfold removeOrphan. destruct (negb (persisted n)); [eexists; reflexivity|].
  destruct (ndb t); eexists; reflexivity.
Qed.

Lemma copy_inner_Ok n :
  isLeaf n = false ->
  exists c, _copy n = Ok c /\ key c = key n /\
            leftNode c = leftNode n /\ rightNode c = rightNode n /\
            hash c = None /\ persisted c = false.
Proof.
  intros H. unfold _copy. rewrite H. eexists. split; [reflexivity|].
  repeat split.
Qed.

(** A rotation to the right of [n] over [l] and [z], where [l] is over [x]
    and [y]: the result is over [x] and a node over [y] and [z]. *)
Lemma rotateRight_exact n l x y z t :
  isLeaf n = false -> leftNode n = Some l -> rightNode n = Some z ->
  isLeaf l = false -> leftNode l = Some x -> rightNode l = Some y ->
  0 <= height x < 126 -> 0 <= height y < 126 -> 0 <= height z < 126 ->
  0 <= size x -> 0 <= size y -> 0 <= size z ->
  size x + size y + size z < 2 ^ 63 ->
  exists R m' t',
    rotateRight n t = Ok (R, t') /\
    inner_over m' (key n) y z /\ inner_over R (key l) x m' /\
    hash R = None /\ persisted R = false.
Proof.
  intros Hn El Ez Hl Ex Ey Hx Hy Hz Sx Sy Sz Hs.
  unfold rotateRight.
  destruct (copy_inner_Ok _ Hn) as (c & Hc & Kc & Lc & Rc & _).
  destruct (copy_inner_Ok _ Hl) as (cl & Hcl & Kcl & Lcl & Rcl & Hhcl & Hpcl).
  rewrite El in Lc. rewrite Ez in Rc. rewrite Ex in Lcl. rewrite Ey in Rcl.
  destruct (removeOrphan_returns l t) as (t' & Ho).
  destruct (@calcHeightAndSize_exact t'
              (with_left (rightHash cl) (rightNode cl) c) y z)
    as (m' & Hm' & Om' & Hhm' & _);
    [rewrite Rcl; reflexivity | exact Rc | lia | unfold is_int; lia |].
  assert (Hhm : height m' = Z.max (height y) (height z) + 1)
    by (apply Om').
  assert (Hsm : size m' = size y + size z) by (apply Om').
  destruct (@calcHeightAndSize_exact t'
              (with_right (hash m') (Some m') cl) x m')
    as (R & HR & OR & HhR & HpR);
    [exact Lcl | reflexivity | lia | unfold is_int; lia |].
  exists R, m', t'.
  split.
  - rewrite bindM_step with (a := c) (s' := t)
      by (unfold lift; rewrite Hc; reflexivity).
    rewrite bindM_step with (a := l) (s' := t)
      by (unfold rd, lift, getLeftNode; rewrite Lc; reflexivity).
    rewrite bindM_step with (1 := Ho).
    rewrite bindM_step with (a := cl) (s' := t')
      by (unfold lift; rewrite Hcl; reflexivity).
    rewrite bindM_step with (a := m') (s' := t')
      by (unfold rd, lift; rewrite Hm'; reflexivity).
    rewrite bindM_step with (a := R) (s' := t')
      by (unfold rd, lift; rewrite HR; reflexivity).
    reflexivity.
  - simpl in Om', OR, HhR, HpR. rewrite Kc in Om'. rewrite Kcl in OR.
    repeat split; try apply Om'; try apply OR; congruence.
Qed.

Lemma rotateLeft_exact n r x y z t :
  isLeaf n = false -> leftNode n = Some x -> rightNode n = Some r ->
  isLeaf r = false -> leftNode r = Some y -> rightNode r = Some z ->
  0 <= height x < 126 -> 0 <= height y < 126 -> 0 <= height z < 126 ->
  0 <= size x -> 0 <= size y -> 0 <= size z ->
  size x + size y + size z < 2 ^ 63 ->
  exists R m' t',
    rotateLeft n t = Ok (R, t') /\
    inner_over m' (key n) x y /\ inner_over R (key r) m' z /\
    hash R = None /\ persisted R = false.
Proof.
  intros Hn Ex Er Hr Ey Ez Hx Hy Hz Sx Sy Sz Hs.
  unfold rotateLeft.
  destruct (copy_inner_Ok _ Hn) as (c & Hc & Kc & Lc & Rc & _).
  destruct (copy_inner_Ok _ Hr) as (cr & Hcr & Kcr & Lcr & Rcr & Hhcr & Hpcr).
  rewrite Ex in Lc. rewrite Er in Rc. rewrite Ey in Lcr. rewrite Ez in Rcr.
  destruct (removeOrphan_returns r t) as (t' & Ho).
  destruct (@calcHeightAndSize_exact t'
              (with_right (leftHash cr) (leftNode cr) c) x y)
    as (m' & Hm' & Om' & Hhm' & _);
    [exact Lc | rewrite Lcr; reflexivity | lia | unfold is_int; lia |].
  assert (Hhm : height m' = Z.max (height x) (height y) + 1)
    by (apply Om').
  assert (Hsm : size m' = size x + size y) by (apply Om').
  destruct (@calcHeightAndSize_exact t'
              (with_left (hash m') (Some m') cr) m' z)
    as (R & HR & OR & HhR & HpR);
    [reflexivity | exact Rcr | lia | unfold is_int; lia |].
  exists R, m', t'.
  split.
  - rewrite bindM_step with (a := c) (s' := t)
      by (unfold lift; rewrite Hc; reflexivity).
    rewrite bindM_step with (a := r) (s' := t)
      by (unfold rd, lift, getRightNode; rewrite Rc; reflexivity).
    rewrite bindM_step with (1 := Ho).
    rewrite bindM_step with (a := cr) (s' := t')
      by (unfold lift; rewrite Hcr; reflexivity).
    rewrite bindM_step with (a := m') (s' := t')
      by (unfold rd, lift; rewrite Hm'; reflexivity).
    rewrite bindM_step with (a := R) (s' := t')
      by (unfold rd, lift; rewrite HR; reflexivity).
    reflexivity.
  - simpl in Om', OR, HhR, HpR. rewrite Kc in Om'. rewrite Kcr in OR.
    repeat split; try apply Om'; try apply OR; congruence.
Qed.

(** ** Separators *)

Lemma separators_ok_unfold n :
  separators_ok n
  = isLeaf n ||
    (match leftNode n with Some l => separators_ok l | None => false end &&
     match rightNode n with
     | Some r => separators_ok r && bytes_Equal (key n) (key (leftmost r))
     | None => false
     end).
Proof. destruct n; reflexivity. Qed.

Lemma separators_ok_inner n l r :
  separators_ok n = true -> isLeaf n = false ->
  leftNode n = Some l -> rightNode n = Some r ->
  separators_ok l = true /\ separators_ok r = true /\
  bytes_Equal (key n) (key (leftmost r)) = true.
Proof.
  intros H Hleaf El Er. rewrite separators_ok_unfold, Hleaf, El, Er in H.
  cbn [orb] in H. apply andb_prop in H. destruct H as [Hl H].
  apply andb_prop in H. destruct H as [Hr Hk]. auto.
Qed.

Lemma sized_resident n : sized n = true -> resident n = true.
Proof.
  induction n as [n IHl IHr] using IAVLNode_tree_ind.
  intros H. destruct (isLeaf n) eqn:Hleaf.
  - destruct n. cbn in Hleaf |- *. unfold isLeaf in *. cbn in *.
    rewrite Hleaf. reflexivity.
  - destruct (sized_inner _ H Hleaf) as (l & r & El & Er & Sl & Sr & _).
    pose proof (IHl l El Sl) as Rl. pose proof (IHr r Er Sr) as Rr.
    destruct n as [k v ve h s ha lh ln rh rn p]. cbn in El, Er. subst ln rn.
    cbn. rewrite Rl, Rr. apply orb_true_r.
Qed.

Lemma leftmost_unfold n :
  leftmost n
  = if isLeaf n then n
    else match leftNode n with Some l => leftmost l | None => n end.
Proof. destruct n; reflexivity. Qed.

Lemma leftmost_hd n :
  sized n = true -> exists rest, leaves n = leftmost n :: rest.
Proof.
  induction n as [n IHl IHr] using IAVLNode_tree_ind.
  intros H. rewrite leaves_unfold, leftmost_unfold.
  destruct (isLeaf n) eqn:Hleaf; [exists []; reflexivity|].
  destruct (sized_inner _ H Hleaf) as (l & r & El & Er & Sl & Sr & _).
  rewrite El, Er. destruct (IHl l El Sl) as (rest & ->).
  exists (rest ++ leaves r). reflexivity.
Qed.

Lemma leftmost_over m k l r :
  inner_over m k l r -> 0 <= height l -> leftmost m = leftmost l.
Proof.
  intros H P. rewrite leftmost_unfold, (inner_over_inner H P).
  destruct H as (_ & -> & _). reflexivity.
Qed.

Lemma separators_ok_over m k l r :
  inner_over m k l r -> 0 <= height l ->
  separators_ok l = true -> separators_ok r = true ->
  bytes_Equal k (key (leftmost r)) = true ->
  separators_ok m = true.
Proof.
  intros H P Hl Hr Hk. rewrite separators_ok_unfold, (inner_over_inner H P).
  destruct H as (-> & -> & -> & _). rewrite Hl, Hr, Hk. reflexivity.
Qed.

Lemma separators_ok_children n k l r :
  inner_over n k l r -> 0 <= height l -> separators_ok n = true ->
  separators_ok l = true /\ separators_ok r = true /\
  bytes_Equal k (key (leftmost r)) = true.
Proof.
  intros H P Hn. pose proof (inner_over_inner H P) as Hleaf.
  destruct H as (<- & El & Er & _).
  apply (separators_ok_inner _ Hn Hleaf El Er).
Qed.

(** ** [balance] on a node over two search trees *)

Lemma search_tree_inner_over m k l r :
  inner_over m k l r -> search_tree l -> search_tree r ->
  all_below (leaves l) k -> none_below k (leaves r) ->
  Z.abs (height l - height r) <= 1 -> size l + size r < 2 ^ 63 ->
  search_tree m /\ leaves m = leaves l ++ leaves r.
Proof.
  intros H (Ol & Bl & Sl) (Or & Br & Sr) Lt Ge Hb Hs.
  pose proof (balanced_height _ Bl) as Hl.
  split; [split; [|split]|].
  - apply (inner_over_ordered H Hl Ol Or Lt Ge).
  - apply (inner_over_balanced H Bl Br Hb).
  - apply (inner_over_sized H Hl Sl Sr Hs).
  - apply (inner_over_leaves H Hl).
Qed.

Lemma search_tree_children n :
  search_tree n -> isLeaf n = false ->
  exists l r,
    inner_over n (key n) l r /\ search_tree l /\ search_tree r /\
    all_below (leaves l) (key n) /\ none_below (key n) (leaves r) /\
    Z.abs (height l - height r) <= 1 /\ size n < 2 ^ 63 /\
    leaves n = leaves l ++ leaves r.
Proof.
  intros (On & Bn & Sn) Hleaf.
  destruct (sized_inner _ Sn Hleaf) as (l & r & El & Er & Sl & Sr & Hs & Hb).
  destruct (ordered_inner _ On Hleaf El Er) as (Ol & Or & Lt & Ge).
  destruct (balanced_inner _ Bn Hleaf El Er) as (Bl & Br & Hh & Hbal).
  exists l, r. unfold inner_over, search_tree.
  rewrite (leaves_unfold n), Hleaf, El, Er. repeat split; auto.
Qed.

Lemma search_tree_facts n :
  search_tree n ->
  0 <= height n /\ 1 <= size n < 2 ^ 63 /\
  exists x rest, leaves n = x :: rest.
Proof.
  intros (On & Bn & Sn). split; [apply balanced_height; exact Bn|].
  split; [apply sized_positive; exact Sn|].
  pose proof (sized_positive _ Sn) as P.
  rewrite (sized_counts_leaves _ Sn) in P. unfold len_leaves in P.
  destruct (leaves n) as [|x rest]; [simpl in P; lia|].
  exists x, rest. reflexivity.
Qed.

Lemma all_below_app a b k :
  all_below (a ++ b) k <-> all_below a k /\ all_below b k.
Proof.
  unfold all_below. split.
  - intros H. split; intros x Hx; apply H; apply in_or_app; auto.
  - intros [Ha Hb] x Hx. apply in_app_or in Hx. destruct Hx; auto.
Qed.

Lemma none_below_app k a b :
  none_below k (a ++ b) <-> none_below k a /\ none_below k b.
Proof.
  unfold none_below. split.
  - intros H. split; intros x Hx; apply H; apply in_or_app; auto.
  - intros [Ha Hb] x Hx. apply in_app_or in Hx. destruct Hx; auto.
Qed.

(** From [k1 <= y < k2] for a leaf [y]: what is not below [k2] is not below
    [k1], and what is below [k1] is below [k2]. *)
Lemma none_below_through k1 k2 (y : IAVLNode) ls :
  kle k1 (key y) = true -> klt (key y) k2 = true ->
  none_below k2 ls -> none_below k1 ls.
Proof.
  intros H1 H2 H x Hx. apply klt_kle.
  apply (klt_trans _ k2); [|apply H; exact Hx].
  apply (kle_klt_trans _ (key y)); assumption.
Qed.

Lemma all_below_through k1 k2 (y : IAVLNode) ls :
  kle k1 (key y) = true -> klt (key y) k2 = true ->
  all_below ls k1 -> all_below ls k2.
Proof.
  intros H1 H2 H x Hx.
  apply (klt_trans _ k1); [apply H; exact Hx|].
  apply klt_kle. apply (kle_klt_trans _ (key y)); assumption.
Qed.

Lemma calcBalance_exact t m k l r :
  inner_over m k l r -> calcBalance t m = Ok (height l - height r).
Proof.
  intros (_ & El & Er & _). unfold calcBalance, getLeftNode, getRightNode.
  rewrite El, Er. reflexivity.
Qed.

Lemma getLeftNode_inner_over t m k l r :
  inner_over m k l r -> getLeftNode t m = Ok l.
Proof. intros (_ & El & _). unfold getLeftNode. rewrite El. reflexivity. Qed.

Lemma getRightNode_inner_over t m k l r :
  inner_over m k l r -> getRightNode t m = Ok r.
Proof. intros (_ & _ & Er & _). unfold getRightNode. rewrite Er. reflexivity. Qed.

Ltac rd_to v st H :=
  rewrite bindM_step with (a := v) (s' := st)
    by (unfold rd, lift; rewrite H; reflexivity).

Lemma isLeaf_false_of_height n : 1 <= height n -> isLeaf n = false.
Proof. intros H. unfold isLeaf. apply Z.eqb_neq. lia. Qed.

Lemma balance_on_search_trees_sep m k l r t :
  inner_over m k l r -> persisted m = false ->
  search_tree l -> search_tree r ->
  all_below (leaves l) k -> none_below k (leaves r) ->
  Z.abs (height l - height r) <= 2 ->
  height l <= 126 -> height r <= 126 ->
  size l + size r < 2 ^ 63 ->
  exists R t',
    balance m t = Ok (R, t') /\
    search_tree R /\ leaves R = leaves l ++ leaves r /\
    (Z.abs (height l - height r) <= 1 -> R = m) /\
    height m - 1 <= height R <= height m /\
    (separators_ok l = true -> separators_ok r = true ->
     bytes_Equal k (key (leftmost r)) = true -> separators_ok R = true).
Proof.
  intros Hm Hp Tl Tr Lt Ge Hb2 Hhl Hhr Hs.
  destruct (search_tree_facts Tl) as (Pl & Sl & (l0 & lrest & Ll)).
  destruct (search_tree_facts Tr) as (Pr & Sr & (r0 & rrest & Lr)).
  pose proof Hm as (Km & Elm & Erm & Hhm & Hsm).
  pose proof (inner_over_inner Hm Pl) as Hminner.
  unfold balance. rewrite Hp.
  rd_to (height l - height r) t (calcBalance_exact t Hm).
  destruct (1 <? height l - height r) eqn:B1.
  - (* the left side is too high *)
    apply Z.ltb_lt in B1.
    assert (Hlin : isLeaf l = false) by (apply isLeaf_false_of_height; lia).
    destruct (search_tree_children Tl Hlin)
      as (x & y & Hl & Tx & Ty & Ltx & Gey & Hbl & _ & Lxy).
    destruct (search_tree_facts Tx) as (Px & Sx & (x0 & xrest & Lx)).
    destruct (search_tree_facts Ty) as (Py & Sy & (y0 & yrest & Ly)).
    pose proof Hl as (_ & Elx & Ely & Hhl' & Hsl').
    rewrite Lxy in Lt. apply all_below_app in Lt. destruct Lt as [Ltxk Ltyk].
    assert (Hy0 : kle (key l) (key y0) = true /\ klt (key y0) k = true).
    { split; [apply Gey|apply Ltyk]; rewrite Ly; left; reflexivity. }
    destruct Hy0 as [Hy0a Hy0b].
    rd_to l t (getLeftNode_inner_over t Hm).
    rd_to (height x - height y) t (calcBalance_exact t Hl).
    destruct (0 <=? height x - height y) eqn:B2.
    + (* Left Left Case *)
      apply Z.leb_le in B2.
      destruct (@rotateRight_exact m l x y r t)
        as (R & m' & t' & HR & Om' & OR & _); try assumption; try lia.
      rewrite Km in Om'.
      destruct (search_tree_inner_over Om' Ty Tr Ltyk Ge) as [Tm' Lm'];
        [lia|lia|].
      destruct (search_tree_inner_over OR Tx Tm') as [TR LR].
      * exact Ltx.
      * rewrite Lm'. apply none_below_app. split; [exact Gey|].
        apply (none_below_through _ _ Hy0a Hy0b Ge).
      * destruct Om' as (_ & _ & _ & Hh' & _). lia.
      * destruct Om' as (_ & _ & _ & _ & Hs'). lia.
      * exists R, t'. split; [exact HR|]. split; [exact TR|].
        split; [rewrite LR, Lm', Lxy, app_assoc; reflexivity|].
        split; [lia|].
        split.
        { destruct Om' as (_ & _ & _ & Hh' & _).
          destruct OR as (_ & _ & _ & HhR & _). lia. }
        intros Ql Qr Qk.
        destruct (separators_ok_children Hl Px Ql) as (Qx & Qy & Qkl).
        assert (Qm' : separators_ok m' = true)
          by (apply (separators_ok_over Om' Py Qy Qr Qk)).
        apply (separators_ok_over OR Px Qx Qm').
        rewrite (leftmost_over Om' Py). exact Qkl.
    + (* Left Right Case *)
      apply Z.leb_gt in B2.
      assert (Hyin : isLeaf y = false) by (apply isLeaf_false_of_height; lia).
      destruct (search_tree_children Ty Hyin)
        as (p & q & Hy & Tp & Tq & Ltp & Geq & Hby & _ & Lpq).
      destruct (search_tree_facts Tp) as (Pp & Sp & (p0 & prest & Lp)).
      destruct (search_tree_facts Tq) as (Pq & Sq & (q0 & qrest & Lq)).
      pose proof Hy as (_ & Elp & Elq & Hhy' & Hsy').
      rewrite Lpq in Ltyk, Gey.
      apply all_below_app in Ltyk. destruct Ltyk as [Ltpk Ltqk].
      apply none_below_app in Gey. destruct Gey as [Gep Geq'].
      rd_to l t (getLeftNode_inner_over t Hm).
      destruct (removeOrphan_returns l t) as (t1 & Ho).
      rewrite bindM_step with (1 := Ho).
      destruct (@rotateLeft_exact l y x p q t1)
        as (L' & l' & t2 & HL & Ol' & OL' & _); try assumption; try lia.
      rewrite bindM_step with (1 := HL).
      assert (Hl'h : height l' = height l - 1)
        by (destruct Ol' as (_ & _ & _ & Hh' & _); lia).
      assert (Hl's : size l' = size x + size p) by (apply Ol').
      assert (HL'in : isLeaf L' = false).
      { apply (inner_over_inner OL'). lia. }
      destruct (@rotateRight_exact (with_left None (Some L') m) L' l' q r t2)
        as (R & m' & t' & HR & Om' & OR & _);
        try assumption; try reflexivity; try lia.
      { apply OL'. }
      { apply OL'. }
      simpl in Om', OR.
      (* the three new nodes *)
      assert (Hp0 : kle (key l) (key p0) = true /\ klt (key p0) (key y) = true).
      { split; [apply Gep|apply Ltp]; rewrite Lp; left; reflexivity. }
      assert (Hq0 : kle (key y) (key q0) = true /\ klt (key q0) k = true).
      { split; [apply Geq|apply Ltqk]; rewrite Lq; left; reflexivity. }
      destruct (search_tree_inner_over Ol' Tx Tp Ltx Gep) as [Tl' Ll'];
        [lia|lia|].
      rewrite Km in Om'.
      destruct (search_tree_inner_over Om' Tq Tr Ltqk Ge) as [Tm' Lm'];
        [lia|lia|].
      assert (KL' : key L' = key y) by (apply OL').
      rewrite KL' in OR.
      destruct (search_tree_inner_over OR Tl' Tm') as [TR LR].
      * rewrite Ll'. apply all_below_app. split; [|exact Ltp].
        apply (all_below_through _ _ (proj1 Hp0) (proj2 Hp0) Ltx).
      * rewrite Lm'. apply none_below_app. split; [exact Geq|].
        apply (none_below_through _ _ (proj1 Hq0) (proj2 Hq0) Ge).
      * destruct Om' as (_ & _ & _ & Hh' & _). lia.
      * destruct Om' as (_ & _ & _ & _ & Hs'). lia.
      * exists R, t'. split; [exact HR|]. split; [exact TR|].
        split.
        { rewrite LR, Ll', Lm', Lxy, Lpq, <- !app_assoc. reflexivity. }
        split; [lia|].
        split.
        { destruct Om' as (_ & _ & _ & Hh' & _).
          destruct OR as (_ & _ & _ & HhR & _). lia. }
        intros Ql Qr Qk.
        destruct (separators_ok_children Hl Px Ql) as (Qx & Qy & Qkl).
        destruct (separators_ok_children Hy Pp Qy) as (Qp & Qq & Qky).
        rewrite (leftmost_over Hy Pp) in Qkl.
        assert (Ql' : separators_ok l' = true)
          by (apply (separators_ok_over Ol' Px Qx Qp Qkl)).
        assert (Qm' : separators_ok m' = true)
          by (apply (separators_ok_over Om' Pq Qq Qr Qk)).
        apply (separators_ok_over OR); [lia|exact Ql'|exact Qm'|].
        rewrite (leftmost_over Om' Pq). exact Qky.
  - apply Z.ltb_ge in B1.
    destruct (height l - height r <? -1) eqn:B3.
    + (* the right side is too high *)
      apply Z.ltb_lt in B3.
      assert (Hrin : isLeaf r = false) by (apply isLeaf_false_of_height; lia).
      destruct (search_tree_children Tr Hrin)
        as (y & z & Hr & Ty & Tz & Lty & Gez & Hbr & _ & Lyz).
      destruct (search_tree_facts Ty) as (Py & Sy & (y0 & yrest & Ly)).
      destruct (search_tree_facts Tz) as (Pz & Sz & (z0 & zrest & Lz)).
      pose proof Hr as (_ & Ery & Erz & Hhr' & Hsr').
      rewrite Lyz in Ge. apply none_below_app in Ge. destruct Ge as [Geyk Gezk].
      assert (Hy0 : kle k (key y0) = true /\ klt (key y0) (key r) = true).
      { split; [apply Geyk|apply Lty]; rewrite Ly; left; reflexivity. }
      destruct Hy0 as [Hy0a Hy0b].
      rd_to r t (getRightNode_inner_over t Hm).
      rd_to (height y - height z) t (calcBalance_exact t Hr).
      destruct (height y - height z <=? 0) eqn:B4.
      * (* Right Right Case *)
        apply Z.leb_le in B4.
        destruct (@rotateLeft_exact m r l y z t)
          as (R & m' & t' & HR & Om' & OR & _); try assumption; try lia.
        rewrite Km in Om'.
        destruct (search_tree_inner_over Om' Tl Ty Lt Geyk) as [Tm' Lm'];
          [lia|lia|].
        destruct (search_tree_inner_over OR Tm' Tz) as [TR LR].
        -- rewrite Lm'. apply all_below_app. split; [|exact Lty].
           apply (all_below_through _ _ Hy0a Hy0b Lt).
        -- exact Gez.
        -- destruct Om' as (_ & _ & _ & Hh' & _). lia.
        -- destruct Om' as (_ & _ & _ & _ & Hs'). lia.
        -- exists R, t'. split; [exact HR|]. split; [exact TR|].
           split; [rewrite LR, Lm', Lyz, app_assoc; reflexivity|].
           split; [lia|].
           split.
           { destruct Om' as (_ & _ & _ & Hh' & _).
             destruct OR as (_ & _ & _ & HhR & _). lia. }
           intros Ql Qr Qk.
           destruct (separators_ok_children Hr Py Qr) as (Qy & Qz & Qkr).
           rewrite (leftmost_over Hr Py) in Qk.
           assert (Qm' : separators_ok m' = true)
             by (apply (separators_ok_over Om' Pl Ql Qy Qk)).
           apply (separators_ok_over OR); [|exact Qm'|exact Qz|exact Qkr].
           destruct Om' as (_ & _ & _ & Hh' & _). lia.
      * (* Right Left Case *)
        apply Z.leb_gt in B4.
        assert (Hyin : isLeaf y = false) by (apply isLeaf_false_of_height; lia).
        destruct (search_tree_children Ty Hyin)
          as (p & q & Hy & Tp & Tq & Ltp & Geq & Hby & _ & Lpq).
        destruct (search_tree_facts Tp) as (Pp & Sp & (p0 & prest & Lp)).
        destruct (search_tree_facts Tq) as (Pq & Sq & (q0 & qrest & Lq)).
        pose proof Hy as (_ & Elp & Elq & Hhy' & Hsy').
        rewrite Lpq in Geyk, Lty.
        apply none_below_app in Geyk. destruct Geyk as [Gepk Geqk].
        apply all_below_app in Lty. destruct Lty as [Ltpr Ltqr].
        rd_to r t (getRightNode_inner_over t Hm).
        destruct (removeOrphan_returns r t) as (t1 & Ho).
        rewrite bindM_step with (1 := Ho).
        destruct (@rotateRight_exact r y p q z t1)
          as (R' & r' & t2 & HR' & Or' & OR' & _); try assumption; try lia.
        rewrite bindM_step with (1 := HR').
        assert (Hr'h : height r' = height r - 1)
          by (destruct Or' as (_ & _ & _ & Hh' & _); lia).
        assert (Hr's : size r' = size q + size z) by (apply Or').
        assert (HR'in : isLeaf R' = false).
        { apply (inner_over_inner OR'). lia. }
        destruct (@rotateLeft_exact (with_right None (Some R') m) R' l p r' t2)
          as (R & m' & t' & HR & Om' & OR & _);
          try assumption; try reflexivity; try lia.
        { apply OR'. }
        { apply OR'. }
        simpl in Om', OR.
        assert (Hp0 : kle k (key p0) = true /\ klt (key p0) (key y) = true).
        { split; [apply Gepk|apply Ltp]; rewrite Lp; left; reflexivity. }
        assert (Hq0 : kle (key y) (key q0) = true /\ klt (key q0) (key r) = true).
        { split; [apply Geq|apply Ltqr]; rewrite Lq; left; reflexivity. }
        destruct (search_tree_inner_over Or' Tq Tz Ltqr Gez) as [Tr' Lr'];
          [lia|lia|].
        rewrite Km in Om'.
        destruct (search_tree_inner_over Om' Tl Tp Lt Gepk) as [Tm' Lm'];
          [lia|lia|].
        assert (KR' : key R' = key y) by (apply OR').
        rewrite KR' in OR.
        destruct (search_tree_inner_over OR Tm' Tr') as [TR LR].
        -- rewrite Lm'. apply all_below_app. split; [|exact Ltp].
           apply (all_below_through _ _ (proj1 Hp0) (proj2 Hp0) Lt).
        -- rewrite Lr'. apply none_below_app. split; [exact Geq|].
           apply (none_below_through _ _ (proj1 Hq0) (proj2 Hq0) Gez).
        -- destruct Om' as (_ & _ & _ & Hh' & _). lia.
        -- destruct Om' as (_ & _ & _ & _ & Hs'). lia.
        -- exists R, t'. split; [exact HR|]. split; [exact TR|].
           split.
           { rewrite LR, Lr', Lm', Lyz, Lpq, <- !app_assoc. reflexivity. }
           split; [lia|].
           split.
           { destruct Om' as (_ & _ & _ & Hh' & _).
             destruct OR as (_ & _ & _ & HhR & _). lia. }
           intros Ql Qr Qk.
           destruct (separators_ok_children Hr Py Qr) as (Qy & Qz & Qkr).
           destruct (separators_ok_children Hy Pp Qy) as (Qp & Qq & Qky).
           rewrite (leftmost_over Hr Py), (leftmost_over Hy Pp) in Qk.
           assert (Qr' : separators_ok r' = true)
             by (apply (separators_ok_over Or' Pq Qq Qz Qkr)).
           assert (Qm' : separators_ok m' = true)
             by (apply (separators_ok_over Om' Pl Ql Qp Qk)).
           apply (separators_ok_over OR); [|exact Qm'|exact Qr'|].
           { destruct Om' as (_ & _ & _ & Hh' & _). lia. }
           rewrite (leftmost_over Or' Pq). exact Qky.
    + (* Nothing changed *)
      apply Z.ltb_ge in B3.
      destruct (search_tree_inner_over Hm Tl Tr Lt Ge) as [Tm Lm]; [lia|lia|].
      exists m, t. split; [reflexivity|]. split; [exact Tm|].
      split; [exact Lm|]. split; [reflexivity|]. split; [lia|].
      intros Ql Qr Qk. apply (separators_ok_over Hm Pl Ql Qr Qk).
Qed.

Lemma balance_on_search_trees m k l r t :
  inner_over m k l r -> persisted m = false ->
  search_tree l -> search_tree r ->
  all_below (leaves l) k -> none_below k (leaves r) ->
  Z.abs (height l - height r) <= 2 ->
  height l <= 126 -> height r <= 126 ->
  size l + size r < 2 ^ 63 ->
  exists R t',
    balance m t = Ok (R, t') /\
    search_tree R /\ leaves R = leaves l ++ leaves r /\
    (Z.abs (height l - height r) <= 1 -> R = m) /\
    height m - 1 <= height R <= height m.
Proof.
  intros Hm Hp Tl Tr Lt Ge Hb2 Hhl Hhr Hs.
  destruct (@balance_on_search_trees_sep m k l r t Hm Hp Tl Tr Lt Ge Hb2
              Hhl Hhr Hs) as (R & t' & HR & TR & LR & Hsame & HhR & _).
  exists R, t'. split; [exact HR|]. split; [exact TR|]. split; [exact LR|].
  split; [exact Hsame|exact HhR].
Qed.

(** ** Insertion into a list of leaves *)

Lemma kle_refl a : kle a a = true.
Proof.
  apply klt_false_kle.
  destruct (compare_cases a a) as [(_ & _ & H)|[(_ & H & _)|(_ & _ & H & _)]];
    try exact H; rewrite bytes_Equal_refl in H; discriminate.
Qed.

Lemma in_ins k v ls x :
  In x (ins k v ls) -> x = NewIAVLNode k v \/ In x ls.
Proof.
  induction ls as [|y rest IH]; cbn [ins].
  - intros [<-|[]]. left. reflexivity.
  - destruct (klt k (key y)).
    + intros [<-|H]; [left; reflexivity|right; exact H].
    + destruct (bytes_Equal k (key y)).
      * intros [<-|H]; [left; reflexivity|right; right; exact H].
      * intros [<-|H]; [right; left; reflexivity|].
        destruct (IH H) as [E|E]; [left; exact E|right; right; exact E].
Qed.

Lemma all_below_ins k v ls s :
  klt k s = true -> all_below ls s -> all_below (ins k v ls) s.
Proof.
  intros Hk H x Hx. destruct (in_ins _ _ _ _ Hx) as [->|Hin].
  - exact Hk.
  - apply H. exact Hin.
Qed.

Lemma none_below_ins k v ls s :
  kle s k = true -> none_below s ls -> none_below s (ins k v ls).
Proof.
  intros Hk H x Hx. destruct (in_ins _ _ _ _ Hx) as [->|Hin].
  - exact Hk.
  - apply H. exact Hin.
Qed.

Lemma ins_app_left k v s a b :
  klt k s = true -> none_below s b -> ins k v (a ++ b) = ins k v a ++ b.
Proof.
  intros Hk Hb. induction a as [|x rest IH].
  - destruct b as [|y b']; [reflexivity|]. cbn [app ins].
    rewrite (klt_trans _ _ _ Hk (Hb y (or_introl eq_refl))). reflexivity.
  - cbn [app ins]. destruct (klt k (key x)); [reflexivity|].
    destruct (bytes_Equal k (key x)); [reflexivity|].
    rewrite IH. reflexivity.
Qed.

Lemma ins_app_right k v s a b :
  all_below a s -> kle s k = true -> ins k v (a ++ b) = a ++ ins k v b.
Proof.
  intros Ha Hk. induction a as [|x rest IH]; [reflexivity|].
  cbn [app ins].
  assert (Hx : klt (key x) k = true).
  { apply (klt_trans _ s); [apply Ha; left; reflexivity|exact Hk]. }
  rewrite (klt_not_sym _ _ Hx).
  rewrite bytes_Equal_sym, (klt_irrefl_equal _ _ Hx).
  rewrite IH; [reflexivity|].
  intros y Hy. apply Ha. right. exact Hy.
Qed.

Lemma lookup_above k s (a : list IAVLNode) :
  all_below a s -> kle s k = true -> lookup k a = None.
Proof.
  intros Ha Hk. apply lookup_none. intros x Hx.
  apply klt_irrefl_equal. apply (klt_trans _ s); [apply Ha; exact Hx|exact Hk].
Qed.

Lemma lookup_below k s (b : list IAVLNode) :
  klt k s = true -> none_below s b -> lookup k b = None.
Proof.
  intros Hk Hb. apply lookup_none. intros x Hx.
  rewrite bytes_Equal_sym. apply klt_irrefl_equal.
  apply (klt_trans _ s); [exact Hk|apply Hb; exact Hx].
Qed.

Lemma search_tree_NewIAVLNode k v : search_tree (NewIAVLNode k v).
Proof. unfold search_tree. repeat split; reflexivity. Qed.

Lemma search_tree_size_app R l r :
  search_tree R -> search_tree l -> search_tree r ->
  leaves R = leaves l ++ leaves r -> size R = size l + size r.
Proof.
  intros (_ & _ & SR) (_ & _ & Sl) (_ & _ & Sr) H.
  rewrite (sized_counts_leaves _ SR), (sized_counts_leaves _ Sl),
    (sized_counts_leaves _ Sr), H.
  unfold len_leaves. rewrite length_app. lia.
Qed.

(** ** [set] on a search tree *)

Lemma klt_irrefl a : klt a a = false.
Proof.
  destruct (compare_cases a a) as [(_ & _ & H)|[(_ & H & _)|(_ & _ & H & _)]];
    try exact H; rewrite bytes_Equal_refl in H; discriminate.
Qed.

Lemma kle_not_klt a b : kle a b = true -> klt b a = false.
Proof.
  intros H. destruct (klt b a) eqn:E; [|reflexivity].
  rewrite <- (klt_irrefl b). symmetry. apply (klt_trans _ a); assumption.
Qed.

Lemma hd_ins k v x rest :
  klt k (key x) = false ->
  exists y rest', ins k v (x :: rest) = y :: rest' /\
                  bytes_Equal (key y) (key x) = true.
Proof.
  intros H. cbn [ins]. rewrite H.
  destruct (bytes_Equal k (key x)) eqn:E.
  - exists (NewIAVLNode k v), rest. split; [reflexivity|exact E].
  - exists x, (ins k v rest). split; [reflexivity|apply bytes_Equal_refl].
Qed.

(** An insertion of a key that is not below the first key leaves the first
    key as it is. *)
Lemma leftmost_after_ins r r' k v s :
  sized r = true -> sized r' = true ->
  leaves r' = ins k v (leaves r) ->
  kle s k = true -> bytes_Equal s (key (leftmost r)) = true ->
  bytes_Equal s (key (leftmost r')) = true.
Proof.
  intros Sr Sr' Hl Hk Hs.
  destruct (leftmost_hd _ Sr) as (rest & Lr).
  destruct (leftmost_hd _ Sr') as (rest' & Lr').
  rewrite Lr, Lr' in Hl.
  destruct (@hd_ins k v (leftmost r) rest) as (y & rest2 & Hi & Hy).
  - apply kle_not_klt. rewrite <- (bytes_Equal_kle_l _ _ k Hs). exact Hk.
  - rewrite Hi in Hl. injection Hl as -> _.
    rewrite (bytes_Equal_trans_l _ _ (key y) Hs), bytes_Equal_sym. exact Hy.
Qed.

Lemma set_on_search_tree_sep fuel :
  forall n k v t,
    search_tree n -> height n <= 126 -> size n < 2 ^ 63 - 1 ->
    (depth n <= fuel)%nat ->
    exists r u o t',
      set fuel n k v t = Ok (r, u, o, t') /\
      search_tree r /\ leaves r = ins k v (leaves n) /\
      u = is_some (lookup k (leaves n)) /\
      (u = true -> height r = height n /\ size r = size n) /\
      (u = false ->
       height n <= height r <= height n + 1 /\ size r = size n + 1) /\
      (separators_ok n = true -> separators_ok r = true).
Proof.
  induction fuel as [|fuel IH]; intros n k v t Tn Hh Hs Hd.
  { rewrite depth_unfold in Hd. lia. }
  cbn [set]. destruct (isLeaf n) eqn:Hleaf.
  - (* a leaf *)
    pose proof Tn as (_ & _ & Sn).
    pose proof (sized_leaf _ Sn Hleaf) as Hs1.
    pose proof (proj1 (isLeaf_height n) Hleaf) as Hh0.
    assert (Ln : leaves n = [n]) by (rewrite leaves_unfold, Hleaf; reflexivity).
    rewrite Ln. cbn [ins lookup].
    destruct (compare_cases k (key n))
      as [(Hc & Hlt & Heq)|[(Hc & Hlt & Heq & Hgt)|(Hc & Hlt & Heq & Hgt)]];
      rewrite Hc, Hlt; rewrite (bytes_Equal_sym (key n) k), Heq;
      cbn [Z.eqb Pos.eqb].
    + assert (Ho : inner_over (newInner (key n) (NewIAVLNode k v) n)
                     (key n) (NewIAVLNode k v) n).
      { unfold inner_over. cbn. rewrite Hh0, Hs1. repeat split; reflexivity. }
      destruct (search_tree_inner_over Ho (search_tree_NewIAVLNode k v) Tn)
        as [TR LR].
      * intros x [<-|[]]. exact Hlt.
      * rewrite Ln. intros x [<-|[]]. apply kle_refl.
      * cbn. rewrite Hh0. cbn. lia.
      * cbn. rewrite Hs1. cbn. lia.
      * eexists _, _, _, _. split; [reflexivity|]. split; [exact TR|].
        split; [rewrite LR, Ln; reflexivity|]. split; [reflexivity|].
        split; [discriminate|]. split; [intros _; cbn; lia|].
        intros Qn. apply (separators_ok_over Ho);
          [cbn; lia|reflexivity|exact Qn|].
        rewrite leftmost_unfold, Hleaf. apply bytes_Equal_refl.
    + eexists _, _, _, _. split; [reflexivity|].
      split; [apply search_tree_NewIAVLNode|].
      split; [reflexivity|]. split; [reflexivity|].
      split; [intros _; cbn; lia|]. split; [discriminate|].
      intros _. reflexivity.
    + assert (Ho : inner_over (newInner k n (NewIAVLNode k v))
                     k n (NewIAVLNode k v)).
      { unfold inner_over. cbn. rewrite Hh0, Hs1. repeat split; reflexivity. }
      destruct (search_tree_inner_over Ho Tn (search_tree_NewIAVLNode k v))
        as [TR LR].
      * rewrite Ln. intros x [<-|[]]. exact Hgt.
      * intros x [<-|[]]. apply kle_refl.
      * cbn. rewrite Hh0. cbn. lia.
      * cbn. rewrite Hs1. cbn. lia.
      * eexists _, _, _, _. split; [reflexivity|]. split; [exact TR|].
        split; [rewrite LR, Ln; reflexivity|]. split; [reflexivity|].
        split; [discriminate|]. split; [intros _; cbn; lia|].
        intros Qn. apply (separators_ok_over Ho);
          [lia|exact Qn|reflexivity|].
        apply bytes_Equal_refl.
  - (* an inner node *)
    destruct (search_tree_children Tn Hleaf)
      as (l & r & Hn & Tl & Tr & Lt & Ge & Hb & Hsz & Lnr).
    pose proof Hn as (_ & El & Er & Hhn & Hsn).
    destruct (search_tree_facts Tl) as (Pl & Sl & _).
    destruct (search_tree_facts Tr) as (Pr & Sr & _).
    destruct (copy_inner_Ok _ Hleaf) as (c & Hc & Kc & Lc & Rc & Hhc & Hpc).
    destruct (@copy_Ok _ _ Hc) as (_ & _ & _ & _ & Hch & Hcs & _).
    rewrite El in Lc. rewrite Er in Rc.
    rewrite depth_unfold, El, Er in Hd.
    rewrite bindM_step with (a := c) (s' := t)
      by (unfold lift; rewrite Hc; reflexivity).
    rewrite Kc, Lnr.
    destruct (bytes_Compare k (key n) <? 0) eqn:Hlt.
    + (* into the left subtree *)
      rewrite bindM_step with (a := l) (s' := t)
        by (unfold rd, lift, getLeftNode; rewrite Lc; reflexivity).
      destruct (IH l k v t Tl) as (l' & u & o & t1 & Hset & Tl' & Ll' & Hu & Hut & Huf & Hsep);
        [lia|lia|lia|].
      rewrite bindM_step with (1 := Hset). cbv beta iota.
      destruct (search_tree_facts Tl') as (Pl' & Sl' & _).
      assert (Lt' : all_below (leaves l') (key n)).
      { rewrite Ll'. apply all_below_ins; [exact Hlt|exact Lt]. }
      rewrite (@ins_app_left k v (key n) (leaves l) (leaves r) Hlt Ge), lookup_app,
        <- Ll'.
      rewrite (@lookup_below k (key n) (leaves r) Hlt Ge).
      assert (Hu' : u = is_some (match lookup k (leaves l) with
                                 | Some x => Some x
                                 | None => None
                                 end))
        by (rewrite Hu; destruct (lookup k (leaves l)); reflexivity).
      destruct u.
      * destruct (Hut eq_refl) as [Hh' Hs'].
        assert (Ho : inner_over (with_left None (Some l') c) (key n) l' r).
        { unfold inner_over. cbn. rewrite Kc, Rc, Hch, Hcs, Hh', Hs'.
          repeat split; assumption. }
        destruct (search_tree_inner_over Ho Tl' Tr Lt' Ge) as [TR LR];
          [lia|lia|].
        exists (with_left None (Some l') c), true, o, t1.
        split; [reflexivity|]. split; [exact TR|]. split; [exact LR|].
        split; [exact Hu'|]. split; [intros _; cbn; lia|].
        split; [discriminate|]. intros Qn.
        destruct (separators_ok_children Hn Pl Qn) as (Ql & Qr & Qk).
        apply (separators_ok_over Ho Pl' (Hsep Ql) Qr Qk).
      * destruct (Huf eq_refl) as [Hh' Hs'].
        destruct (@calcHeightAndSize_exact t1 (with_left None (Some l') c) l' r)
          as (m' & Hm' & Om' & _ & Hpm');
          [reflexivity|exact Rc|lia|unfold is_int; lia|].
        cbn in Om', Hpm'. rewrite Kc in Om'. rewrite Hpc in Hpm'.
        rewrite bindM_step with (a := m') (s' := t1)
          by (unfold rd, lift; rewrite Hm'; reflexivity).
        destruct (@balance_on_search_trees_sep m' (key n) l' r t1)
          as (R & t' & HR & TR & LR & Hsame & HhR & HsepR);
          try assumption; try lia.
        rewrite bindM_step with (1 := HR).
        exists R, false, o, t'.
        split; [reflexivity|]. split; [exact TR|]. split; [exact LR|].
        split; [exact Hu'|]. split; [discriminate|].
        split.
        { intros _. destruct Om' as (_ & _ & _ & Hhm' & Hsm').
          rewrite (search_tree_size_app TR Tl' Tr LR).
          split; [|lia].
          destruct (Z_le_gt_dec (Z.abs (height l' - height r)) 1) as [Hle|Hgt].
          - rewrite (Hsame Hle). lia.
          - lia. }
        intros Qn.
        destruct (separators_ok_children Hn Pl Qn) as (Ql & Qr & Qk).
        apply (HsepR (Hsep Ql) Qr Qk).
    + (* into the right subtree *)
      pose proof (klt_false_kle _ _ Hlt) as Hge.
      rewrite bindM_step with (a := r) (s' := t)
        by (unfold rd, lift, getRightNode; rewrite Rc; reflexivity).
      destruct (IH r k v t Tr) as (r' & u & o & t1 & Hset & Tr' & Lr' & Hu & Hut & Huf & Hsep);
        [lia|lia|lia|].
      rewrite bindM_step with (1 := Hset). cbv beta iota.
      destruct (search_tree_facts Tr') as (Pr' & Sr'' & _).
      assert (Ge' : none_below (key n) (leaves r')).
      { rewrite Lr'. apply none_below_ins; [exact Hge|exact Ge]. }
      rewrite (@ins_app_right k v (key n) (leaves l) (leaves r) Lt Hge), lookup_app,
        <- Lr'.
      rewrite (@lookup_above k (key n) (leaves l) Lt Hge).
      destruct u.
      * destruct (Hut eq_refl) as [Hh' Hs'].
        assert (Ho : inner_over (with_right None (Some r') c) (key n) l r').
        { unfold inner_over. cbn. rewrite Kc, Lc, Hch, Hcs, Hh', Hs'.
          repeat split; assumption. }
        destruct (search_tree_inner_over Ho Tl Tr' Lt Ge') as [TR LR];
          [lia|lia|].
        exists (with_right None (Some r') c), true, o, t1.
        split; [reflexivity|]. split; [exact TR|]. split; [exact LR|].
        split; [exact Hu|]. split; [intros _; cbn; lia|].
        split; [discriminate|]. intros Qn.
        destruct (separators_ok_children Hn Pl Qn) as (Ql & Qr & Qk).
        apply (separators_ok_over Ho Pl Ql (Hsep Qr)).
        apply (@leftmost_after_ins r r' k v (key n) (proj2 (proj2 Tr))
                 (proj2 (proj2 Tr')) Lr' Hge Qk).
      * destruct (Huf eq_refl) as [Hh' Hs'].
        destruct (@calcHeightAndSize_exact t1 (with_right None (Some r') c) l r')
          as (m' & Hm' & Om' & _ & Hpm');
          [exact Lc|reflexivity|lia|unfold is_int; lia|].
        cbn in Om', Hpm'. rewrite Kc in Om'. rewrite Hpc in Hpm'.
        rewrite bindM_step with (a := m') (s' := t1)
          by (unfold rd, lift; rewrite Hm'; reflexivity).
        destruct (@balance_on_search_trees_sep m' (key n) l r' t1)
          as (R & t' & HR & TR & LR & Hsame & HhR & HsepR);
          try assumption; try lia.
        rewrite bindM_step with (1 := HR).
        exists R, false, o, t'.
        split; [reflexivity|]. split; [exact TR|]. split; [exact LR|].
        split; [exact Hu|]. split; [discriminate|].
        split.
        { intros _. destruct Om' as (_ & _ & _ & Hhm' & Hsm').
          rewrite (search_tree_size_app TR Tl Tr' LR).
          split; [|lia].
          destruct (Z_le_gt_dec (Z.abs (height l - height r')) 1) as [Hle|Hgt].
          - rewrite (Hsame Hle). lia.
          - lia. }
        intros Qn.
        destruct (separators_ok_children Hn Pl Qn) as (Ql & Qr & Qk).
        apply (HsepR Ql (Hsep Qr)).
        apply (@leftmost_after_ins r r' k v (key n) (proj2 (proj2 Tr))
                 (proj2 (proj2 Tr')) Lr' Hge Qk).
Qed.

Lemma set_on_search_tree fuel :
  forall n k v t,
    search_tree n -> height n <= 126 -> size n < 2 ^ 63 - 1 ->
    (depth n <= fuel)%nat ->
    exists r u o t',
      set fuel n k v t = Ok (r, u, o, t') /\
      search_tree r /\ leaves r = ins k v (leaves n) /\
      u = is_some (lookup k (leaves n)) /\
      (u = true -> height r = height n /\ size r = size n) /\
      (u = false ->
       height n <= height r <= height n + 1 /\ size r = size n + 1).
Proof.
  intros n k v t Tn Hh Hs Hd.
  destruct (@set_on_search_tree_sep fuel n k v t Tn Hh Hs Hd)
    as (r & u & o & t' & Hset & Tr & Lr & Hu & Hut & Huf & _).
  exists r, u, o, t'. split; [exact Hset|]. split; [exact Tr|].
  split; [exact Lr|]. split; [exact Hu|]. split; [exact Hut|exact Huf].
Qed.

(** ** The height of a search tree *)

Lemma balanced_sized_height n :
  balanced n = true -> sized n = true -> 2 ^ (height n / 2) <= size n.
Proof.
  induction n as [n IHl IHr] using IAVLNode_tree_ind.
  intros Hb Hs. destruct (isLeaf n) eqn:Hleaf.
  - rewrite (sized_leaf _ Hs Hleaf).
    rewrite (proj1 (isLeaf_height n) Hleaf). reflexivity.
  - destruct (sized_inner _ Hs Hleaf) as (l & r & El & Er & Sl & Sr & Hsz & _).
    destruct (balanced_inner _ Hb Hleaf El Er) as (Bl & Br & Hh & Hd).
    pose proof (IHl l El Bl Sl) as Hl. pose proof (IHr r Er Br Sr) as Hr.
    pose proof (balanced_height _ Bl) as Pl.
    pose proof (balanced_height _ Br) as Pr.
    pose proof (sized_positive _ Sl) as Ql.
    pose proof (sized_positive _ Sr) as Qr.
    rewrite Hsz.
    destruct (Z_le_gt_dec 2 (height n)) as [H2|H2].
    + assert (Al : 0 <= height n / 2 - 1 <= height l / 2)
        by (Z.to_euclidean_division_equations; lia).
      assert (Ar : 0 <= height n / 2 - 1 <= height r / 2)
        by (Z.to_euclidean_division_equations; lia).
      pose proof (Z.pow_le_mono_r 2 _ _ ltac:(lia) (proj2 Al)) as Ml.
      pose proof (Z.pow_le_mono_r 2 _ _ ltac:(lia) (proj2 Ar)) as Mr.
      replace (height n / 2) with (Z.succ (height n / 2 - 1)) by lia.
      rewrite Z.pow_succ_r by lia. lia.
    + replace (height n / 2) with 0
        by (Z.to_euclidean_division_equations; lia).
      change (2 ^ 0) with 1. lia.
Qed.

Lemma search_tree_height_le n : search_tree n -> height n <= 125.
Proof.
  intros (_ & Bn & Sn).
  pose proof (balanced_sized_height _ Bn Sn) as H.
  pose proof (sized_positive _ Sn) as P.
  pose proof (balanced_height _ Bn) as Q.
  destruct (Z_le_gt_dec (height n) 125) as [Hle|Hgt]; [exact Hle|].
  assert (A : 63 <= height n / 2) by (Z.to_euclidean_division_equations; lia).
  pose proof (Z.pow_le_mono_r 2 _ _ ltac:(lia) A). lia.
Qed.

(** ** Looking up after an insertion into a list of leaves *)

Lemma lookup_ins_same k k' v ls :
  bytes_Equal k k' = true ->
  lookup k' (ins k v ls) = Some (NewIAVLNode k v).
Proof.
  intros E. induction ls as [|x rest IH]; cbn [ins].
  - cbn [lookup]. cbn [key NewIAVLNode]. rewrite E. reflexivity.
  - destruct (klt k (key x)) eqn:Hlt.
    + cbn [lookup]. cbn [key NewIAVLNode]. rewrite E. reflexivity.
    + destruct (bytes_Equal k (key x)) eqn:Heq.
      * cbn [lookup]. cbn [key NewIAVLNode]. rewrite E. reflexivity.
      * cbn [lookup]. rewrite bytes_Equal_sym, <- (bytes_Equal_trans_l _ _ _ E).
        rewrite Heq. exact IH.
Qed.

Lemma lookup_ins_other k k' v ls :
  bytes_Equal k k' = false ->
  lookup k' (ins k v ls) = lookup k' ls.
Proof.
  intros E. induction ls as [|x rest IH]; cbn [ins].
  - cbn [lookup]. cbn [key NewIAVLNode]. rewrite E. reflexivity.
  - destruct (klt k (key x)) eqn:Hlt.
    + cbn [lookup]. cbn [key NewIAVLNode]. rewrite E. reflexivity.
    + destruct (bytes_Equal k (key x)) eqn:Heq.
      * cbn [lookup]. cbn [key NewIAVLNode]. rewrite E.
        rewrite bytes_Equal_sym in Heq.
        rewrite (bytes_Equal_trans_l _ _ k' Heq), E. reflexivity.
      * cbn [lookup]. rewrite IH. reflexivity.
Qed.

Lemma rank_cons k x (ls : list IAVLNode) :
  rank k (x :: ls) = (if klt (key x) k then 1 else 0) + rank k ls.
Proof.
  unfold rank, len_leaves. cbn [filter].
  destruct (klt (key x) k); cbn [List.length]; lia.
Qed.

Lemma rank_ins_same k k' v ls :
  bytes_Equal k k' = true -> rank k' (ins k v ls) = rank k' ls.
Proof.
  intros E.
  assert (Hk : klt k k' = false).
  { rewrite <- (bytes_Equal_klt_l _ _ k' (eq_trans (bytes_Equal_sym k' k) E)).
    apply klt_irrefl. }
  induction ls as [|x rest IH]; cbn [ins].
  - rewrite rank_cons. cbn [key NewIAVLNode]. rewrite Hk. reflexivity.
  - destruct (klt k (key x)) eqn:Hlt.
    + rewrite rank_cons. cbn [key NewIAVLNode]. rewrite Hk. reflexivity.
    + destruct (bytes_Equal k (key x)) eqn:Heq.
      * rewrite !rank_cons. cbn [key NewIAVLNode]. rewrite Hk.
        rewrite bytes_Equal_sym in Heq.
        rewrite (bytes_Equal_klt_l _ _ k' Heq), Hk. reflexivity.
      * rewrite !rank_cons, IH. reflexivity.
Qed.

(** X13.  On a search tree (keys in order, heights exact and in AVL
    balance, sizes counting the leaves) with fewer than 2^63 - 1 leaves,
    [set] returns without panic, and the node it returns is a search tree
    again.  Its height is the old height or one more, and its size is the
    old size when the key was there ([updated]) and one more when it was
    not. *)
Theorem set_keeps_the_search_tree :
  forall fuel node k v t,
    search_tree node -> size node < 2 ^ 63 - 1 -> (depth node <= fuel)%nat ->
    exists newSelf updated orphaned t',
      set fuel node k v t = Ok (newSelf, updated, orphaned, t') /\
      search_tree newSelf /\
      height node <= height newSelf <= height node + 1 /\
      size newSelf = size node + (if updated then 0 else 1).
Proof.
  intros fuel node k v t Tn Hs Hd.
  pose proof (search_tree_height_le Tn) as Hh.
  destruct (@set_on_search_tree fuel node k v t Tn)
    as (r & u & o & t' & Hset & Tr & _ & _ & Hut & Huf); [lia|exact Hs|exact Hd|].
  exists r, u, o, t'. split; [exact Hset|]. split; [exact Tr|].
  destruct u.
  - destruct (Hut eq_refl) as [H1 H2]. lia.
  - destruct (Huf eq_refl) as [H1 H2]. lia.
Qed.

Lemma set_keeps_the_search_tree_witness :
  exists newSelf updated orphaned t',
    set 3 S3_tree (bs "bb") (bs "9") stub
    = Ok (newSelf, updated, orphaned, t') /\
    search_tree newSelf /\
    height S3_tree <= height newSelf <= height S3_tree + 1 /\
    size newSelf = size S3_tree + (if updated then 0 else 1).
Proof.
  apply set_keeps_the_search_tree.
  - unfold search_tree. repeat split; reflexivity.
  - reflexivity.
  - simpl. lia.
Defined.

(** X14.  On such a tree the leaves of the node that [set] returns are,
    from left to right, the old leaves with a new leaf for the key and the
    value put in at the place of the key: before the first leaf with a
    greater key, or instead of the leaf with the same key.  [updated] tells
    whether a leaf with the key was there. *)
Theorem set_inserts_into_the_leaves :
  forall fuel node k v t,
    search_tree node -> size node < 2 ^ 63 - 1 -> (depth node <= fuel)%nat ->
    exists newSelf updated orphaned t',
      set fuel node k v t = Ok (newSelf, updated, orphaned, t') /\
      leaves newSelf = ins k v (leaves node) /\
      updated = is_some (lookup k (leaves node)).
Proof.
  intros fuel node k v t Tn Hs Hd.
  pose proof (search_tree_height_le Tn) as Hh.
  destruct (@set_on_search_tree fuel node k v t Tn)
    as (r & u & o & t' & Hset & _ & Lr & Hu & _); [lia|exact Hs|exact Hd|].
  exists r, u, o, t'. split; [exact Hset|]. split; [exact Lr|exact Hu].
Qed.

Lemma set_inserts_into_the_leaves_witness :
  exists newSelf updated orphaned t',
    set 3 S3_tree (bs "bb") (bs "9") stub
    = Ok (newSelf, updated, orphaned, t') /\
    leaves newSelf = ins (bs "bb") (bs "9") (leaves S3_tree) /\
    updated = is_some (lookup (bs "bb") (leaves S3_tree)).
Proof.
  apply set_inserts_into_the_leaves.
  - unfold search_tree. repeat split; reflexivity.
  - reflexivity.
  - simpl. lia.
Defined.

(** X15.  On such a tree, [get] on the node that [set] returns finds the
    key that was set, with the value that was set and at the index that
    [get] gave for the key before; for a key with other bytes it gives the
    value and the answer that [get] gave on the old node. *)
Theorem get_after_set :
  forall fuel node k v t,
    search_tree node -> size node < 2 ^ 63 - 1 -> (depth node <= fuel)%nat ->
    exists newSelf updated orphaned t',
      set fuel node k v t = Ok (newSelf, updated, orphaned, t') /\
      forall fuel' t2 k',
        (depth newSelf <= fuel')%nat ->
        exists index index' val found,
          get fuel t node k' = Ok (index', val, found) /\
          get fuel' t2 newSelf k'
          = Ok (index, (if bytes_Equal k k' then v else val),
                bytes_Equal k k' || found) /\
          (bytes_Equal k k' = true -> index = index').
Proof.
  intros fuel node k v t Tn Hs Hd.
  pose proof (search_tree_height_le Tn) as Hh.
  destruct (@set_on_search_tree fuel node k v t Tn)
    as (r & u & o & t' & Hset & Tr & Lr & _); [lia|exact Hs|exact Hd|].
  exists r, u, o, t'. split; [exact Hset|].
  intros fuel' t2 k' Hd'.
  destruct Tn as (On & _ & Sn). destruct Tr as (Or & _ & Sr).
  rewrite (@get_on_ordered fuel t node k' On Sn Hd).
  rewrite (@get_on_ordered fuel' t2 r k' Or Sr Hd'), Lr.
  exists (rank k' (ins k v (leaves node))), (rank k' (leaves node)),
    (found_value (lookup k' (leaves node))),
    (is_some (lookup k' (leaves node))).
  split; [reflexivity|].
  destruct (bytes_Equal k k') eqn:E.
  - rewrite (@lookup_ins_same k k' v (leaves node) E).
    rewrite (@rank_ins_same k k' v (leaves node) E).
    split; [reflexivity|]. intros _. reflexivity.
  - rewrite (@lookup_ins_other k k' v (leaves node) E).
    split; [reflexivity|discriminate].
Qed.

Lemma get_after_set_witness :
  exists newSelf updated orphaned t',
    set 3 S3_tree (bs "bb") (bs "9") stub
    = Ok (newSelf, updated, orphaned, t') /\
    forall fuel' t2 k',
      (depth newSelf <= fuel')%nat ->
      exists index index' val found,
        get 3 stub S3_tree k' = Ok (index', val, found) /\
        get fuel' t2 newSelf k'
        = Ok (index, (if bytes_Equal (bs "bb") k' then bs "9" else val),
              bytes_Equal (bs "bb") k' || found) /\
        (bytes_Equal (bs "bb") k' = true -> index = index').
Proof.
  apply get_after_set.
  - unfold search_tree. repeat split; reflexivity.
  - reflexivity.
  - simpl. lia.
Defined.

(** ** Removal from a list of leaves *)

Lemma option_same {A} (o : option A) :
  match o with Some x => Some x | None => None end = o.
Proof. destruct o; reflexivity. Qed.

Lemma in_del k ls x : In x (del k ls) -> In x ls.
Proof.
  induction ls as [|y rest IH]; cbn [del]; [intros []|].
  destruct (bytes_Equal k (key y)).
  - intros H. right. exact H.
  - intros [<-|H]; [left; reflexivity|right; apply IH; exact H].
Qed.

Lemma del_absent k ls : lookup k ls = None -> del k ls = ls.
Proof.
  induction ls as [|y rest IH]; [reflexivity|]. cbn [lookup del].
  rewrite (bytes_Equal_sym k (key y)).
  destruct (bytes_Equal (key y) k); [discriminate|].
  intros H. rewrite (IH H). reflexivity.
Qed.

Lemma del_app_left k s a b :
  klt k s = true -> none_below s b -> del k (a ++ b) = del k a ++ b.
Proof.
  intros Hk Hb. induction a as [|x rest IH].
  - cbn [app del]. apply del_absent. apply (lookup_below _ Hk Hb).
  - cbn [app del]. destruct (bytes_Equal k (key x)); [reflexivity|].
    rewrite IH. reflexivity.
Qed.

Lemma del_app_right k s a b :
  all_below a s -> kle s k = true -> del k (a ++ b) = a ++ del k b.
Proof.
  intros Ha Hk. induction a as [|x rest IH]; [reflexivity|].
  cbn [app del].
  assert (Hx : klt (key x) k = true).
  { apply (klt_trans _ s); [apply Ha; left; reflexivity|exact Hk]. }
  rewrite bytes_Equal_sym, (klt_irrefl_equal _ _ Hx).
  rewrite IH; [reflexivity|].
  intros y Hy. apply Ha. right. exact Hy.
Qed.

Lemma length_del k ls :
  len_leaves (del k ls)
  = len_leaves ls - (if is_some (lookup k ls) then 1 else 0).
Proof.
  unfold len_leaves. induction ls as [|y rest IH]; [reflexivity|].
  cbn [lookup del]. rewrite (bytes_Equal_sym k (key y)).
  destruct (bytes_Equal (key y) k).
  - cbn [is_some List.length]. lia.
  - cbn [List.length]. rewrite !Nat2Z.inj_succ, IH. lia.
Qed.

(** ** [remove] on a search tree *)

Lemma klt_nil a s : is_nil s = true -> klt a s = false.
Proof.
  destruct s as [b|]; [discriminate|]. intros _.
  unfold klt, bytes_Compare. cbn [slice_data].
  destruct (slice_data a); reflexivity.
Qed.

Lemma leftmost_of_app R l r :
  sized R = true -> sized l = true ->
  leaves R = leaves l ++ leaves r -> leftmost R = leftmost l.
Proof.
  intros SR Sl H.
  destruct (leftmost_hd _ SR) as (rest & LR).
  destruct (leftmost_hd _ Sl) as (rest' & Ll).
  rewrite LR, Ll in H. cbn [app] in H. injection H as -> _. reflexivity.
Qed.

Lemma remove_on_search_tree_sep fuel :
  forall n k t,
    search_tree n -> (depth n <= fuel)%nat ->
    exists h nn nk val rem t',
      remove fuel n k t = Ok (h, nn, nk, val, rem, t') /\
      rem = is_some (lookup k (leaves n)) /\
      (rem = true ->
       val = found_value (lookup k (leaves n)) /\
       match nn with
       | None => h = None /\ isLeaf n = true
       | Some r =>
           search_tree r /\ leaves r = del k (leaves n) /\
           height n - 1 <= height r <= height n /\
           (is_nil nk = false ->
            klt k nk = true /\ none_below nk (leaves r)) /\
           (separators_ok n = true ->
            separators_ok r = true /\
            (is_nil nk = false ->
             bytes_Equal nk (key (leftmost r)) = true) /\
            (is_nil nk = true ->
             bytes_Equal (key (leftmost r)) (key (leftmost n)) = true))
       end).
Proof.
  induction fuel as [|fuel IH]; intros n k t Tn Hd.
  { rewrite depth_unfold in Hd. lia. }
  cbn [remove]. destruct (isLeaf n) eqn:Hleaf.
  - (* a leaf *)
    assert (Ln : leaves n = [n]) by (rewrite leaves_unfold, Hleaf; reflexivity).
    rewrite Ln. cbn [lookup del]. rewrite (bytes_Equal_sym (key n) k).
    destruct (bytes_Equal k (key n)) eqn:E.
    + destruct (removeOrphan_returns n t) as (t1 & Ho).
      rewrite bindM_step with (1 := Ho).
      exists None, None, None, (value n), true, t1.
      split; [reflexivity|]. split; [reflexivity|]. intros _.
      split; [reflexivity|]. split; reflexivity.
    + exists (hash n), (Some n), None, None, false, t.
      split; [reflexivity|]. split; [reflexivity|discriminate].
  - (* an inner node *)
    destruct (search_tree_children Tn Hleaf)
      as (l & r & Hn & Tl & Tr & Lt & Ge & Hb & Hsz & Lnr).
    pose proof Hn as (_ & El & Er & Hhn & Hsn).
    destruct (search_tree_facts Tl) as (Pl & Sl & (l0 & lrest & Ll0)).
    destruct (search_tree_facts Tr) as (Pr & Sr & (r0 & rrest & Lr0)).
    pose proof (search_tree_height_le Tl) as Hl125.
    pose proof (search_tree_height_le Tr) as Hr125.
    rewrite depth_unfold, El, Er in Hd.
    rewrite Lnr, lookup_app.
    destruct (bytes_Compare k (key n) <? 0) eqn:Hlt.
    + (* in the left subtree *)
      rewrite bindM_step with (a := l) (s' := t)
        by (unfold rd, lift, getLeftNode; rewrite El; reflexivity).
      destruct (IH l k t Tl) as (h1 & nn1 & nk1 & val1 & rem1 & t1 & Hrem & Hr & Hsucc);
        [lia|].
      rewrite bindM_step with (1 := Hrem). cbv beta iota.
      rewrite (@lookup_below k (key n) (leaves r) Hlt Ge), option_same.
      rewrite (@del_app_left k (key n) (leaves l) (leaves r) Hlt Ge).
      destruct rem1; cbn [negb].
      * destruct (Hsucc eq_refl) as (Hval & Hnn). destruct nn1 as [l'|].
        -- destruct Hnn as (Tl' & Ll' & Hh' & Hnk & Hsepl).
           replace (is_nil h1 && negb (is_some (Some l'))) with false
             by (cbn [is_some negb]; rewrite andb_false_r; reflexivity).
           destruct (search_tree_facts Tl') as (Pl' & Sl' & (x' & xrest & Lx')).
           assert (Hsl' : size l' <= size l).
           { pose proof Tl' as (_ & _ & S1). pose proof Tl as (_ & _ & S2).
             rewrite (sized_counts_leaves _ S1), (sized_counts_leaves _ S2), Ll'.
             rewrite length_del. destruct (is_some _); lia. }
           assert (Lt' : all_below (leaves l') (key n)).
           { intros x Hx. apply Lt. rewrite Ll' in Hx. apply (in_del _ _ _ Hx). }
           destruct (removeOrphan_returns n t1) as (t2 & Ho).
           rewrite bindM_step with (1 := Ho).
           destruct (copy_inner_Ok _ Hleaf) as (c & Hc & Kc & Lc & Rc & Hhc & Hpc).
           rewrite El in Lc. rewrite Er in Rc.
           rewrite bindM_step with (a := c) (s' := t2)
             by (unfold lift; rewrite Hc; reflexivity).
           destruct (@calcHeightAndSize_exact t2 (with_left h1 (Some l') c) l' r)
             as (m' & Hm' & Om' & _ & Hpm');
             [reflexivity|exact Rc|lia|unfold is_int; lia|].
           cbn in Om', Hpm'. rewrite Kc in Om'. rewrite Hpc in Hpm'.
           rewrite bindM_step with (a := m') (s' := t2)
             by (unfold rd, lift; rewrite Hm'; reflexivity).
           destruct (@balance_on_search_trees_sep m' (key n) l' r t2)
             as (R & t' & HR & TR & LR & Hsame & HhR & HsepR);
             try assumption; try lia.
           rewrite bindM_step with (1 := HR).
           exists (hash R), (Some R), nk1, val1, true, t'.
           split; [reflexivity|]. split; [exact Hr|]. intros _.
           split; [exact Hval|]. split; [exact TR|].
           split; [rewrite LR, Ll'; reflexivity|].
           destruct Om' as (_ & _ & _ & Hhm' & _).
           split.
           { destruct (Z_le_gt_dec (Z.abs (height l' - height r)) 1) as [Hle|Hgt].
             - rewrite (Hsame Hle). lia.
             - lia. }
           split.
           { intros Hnil. destruct (Hnk Hnil) as (Hk1 & Hk2).
             split; [exact Hk1|]. rewrite LR. apply none_below_app.
             split; [exact Hk2|].
             assert (Hx' : In x' (leaves l'))
               by (rewrite Lx'; left; reflexivity).
             intros y Hy. apply klt_kle.
             apply (klt_trans _ (key n)); [|apply Ge; exact Hy].
             apply (kle_klt_trans _ (key x')); [apply Hk2|apply Lt']; exact Hx'. }
           intros Qn.
           destruct (separators_ok_children Hn Pl Qn) as (Ql & Qr & Qk).
           destruct (Hsepl Ql) as (Ql' & Qnk1 & Qnk2).
           split; [apply (HsepR Ql' Qr Qk)|].
           rewrite (@leftmost_of_app R l' r (proj2 (proj2 TR))
                      (proj2 (proj2 Tl')) LR).
           rewrite (leftmost_over Hn Pl).
           split; [exact Qnk1|exact Qnk2].
        -- destruct Hnn as (-> & Hlleaf). cbn [is_nil is_some negb andb].
           assert (Ll : leaves l = [l])
             by (rewrite leaves_unfold, Hlleaf; reflexivity).
           rewrite Ll in Hr, Hval |- *. cbn [lookup] in Hr, Hval |- *. cbn [del].
           rewrite (bytes_Equal_sym k (key l)).
           destruct (bytes_Equal (key l) k); [|discriminate].
           exists (rightHash n), (rightNode n), (key n), val1, true, t1.
           split; [reflexivity|]. split; [reflexivity|]. intros _.
           split; [exact Hval|]. rewrite Er.
           split; [exact Tr|]. split; [reflexivity|].
           apply isLeaf_height in Hlleaf.
           split; [lia|]. split; [intros _; split; [exact Hlt|exact Ge]|].
           intros Qn.
           destruct (separators_ok_children Hn Pl Qn) as (Ql & Qr & Qk).
           split; [exact Qr|]. split; [intros _; exact Qk|].
           intros Hnil. pose proof (klt_nil k _ Hnil) as F.
           unfold klt in F. congruence.
      * exists (hash n), (Some n), None, val1, false, t1.
        split; [reflexivity|]. split; [exact Hr|discriminate].
    + (* in the right subtree *)
      pose proof (klt_false_kle _ _ Hlt) as Hge.
      rewrite bindM_step with (a := r) (s' := t)
        by (unfold rd, lift, getRightNode; rewrite Er; reflexivity).
      destruct (IH r k t Tr) as (h1 & nn1 & nk1 & val1 & rem1 & t1 & Hrem & Hr & Hsucc);
        [lia|].
      rewrite bindM_step with (1 := Hrem). cbv beta iota.
      rewrite (@lookup_above k (key n) (leaves l) Lt Hge).
      rewrite (@del_app_right k (key n) (leaves l) (leaves r) Lt Hge).
      destruct rem1; cbn [negb].
      * destruct (Hsucc eq_refl) as (Hval & Hnn). destruct nn1 as [r'|].
        -- destruct Hnn as (Tr' & Lr' & Hh' & Hnk & Hsepr).
           replace (is_nil h1 && negb (is_some (Some r'))) with false
             by (cbn [is_some negb]; rewrite andb_false_r; reflexivity).
           destruct (search_tree_facts Tr') as (Pr' & Sr' & _).
           assert (Hsr' : size r' <= size r).
           { pose proof Tr' as (_ & _ & S1). pose proof Tr as (_ & _ & S2).
             rewrite (sized_counts_leaves _ S1), (sized_counts_leaves _ S2), Lr'.
             rewrite length_del. destruct (is_some _); lia. }
           assert (Ge' : none_below (key n) (leaves r')).
           { intros x Hx. apply Ge. rewrite Lr' in Hx. apply (in_del _ _ _ Hx). }
           destruct (removeOrphan_returns n t1) as (t2 & Ho).
           rewrite bindM_step with (1 := Ho).
           destruct (copy_inner_Ok _ Hleaf) as (c & Hc & Kc & Lc & Rc & Hhc & Hpc).
           rewrite El in Lc. rewrite Er in Rc.
           rewrite bindM_step with (a := c) (s' := t2)
             by (unfold lift; rewrite Hc; reflexivity).
           cbv zeta.
           assert (Hnew : exists m0 k0,
                     (if negb (is_nil nk1)
                      then with_key nk1 (with_right h1 (Some r') c)
                      else with_right h1 (Some r') c) = m0 /\
                     key m0 = k0 /\ leftNode m0 = Some l /\
                     rightNode m0 = Some r' /\ persisted m0 = false /\
                     all_below (leaves l) k0 /\ none_below k0 (leaves r') /\
                     (separators_ok n = true ->
                      bytes_Equal k0 (key (leftmost r')) = true)).
           { destruct (is_nil nk1) eqn:Hnil; cbn [negb].
             - exists (with_right h1 (Some r') c), (key n).
               split; [reflexivity|]. cbn. rewrite Kc.
               split; [reflexivity|]. split; [exact Lc|].
               split; [reflexivity|]. split; [exact Hpc|].
               split; [exact Lt|]. split; [exact Ge'|].
               intros Qn.
               destruct (separators_ok_children Hn Pl Qn) as (_ & Qr & Qk).
               destruct (Hsepr Qr) as (_ & _ & Qnk2).
               rewrite bytes_Equal_sym.
               rewrite (bytes_Equal_trans_l _ _ (key n) (Qnk2 eq_refl)).
               rewrite bytes_Equal_sym. exact Qk.
             - destruct (Hnk eq_refl) as (Hk1 & Hk2).
               exists (with_key nk1 (with_right h1 (Some r') c)), nk1.
               split; [reflexivity|]. cbn.
               split; [reflexivity|]. split; [exact Lc|].
               split; [reflexivity|]. split; [exact Hpc|].
               split.
               { intros x Hx.
                 apply (klt_trans _ k); [|apply klt_kle; exact Hk1].
                 apply (klt_trans _ (key n)); [apply Lt; exact Hx|exact Hge]. }
               split; [exact Hk2|].
               intros Qn.
               destruct (separators_ok_children Hn Pl Qn) as (_ & Qr & _).
               destruct (Hsepr Qr) as (_ & Qnk1 & _).
               apply Qnk1. reflexivity. }
           destruct Hnew as (m0 & k0 & -> & Km0 & Lm0 & Rm0 & Pm0 & Lt0 & Ge0 & Hk0).
           destruct (@calcHeightAndSize_exact t2 m0 l r')
             as (m' & Hm' & Om' & _ & Hpm');
             [exact Lm0|exact Rm0|lia|unfold is_int; lia|].
           rewrite Km0 in Om'. rewrite Pm0 in Hpm'.
           rewrite bindM_step with (a := m') (s' := t2)
             by (unfold rd, lift; rewrite Hm'; reflexivity).
           destruct (@balance_on_search_trees_sep m' k0 l r' t2)
             as (R & t' & HR & TR & LR & Hsame & HhR & HsepR);
             try assumption; try lia.
           rewrite bindM_step with (1 := HR).
           exists (hash R), (Some R), None, val1, true, t'.
           split; [reflexivity|]. split; [exact Hr|]. intros _.
           split; [exact Hval|]. split; [exact TR|].
           split; [rewrite LR, Lr'; reflexivity|].
           destruct Om' as (_ & _ & _ & Hhm' & _).
           split.
           { destruct (Z_le_gt_dec (Z.abs (height l - height r')) 1)
               as [Hle|Hgt].
             - rewrite (Hsame Hle). lia.
             - lia. }
           split; [discriminate|].
           intros Qn.
           destruct (separators_ok_children Hn Pl Qn) as (Ql & Qr & Qk).
           split; [apply (HsepR Ql (proj1 (Hsepr Qr)) (Hk0 Qn))|].
           split; [discriminate|]. intros _.
           rewrite (@leftmost_of_app R l r' (proj2 (proj2 TR))
                      (proj2 (proj2 Tl)) LR).
           rewrite (leftmost_over Hn Pl). apply bytes_Equal_refl.
        -- destruct Hnn as (-> & Hrleaf). cbn [is_nil is_some negb andb].
           assert (Lr : leaves r = [r])
             by (rewrite leaves_unfold, Hrleaf; reflexivity).
           rewrite Lr in Hr, Hval |- *. cbn [lookup] in Hr, Hval |- *. cbn [del].
           rewrite (bytes_Equal_sym k (key r)).
           destruct (bytes_Equal (key r) k); [|discriminate].
           exists (leftHash n), (leftNode n), None, val1, true, t1.
           split; [reflexivity|]. split; [reflexivity|]. intros _.
           split; [exact Hval|]. rewrite El.
           split; [exact Tl|]. split; [rewrite app_nil_r; reflexivity|].
           apply isLeaf_height in Hrleaf.
           split; [lia|]. split; [discriminate|].
           intros Qn.
           destruct (separators_ok_children Hn Pl Qn) as (Ql & _ & _).
           split; [exact Ql|]. split; [discriminate|]. intros _.
           rewrite (leftmost_over Hn Pl). apply bytes_Equal_refl.
      * exists (hash n), (Some n), None, val1, false, t1.
        split; [reflexivity|]. split; [exact Hr|discriminate].
Qed.

Lemma remove_on_search_tree fuel :
  forall n k t,
    search_tree n -> (depth n <= fuel)%nat ->
    exists h nn nk val rem t',
      remove fuel n k t = Ok (h, nn, nk, val, rem, t') /\
      rem = is_some (lookup k (leaves n)) /\
      (rem = true ->
       val = found_value (lookup k (leaves n)) /\
       match nn with
       | None => h = None /\ isLeaf n = true
       | Some r =>
           search_tree r /\ leaves r = del k (leaves n) /\
           height n - 1 <= height r <= height n /\
           (is_nil nk = false ->
            klt k nk = true /\ none_below nk (leaves r))
       end).
Proof.
  intros n k t Tn Hd.
  destruct (@remove_on_search_tree_sep fuel n k t Tn Hd)
    as (h & nn & nk & val & rem & t' & Hrem & Hr & Hsucc).
  exists h, nn, nk, val, rem, t'. split; [exact Hrem|]. split; [exact Hr|].
  intros E. destruct (Hsucc E) as (Hval & Hnn). split; [exact Hval|].
  destruct nn as [r|]; [|exact Hnn].
  destruct Hnn as (H1 & H2 & H3 & H4 & _).
  split; [exact H1|]. split; [exact H2|]. split; [exact H3|exact H4].
Qed.

Lemma lookup_equal k k' (ls : list IAVLNode) :
  bytes_Equal k k' = true -> lookup k' ls = lookup k ls.
Proof.
  intros E. induction ls as [|x rest IH]; [reflexivity|]. cbn [lookup].
  rewrite (bytes_Equal_sym (key x) k'), (bytes_Equal_sym (key x) k).
  rewrite <- (bytes_Equal_trans_l _ _ (key x) E), IH. reflexivity.
Qed.

Lemma rank_equal k k' (ls : list IAVLNode) :
  bytes_Equal k k' = true -> rank k' ls = rank k ls.
Proof.
  intros E. induction ls as [|x rest IH]; [reflexivity|].
  rewrite !rank_cons, IH, (bytes_Equal_klt_r _ _ (key x) E). reflexivity.
Qed.

Lemma lookup_del_other k k' ls :
  bytes_Equal k k' = false -> lookup k' (del k ls) = lookup k' ls.
Proof.
  intros E. induction ls as [|x rest IH]; [reflexivity|]. cbn [del lookup].
  destruct (bytes_Equal k (key x)) eqn:Ex.
  - rewrite bytes_Equal_sym in Ex.
    rewrite (bytes_Equal_trans_l _ _ k' Ex), E. reflexivity.
  - cbn [lookup]. rewrite IH. reflexivity.
Qed.

Lemma rank_del_same k ls : rank k (del k ls) = rank k ls.
Proof.
  induction ls as [|x rest IH]; [reflexivity|]. cbn [del].
  destruct (bytes_Equal k (key x)) eqn:Ex.
  - rewrite rank_cons.
    rewrite bytes_Equal_sym in Ex.
    rewrite (bytes_Equal_klt_l _ _ k Ex), klt_irrefl. reflexivity.
  - rewrite !rank_cons, IH. reflexivity.
Qed.

(** A key is found once at most among the leaves of a tree with its keys
    in order. *)
Lemma lookup_del_same n :
  forall k, ordered n = true -> lookup k (del k (leaves n)) = None.
Proof.
  induction n as [n IHl IHr] using IAVLNode_tree_ind.
  intros k On. rewrite leaves_unfold. destruct (isLeaf n) eqn:Hleaf.
  - cbn [del]. destruct (bytes_Equal k (key n)) eqn:E; [reflexivity|].
    cbn [lookup]. rewrite bytes_Equal_sym, E. reflexivity.
  - rewrite ordered_unfold, Hleaf in On. cbn [orb] in On.
    destruct (leftNode n) as [l|] eqn:El; [|discriminate].
    destruct (rightNode n) as [r|] eqn:Er; [|discriminate].
    destruct (ordered_inner n (l := l) (r := r)) as (Ol & Or & Lt & Ge);
      [rewrite ordered_unfold, Hleaf, El, Er; exact On|exact Hleaf
      |exact El|exact Er|].
    destruct (klt k (key n)) eqn:Hlt.
    + rewrite (@del_app_left k (key n) (leaves l) (leaves r) Hlt Ge).
      rewrite lookup_app, (IHl l eq_refl k Ol).
      apply (@lookup_below k (key n) (leaves r) Hlt Ge).
    + pose proof (klt_false_kle _ _ Hlt) as Hge.
      rewrite (@del_app_right k (key n) (leaves l) (leaves r) Lt Hge).
      rewrite lookup_app, (@lookup_above k (key n) (leaves l) Lt Hge).
      apply (IHr r eq_refl k Or).
Qed.

(** X16.  On a search tree [remove] returns without panic.  [removed] tells
    whether a leaf with the key was there, and the value returned is the
    value of that leaf (nil when there is none).  When the node is the leaf
    with the key, neither a hash nor a node is returned.  When an entry is
    removed below an inner node, the node returned is a search tree again,
    its height is the old height or one less, and its size is one less. *)
Theorem remove_keeps_the_search_tree :
  forall fuel node k t,
    search_tree node -> (depth node <= fuel)%nat ->
    exists newHash newNode newKey val removed t',
      remove fuel node k t
      = Ok (newHash, newNode, newKey, val, removed, t') /\
      removed = is_some (lookup k (leaves node)) /\
      val = found_value (lookup k (leaves node)) /\
      (removed = true ->
       match newNode with
       | None => isLeaf node = true /\ newHash = None
       | Some r =>
           isLeaf node = false /\ search_tree r /\
           height node - 1 <= height r <= height node /\
           size r = size node - 1
       end).
Proof.
  intros fuel node k t Tn Hd.
  destruct (@remove_on_search_tree fuel node k t Tn Hd)
    as (h & nn & nk & val & rem & t' & Hrem & Hr & Hsucc).
  exists h, nn, nk, val, rem, t'. split; [exact Hrem|]. split; [exact Hr|].
  destruct rem.
  - destruct (Hsucc eq_refl) as (Hval & Hnn). split; [exact Hval|]. intros _.
    destruct nn as [r|].
    + destruct Hnn as (Tr & Lr & Hh & _).
      destruct (search_tree_facts Tr) as (_ & _ & (x & rest & Lx)).
      assert (Hsize : size r = size node - 1).
      { destruct Tr as (_ & _ & Sr). destruct Tn as (_ & _ & Sn).
        rewrite (sized_counts_leaves _ Sr), (sized_counts_leaves _ Sn), Lr.
        rewrite length_del, <- Hr. reflexivity. }
      split; [|split; [exact Tr|split; [exact Hh|exact Hsize]]].
      destruct (isLeaf node) eqn:Hleaf; [|reflexivity].
      destruct Tn as (_ & _ & Sn). rewrite (sized_leaf _ Sn Hleaf) in Hsize.
      destruct Tr as (_ & _ & Sr). pose proof (sized_positive _ Sr). lia.
    + destruct Hnn as (-> & Hleaf). split; [exact Hleaf|reflexivity].
  - destruct (remove_absent _ _ _ _ Hrem) as (_ & _ & _ & -> & _).
    split; [|discriminate]. destruct (lookup k (leaves node)); [discriminate|].
    reflexivity.
Qed.

Lemma remove_keeps_the_search_tree_witness :
  exists newHash newNode newKey val removed t',
    remove 3 S3_tree (bs "b") stub
    = Ok (newHash, newNode, newKey, val, removed, t') /\
    removed = is_some (lookup (bs "b") (leaves S3_tree)) /\
    val = found_value (lookup (bs "b") (leaves S3_tree)) /\
    (removed = true ->
     match newNode with
     | None => isLeaf S3_tree = true /\ newHash = None
     | Some r =>
         isLeaf S3_tree = false /\ search_tree r /\
         height S3_tree - 1 <= height r <= height S3_tree /\
         size r = size S3_tree - 1
     end).
Proof.
  apply remove_keeps_the_search_tree.
  - unfold search_tree. repeat split; reflexivity.
  - simpl. lia.
Defined.

(** X17.  When [remove] removes an entry below an inner node of a search
    tree, the leaves of the node it returns are the old leaves without the
    leaf with the key, in the same order. *)
Theorem remove_deletes_from_the_leaves :
  forall fuel node k t,
    search_tree node -> (depth node <= fuel)%nat -> isLeaf node = false ->
    exists newHash newNode newKey val removed t',
      remove fuel node k t
      = Ok (newHash, newNode, newKey, val, removed, t') /\
      exists r, newNode = Some r /\ leaves r = del k (leaves node).
Proof.
  intros fuel node k t Tn Hd Hinner.
  destruct (@remove_on_search_tree fuel node k t Tn Hd)
    as (h & nn & nk & val & rem & t' & Hrem & Hr & Hsucc).
  exists h, nn, nk, val, rem, t'. split; [exact Hrem|].
  destruct rem.
  - destruct (Hsucc eq_refl) as (_ & Hnn). destruct nn as [r|].
    + exists r. split; [reflexivity|]. apply Hnn.
    + destruct Hnn as (_ & Hleaf). congruence.
  - destruct (remove_absent _ _ _ _ Hrem) as (_ & -> & _).
    exists node. split; [reflexivity|]. symmetry. apply del_absent.
    destruct (lookup k (leaves node)); [discriminate|reflexivity].
Qed.

Lemma remove_deletes_from_the_leaves_witness :
  exists newHash newNode newKey val removed t',
    remove 3 S3_tree (bs "b") stub
    = Ok (newHash, newNode, newKey, val, removed, t') /\
    exists r, newNode = Some r /\ leaves r = del (bs "b") (leaves S3_tree).
Proof.
  apply remove_deletes_from_the_leaves.
  - unfold search_tree. repeat split; reflexivity.
  - simpl. lia.
  - reflexivity.
Defined.

(** X18.  After [remove] below an inner node of a search tree, [get] on the
    node returned does not find the key any more, and the index it gives is
    the one it gave before; for a key with other bytes it gives the value
    and the answer that it gave on the old node. *)
Theorem get_after_remove :
  forall fuel node k t,
    search_tree node -> (depth node <= fuel)%nat -> isLeaf node = false ->
    exists newHash r newKey val removed t',
      remove fuel node k t
      = Ok (newHash, Some r, newKey, val, removed, t') /\
      forall fuel' t2 k',
        (depth r <= fuel')%nat ->
        exists index index' val' found,
          get fuel t node k' = Ok (index', val', found) /\
          get fuel' t2 r k'
          = Ok (index, (if bytes_Equal k k' then None else val'),
                negb (bytes_Equal k k') && found) /\
          (bytes_Equal k k' = true -> index = index').
Proof.
  intros fuel node k t Tn Hd Hinner.
  destruct (@remove_on_search_tree fuel node k t Tn Hd)
    as (h & nn & nk & val & rem & t' & Hrem & Hr & Hsucc).
  assert (Hres : exists r, nn = Some r /\ search_tree r /\
                           leaves r = del k (leaves node)).
  { destruct rem.
    - destruct (Hsucc eq_refl) as (_ & Hnn). destruct nn as [r|].
      + exists r. split; [reflexivity|]. split; apply Hnn.
      + destruct Hnn as (_ & Hleaf). congruence.
    - destruct (remove_absent _ _ _ _ Hrem) as (_ & -> & _).
      exists node. split; [reflexivity|]. split; [exact Tn|].
      symmetry. apply del_absent.
      destruct (lookup k (leaves node)); [discriminate|reflexivity]. }
  destruct Hres as (r & -> & Tr & Lr).
  exists h, r, nk, val, rem, t'. split; [exact Hrem|].
  intros fuel' t2 k' Hd'.
  destruct Tn as (On & _ & Sn). destruct Tr as (Or & _ & Sr).
  rewrite (@get_on_ordered fuel t node k' On Sn Hd).
  rewrite (@get_on_ordered fuel' t2 r k' Or Sr Hd'), Lr.
  exists (rank k' (del k (leaves node))), (rank k' (leaves node)),
    (found_value (lookup k' (leaves node))),
    (is_some (lookup k' (leaves node))).
  split; [reflexivity|].
  destruct (bytes_Equal k k') eqn:E.
  - rewrite (@lookup_equal k k' (del k (leaves node)) E).
    rewrite (@lookup_del_same node k On).
    rewrite (@rank_equal k k' (del k (leaves node)) E).
    rewrite (@rank_equal k k' (leaves node) E), rank_del_same.
    split; [reflexivity|]. intros _. reflexivity.
  - rewrite (@lookup_del_other k k' (leaves node) E).
    split; [reflexivity|discriminate].
Qed.

Lemma get_after_remove_witness :
  exists newHash r newKey val removed t',
    remove 3 S3_tree (bs "b") stub
    = Ok (newHash, Some r, newKey, val, removed, t') /\
    forall fuel' t2 k',
      (depth r <= fuel')%nat ->
      exists index index' val' found,
        get 3 stub S3_tree k' = Ok (index', val', found) /\
        get fuel' t2 r k'
        = Ok (index, (if bytes_Equal (bs "b") k' then None else val'),
              negb (bytes_Equal (bs "b") k') && found) /\
        (bytes_Equal (bs "b") k' = true -> index = index').
Proof.
  apply get_after_remove.
  - unfold search_tree. repeat split; reflexivity.
  - simpl. lia.
  - reflexivity.
Defined.

(** X19.  [rotateRight] on a node [n] over an inner left child [l] (over
    [x] and [y]) and a right child [z] returns a new node with the key of
    [l] over [x] and a new node with the key of [n] over [y] and [z]; the
    heights and sizes of the two new nodes are computed from their
    children, and the node returned has no hash and is not persisted. *)
Theorem rotateRight_rebuilds_the_subtrees :
  forall n l x y z t,
    isLeaf n = false -> leftNode n = Some l -> rightNode n = Some z ->
    isLeaf l = false -> leftNode l = Some x -> rightNode l = Some y ->
    0 <= height x < 126 -> 0 <= height y < 126 -> 0 <= height z < 126 ->
    0 <= size x -> 0 <= size y -> 0 <= size z ->
    size x + size y + size z < 2 ^ 63 ->
    exists R m' t',
      rotateRight n t = Ok (R, t') /\
      inner_over m' (key n) y z /\ inner_over R (key l) x m' /\
      hash R = None /\ persisted R = false.
Proof.
  intros n l x y z t Hn El Ez Hl Ex Ey Hx Hy Hz Sx Sy Sz Hs.
  apply (@rotateRight_exact n l x y z t); assumption.
Qed.

Lemma rotateRight_rebuilds_witness :
  exists R m' t',
    rotateRight S3_tree stub = Ok (R, t') /\
    inner_over m' (key S3_tree) (leaf "b" "2") (leaf "c" "3") /\
    inner_over R (key S2_tree) (leaf "a" "1") m' /\
    hash R = None /\ persisted R = false.
Proof.
  apply (@rotateRight_rebuilds_the_subtrees S3_tree S2_tree
           (leaf "a" "1") (leaf "b" "2") (leaf "c" "3") stub);
    try reflexivity; cbn; lia.
Defined.

(** X20.  [rotateLeft] on a node [n] over a left child [x] and an inner
    right child [r] (over [y] and [z]) returns a new node with the key of
    [r] over a new node with the key of [n] (over [x] and [y]) and [z]; the
    heights and sizes of the two new nodes are computed from their
    children, and the node returned has no hash and is not persisted. *)
Theorem rotateLeft_rebuilds_the_subtrees :
  forall n r x y z t,
    isLeaf n = false -> leftNode n = Some x -> rightNode n = Some r ->
    isLeaf r = false -> leftNode r = Some y -> rightNode r = Some z ->
    0 <= height x < 126 -> 0 <= height y < 126 -> 0 <= height z < 126 ->
    0 <= size x -> 0 <= size y -> 0 <= size z ->
    size x + size y + size z < 2 ^ 63 ->
    exists R m' t',
      rotateLeft n t = Ok (R, t') /\
      inner_over m' (key n) x y /\ inner_over R (key r) m' z /\
      hash R = None /\ persisted R = false.
Proof.
  intros n r x y z t Hn Ex Er Hr Ey Ez Hx Hy Hz Sx Sy Sz Hs.
  apply (@rotateLeft_exact n r x y z t); assumption.
Qed.

Lemma rotateLeft_rebuilds_witness :
  exists R m' t',
    rotateLeft
      {| key := bs "b"; value := None; version := 0; height := 2; size := 3;
         hash := None; leftHash := None; leftNode := Some (leaf "a" "1");
         rightHash := None;
         rightNode := Some (newInner (bs "c") (leaf "b" "2") (leaf "c" "3"));
         persisted := false |} stub
    = Ok (R, t') /\
    inner_over m' (bs "b") (leaf "a" "1") (leaf "b" "2") /\
    inner_over R (bs "c") m' (leaf "c" "3") /\
    hash R = None /\ persisted R = false.
Proof.
  apply (@rotateLeft_rebuilds_the_subtrees
           {| key := bs "b"; value := None; version := 0; height := 2;
              size := 3; hash := None; leftHash := None;
              leftNode := Some (leaf "a" "1"); rightHash := None;
              rightNode :=
                Some (newInner (bs "c") (leaf "b" "2") (leaf "c" "3"));
              persisted := false |}
           (newInner (bs "c") (leaf "b" "2") (leaf "c" "3"))
           (leaf "a" "1") (leaf "b" "2") (leaf "c" "3") stub);
    try reflexivity; cbn; lia.
Defined.

(** X21.  [balance] on an unpersisted node over two search trees, with the
    left keys below its key and the right keys not, whose heights differ by
    2 at most, returns without panic a search tree with the same leaves in
    the same order.  The node is returned as it is when the heights differ
    by 1 at most; otherwise the height of the result is the height of the
    node or one less. *)
Theorem balance_restores_the_search_tree :
  forall m k l r t,
    inner_over m k l r -> persisted m = false ->
    search_tree l -> search_tree r ->
    all_below (leaves l) k -> none_below k (leaves r) ->
    Z.abs (height l - height r) <= 2 ->
    size l + size r < 2 ^ 63 ->
    exists R t',
      balance m t = Ok (R, t') /\
      search_tree R /\ leaves R = leaves l ++ leaves r /\
      (Z.abs (height l - height r) <= 1 -> R = m) /\
      height m - 1 <= height R <= height m.
Proof.
  intros m k l r t Hm Hp Tl Tr Lt Ge Hb Hs.
  pose proof (search_tree_height_le Tl). pose proof (search_tree_height_le Tr).
  apply (@balance_on_search_trees m k l r t); try assumption; lia.
Qed.

Lemma balance_restores_witness :
  exists R t',
    balance
      {| key := bs "d"; value := None; version := 0; height := 3; size := 4;
         hash := None; leftHash := None; leftNode := Some S3_tree;
         rightHash := None; rightNode := Some (leaf "d" "4");
         persisted := false |} stub
    = Ok (R, t') /\
    search_tree R /\ leaves R = leaves S3_tree ++ leaves (leaf "d" "4") /\
    (Z.abs (height S3_tree - height (leaf "d" "4")) <= 1 ->
     R = {| key := bs "d"; value := None; version := 0; height := 3;
            size := 4; hash := None; leftHash := None;
            leftNode := Some S3_tree; rightHash := None;
            rightNode := Some (leaf "d" "4"); persisted := false |}) /\
    height {| key := bs "d"; value := None; version := 0; height := 3;
              size := 4; hash := None; leftHash := None;
              leftNode := Some S3_tree; rightHash := None;
              rightNode := Some (leaf "d" "4"); persisted := false |} - 1
    <= height R
    <= height {| key := bs "d"; value := None; version := 0; height := 3;
                 size := 4; hash := None; leftHash := None;
                 leftNode := Some S3_tree; rightHash := None;
                 rightNode := Some (leaf "d" "4"); persisted := false |}.
Proof.
  apply (@balance_restores_the_search_tree _ (bs "d") S3_tree (leaf "d" "4")).
  - unfold inner_over. repeat split; reflexivity.
  - reflexivity.
  - unfold search_tree. repeat split; reflexivity.
  - unfold search_tree. repeat split; reflexivity.
  - intros x Hx. vm_compute in Hx.
    destruct Hx as [<-|[<-|[<-|[]]]]; reflexivity.
  - intros x Hx. vm_compute in Hx. destruct Hx as [<-|[]]. reflexivity.
  - vm_compute. discriminate.
  - reflexivity.
Defined.

(** ** [has] on a search tree *)

Lemma lookup_in k x (ls : list IAVLNode) :
  In x ls -> bytes_Equal (key x) k = true -> is_some (lookup k ls) = true.
Proof.
  intros Hin E. induction ls as [|y rest IH]; [destruct Hin|]. cbn [lookup].
  destruct (bytes_Equal (key y) k) eqn:Ey; [reflexivity|].
  destruct Hin as [->|Hin]; [congruence|]. apply IH. exact Hin.
Qed.

Lemma has_on_search_tree fuel :
  forall t n k,
    ordered n = true -> sized n = true -> separators_ok n = true ->
    (depth n <= fuel)%nat ->
    has fuel t n k = Ok (is_some (lookup k (leaves n))).
Proof.
  induction fuel as [|fuel IH]; intros t n k On Sn Hsep Hd.
  { rewrite depth_unfold in Hd. lia. }
  cbn [has]. rewrite leaves_unfold. destruct (isLeaf n) eqn:Hleaf.
  - cbn [lookup]. destruct (bytes_Equal (key n) k); reflexivity.
  - destruct (sized_inner _ Sn Hleaf) as (l & r & El & Er & Sl & Sr & _).
    destruct (ordered_inner _ On Hleaf El Er) as (Ol & Or & Lt & Ge).
    destruct (separators_ok_inner _ Hsep Hleaf El Er) as (Hl & Hr & Hk).
    rewrite depth_unfold, El, Er in Hd. rewrite El, Er.
    destruct (bytes_Equal (key n) k) eqn:E.
    + f_equal. symmetry. apply (@lookup_in k (leftmost r)).
      * apply in_or_app. right. apply leftmost_in_leaves.
        apply sized_resident. exact Sr.
      * rewrite <- (bytes_Equal_trans_l _ _ k Hk). exact E.
    + rewrite lookup_app. destruct (bytes_Compare k (key n) <? 0) eqn:Hlt.
      * unfold getLeftNode. rewrite El. cbn [bindO].
        rewrite (IH t l k Ol Sl Hl) by lia.
        rewrite (@lookup_below k (key n) (leaves r) Hlt Ge), option_same.
        reflexivity.
      * pose proof (klt_false_kle _ _ Hlt) as Hge.
        unfold getRightNode. rewrite Er. cbn [bindO].
        rewrite (IH t r k Or Sr Hr) by lia.
        rewrite (@lookup_above k (key n) (leaves l) Lt Hge). reflexivity.
Qed.

(** X22.  On a resident tree with its keys in order, its sizes right and
    every separator equal to the first key of its right subtree, [has] and
    [get] agree: [has] answers what [get] gives as its third result. *)
Theorem has_agrees_with_get :
  forall fuel t node k,
    ordered node = true -> sized node = true -> separators_ok node = true ->
    (depth node <= fuel)%nat ->
    exists index val found,
      get fuel t node k = Ok (index, val, found) /\
      has fuel t node k = Ok found.
Proof.
  intros fuel t node k On Sn Hsep Hd.
  exists (rank k (leaves node)), (found_value (lookup k (leaves node))),
    (is_some (lookup k (leaves node))).
  split.
  - apply get_on_ordered; assumption.
  - apply has_on_search_tree; assumption.
Qed.

Lemma has_agrees_with_get_witness :
  exists index val found,
    get 3 stub S3_tree (bs "b") = Ok (index, val, found) /\
    has 3 stub S3_tree (bs "b") = Ok found.
Proof.
  apply has_agrees_with_get.
  - reflexivity.
  - reflexivity.
  - reflexivity.
  - simpl. lia.
Defined.

(** ** Storing and loading a node *)

Lemma nodes_unfold n :
  nodes n
  = if isLeaf n then [n]
    else n :: match leftNode n with Some l => nodes l | None => [] end
           ++ match rightNode n with Some r => nodes r | None => [] end.
Proof. destruct n; reflexivity. Qed.

Section Storing.
Context {wire : WireCodec} {hasher : Hasher}.

Lemma hash_linked_writeBytes n :
  hash_linked n = true ->
  forall m, In m (nodes n) -> exists w, writeBytes m = Ok (w, len w).
Proof.
  induction n as [n IHl IHr] using IAVLNode_tree_ind.
  intros H m Hm. rewrite nodes_unfold in Hm.
  rewrite hash_linked_unfold in H. apply andb_prop in H. destruct H as [_ H].
  destruct (isLeaf n) eqn:Hleaf.
  - destruct Hm as [<-|[]]. unfold writeBytes. rewrite Hleaf.
    eexists. reflexivity.
  - cbn [orb] in H. apply andb_prop in H. destruct H as [Hl Hr].
    destruct (leftNode n) as [l|] eqn:El; [|discriminate].
    destruct (rightNode n) as [r|] eqn:Er; [|discriminate].
    apply andb_prop in Hl. destruct Hl as [Hl Nl].
    apply andb_prop in Hl. destruct Hl as [Hl _].
    apply andb_prop in Hr. destruct Hr as [Hr Nr].
    apply andb_prop in Hr. destruct Hr as [Hr _].
    destruct Hm as [<-|Hm].
    + unfold writeBytes. rewrite Hleaf.
      destruct (is_nil (leftHash n)); [discriminate|].
      destruct (is_nil (rightHash n)); [discriminate|].
      eexists. reflexivity.
    + apply in_app_or in Hm. destruct Hm as [Hm|Hm].
      * apply (IHl l eq_refl Hl m Hm).
      * apply (IHr r eq_refl Hr m Hm).
Qed.

(** X23.  A resident tree in which no hash is stored cannot be written
    before it is hashed: [writeBytes] on an inner node of it panics, for
    the left hash that is nil.  After [hashWithCount] on the root,
    [writeBytes] returns the bytes of every node of the tree. *)
Theorem writeBytes_needs_hashWithCount :
  forall n,
    tidy n = true ->
    (isLeaf n = false -> writeBytes n = Panicked PanicStoreLeftNil) /\
    exists n' h,
      hashWithCount n = Ok (n', Some h, count_nodes n) /\
      forall m, In m (nodes n') -> exists w, writeBytes m = Ok (w, len w).
Proof.
  intros n Ht. split.
  - intros Hleaf. unfold writeBytes. rewrite Hleaf.
    destruct (tidy_fields _ Ht) as (_ & -> & _). reflexivity.
  - destruct (@tidy_has_a_hash _ _ _ Ht) as (h & c & Hh).
    unfold hash_and_count in Hh.
    destruct (hashWithCount n) as [[[n' h'] c']| |] eqn:H; try discriminate.
    injection Hh as -> ->.
    destruct (hashWithCount_result _ H) as (_ & _ & _ & _ & Hc).
    destruct (Hc Ht) as [-> Hl].
    exists n', h. split; [reflexivity|].
    apply hash_linked_writeBytes. exact Hl.
Qed.

(** X24.  A node that [MakeIAVLNode] returns has the first byte of the
    input as its height, no hash, no children in memory, and is not
    persisted; a leaf has no child hashes and an inner node has no
    value. *)
Theorem MakeIAVLNode_returns_a_bare_node :
  forall buf node,
    MakeIAVLNode buf = Ok (Decoded node) ->
    hash node = None /\ persisted node = false /\
    leftNode node = None /\ rightNode node = None /\
    (exists b0 rest, buf = b0 :: rest /\ height node = int8 (byte_val b0)) /\
    (if isLeaf node then leftHash node = None /\ rightHash node = None
     else value node = None).
Proof.
  intros buf node H. unfold MakeIAVLNode in H.
  destruct buf as [|b0 rest]; [discriminate|].
  destruct (slice_from 1 (b0 :: rest)) as [b1| |]; try discriminate.
  cbn [bindO] in H.
  destruct (GetVarint b1) as [[sz n1]|e]; [|discriminate].
  cbn [bindG] in H.
  destruct (slice_from n1 b1) as [b2| |]; try discriminate.
  cbn [bindO] in H.
  destruct (GetByteSlice b2) as [[k n2]|e]; [|discriminate].
  cbn [bindG] in H.
  destruct (slice_from n2 b2) as [b3| |]; try discriminate.
  cbn [bindO] in H.
  destruct (GetUint64 b3) as [ve| |]; try discriminate.
  cbn [bindO] in H.
  destruct (slice_from 8 b3) as [b4| |]; try discriminate.
  cbn [bindO] in H.
  destruct (int8 (byte_val b0) =? 0) eqn:Hh.
  - destruct (GetByteSlice b4) as [[v n3]|e]; [|discriminate].
    cbn [bindG] in H. injection H as <-.
    unfold isLeaf. cbn. rewrite Hh.
    repeat split. exists b0, rest. split; reflexivity.
  - destruct (GetByteSlice b4) as [[lh n3]|e]; [|discriminate].
    cbn [bindG] in H.
    destruct (slice_from n3 b4) as [b5| |]; try discriminate.
    cbn [bindO] in H.
    destruct (GetByteSlice b5) as [[rh n4]|e]; [|discriminate].
    cbn [bindG] in H. injection H as <-.
    unfold isLeaf. cbn. rewrite Hh.
    repeat split. exists b0, rest. split; reflexivity.
Qed.
End Storing.

Lemma writeBytes_needs_hashWithCount_witness :
  (isLeaf S2_tree = false ->
   writeBytes (wire := GoWire.codec) S2_tree = Panicked PanicStoreLeftNil) /\
  exists n' h,
    hashWithCount (wire := GoWire.codec) (hasher := Ripemd160.digest) S2_tree
    = Ok (n', Some h, count_nodes S2_tree) /\
    forall m, In m (nodes n') ->
              exists w, writeBytes (wire := GoWire.codec) m = Ok (w, len w).
Proof.
  apply (@writeBytes_needs_hashWithCount GoWire.codec Ripemd160.digest S2_tree).
  reflexivity.
Defined.

Lemma MakeIAVLNode_bare_witness :
  hash (leaf "a" "1") = None /\ persisted (leaf "a" "1") = false /\
  leftNode (leaf "a" "1") = None /\ rightNode (leaf "a" "1") = None /\
  (exists b0 rest,
      [x00; x01; x01; x01; x01; x61; x00; x00; x00; x00; x00; x00; x00; x00;
       x01; x01; x31] = b0 :: rest /\
      height (leaf "a" "1") = int8 (byte_val b0)) /\
  (if isLeaf (leaf "a" "1")
   then leftHash (leaf "a" "1") = None /\ rightHash (leaf "a" "1") = None
   else value (leaf "a" "1") = None).
Proof.
  apply (@MakeIAVLNode_returns_a_bare_node GoWire.codec
           [x00; x01; x01; x01; x01; x61; x00; x00; x00; x00; x00; x00; x00;
            x00; x01; x01; x31]).
  vm_compute. reflexivity.
Defined.

(** X25.  On a search tree in which every separator is the first key of
    its right subtree, [set] keeps that: the separators of the node it
    returns are the first keys of their right subtrees again.  [has] on the
    node returned finds the key that was set, and for a key with other
    bytes it answers what it answered on the old node. *)
Theorem set_keeps_the_separators :
  forall fuel node k v t,
    search_tree node -> separators_ok node = true ->
    size node < 2 ^ 63 - 1 -> (depth node <= fuel)%nat ->
    exists newSelf updated orphaned t',
      set fuel node k v t = Ok (newSelf, updated, orphaned, t') /\
      separators_ok newSelf = true /\
      forall fuel' t2 k',
        (depth newSelf <= fuel')%nat ->
        exists found,
          has fuel t node k' = Ok found /\
          has fuel' t2 newSelf k' = Ok (bytes_Equal k k' || found).
Proof.
  intros fuel node k v t Tn Qn Hs Hd.
  pose proof (search_tree_height_le Tn) as Hh.
  destruct (@set_on_search_tree_sep fuel node k v t Tn)
    as (r & u & o & t' & Hset & Tr & Lr & _ & _ & _ & Hsep);
    [lia|exact Hs|exact Hd|].
  exists r, u, o, t'. split; [exact Hset|]. split; [exact (Hsep Qn)|].
  intros fuel' t2 k' Hd'.
  destruct Tn as (On & _ & Sn). destruct Tr as (Or & _ & Sr).
  exists (is_some (lookup k' (leaves node))).
  split; [apply has_on_search_tree; assumption|].
  rewrite (@has_on_search_tree fuel' t2 r k' Or Sr (Hsep Qn) Hd'), Lr.
  destruct (bytes_Equal k k') eqn:E.
  - rewrite (@lookup_ins_same k k' v (leaves node) E). reflexivity.
  - rewrite (@lookup_ins_other k k' v (leaves node) E). reflexivity.
Qed.

Lemma set_keeps_the_separators_witness :
  exists newSelf updated orphaned t',
    set 3 S3_tree (bs "bb") (bs "9") stub
    = Ok (newSelf, updated, orphaned, t') /\
    separators_ok newSelf = true /\
    forall fuel' t2 k',
      (depth newSelf <= fuel')%nat ->
      exists found,
        has 3 stub S3_tree k' = Ok found /\
        has fuel' t2 newSelf k' = Ok (bytes_Equal (bs "bb") k' || found).
Proof.
  apply set_keeps_the_separators.
  - unfold search_tree. repeat split; reflexivity.
  - reflexivity.
  - reflexivity.
  - simpl. lia.
Defined.

(** X26.  On such a tree, [remove] below an inner node keeps the
    separators as well.  When an entry was removed, a [newKey] that is not
    nil is the first key of the node returned, and with a nil [newKey] the
    first key is the one it was.  [has] on the node returned does not find
    the key any more, and for a key with other bytes it answers what it
    answered on the old node. *)
Theorem remove_keeps_the_separators :
  forall fuel node k t,
    search_tree node -> separators_ok node = true ->
    (depth node <= fuel)%nat -> isLeaf node = false ->
    exists newHash r newKey val removed t',
      remove fuel node k t
      = Ok (newHash, Some r, newKey, val, removed, t') /\
      separators_ok r = true /\
      (removed = true -> is_nil newKey = false ->
       bytes_Equal newKey (key (leftmost r)) = true) /\
      (is_nil newKey = true ->
       bytes_Equal (key (leftmost r)) (key (leftmost node)) = true) /\
      forall fuel' t2 k',
        (depth r <= fuel')%nat ->
        exists found,
          has fuel t node k' = Ok found /\
          has fuel' t2 r k' = Ok (negb (bytes_Equal k k') && found).
Proof.
  intros fuel node k t Tn Qn Hd Hinner.
  destruct (@remove_on_search_tree_sep fuel node k t Tn Hd)
    as (h & nn & nk & val & rem & t' & Hrem & Hr & Hsucc).
  assert (Hres : exists r,
            nn = Some r /\ search_tree r /\ leaves r = del k (leaves node) /\
            separators_ok r = true /\
            (rem = true -> is_nil nk = false ->
             bytes_Equal nk (key (leftmost r)) = true) /\
            (is_nil nk = true ->
             bytes_Equal (key (leftmost r)) (key (leftmost node)) = true)).
  { destruct rem.
    - destruct (Hsucc eq_refl) as (_ & Hnn). destruct nn as [r|].
      + destruct Hnn as (Tr & Lr & _ & _ & Hsep).
        destruct (Hsep Qn) as (Qr & Q1 & Q2).
        exists r. split; [reflexivity|]. split; [exact Tr|].
        split; [exact Lr|]. split; [exact Qr|].
        split; [intros _; exact Q1|exact Q2].
      + destruct Hnn as (_ & Hleaf). congruence.
    - destruct (remove_absent _ _ _ _ Hrem) as (_ & -> & _).
      exists node. split; [reflexivity|]. split; [exact Tn|].
      split.
      { symmetry. apply del_absent.
        destruct (lookup k (leaves node)); [discriminate|reflexivity]. }
      split; [exact Qn|]. split; [discriminate|].
      intros _. apply bytes_Equal_refl. }
  destruct Hres as (r & -> & Tr & Lr & Qr & Q1 & Q2).
  exists h, r, nk, val, rem, t'. split; [exact Hrem|]. split; [exact Qr|].
  split; [exact Q1|]. split; [exact Q2|].
  intros fuel' t2 k' Hd'.
  destruct Tn as (On & _ & Sn). destruct Tr as (Or & _ & Sr).
  exists (is_some (lookup k' (leaves node))).
  split; [apply has_on_search_tree; assumption|].
  rewrite (@has_on_search_tree fuel' t2 r k' Or Sr Qr Hd'), Lr.
  destruct (bytes_Equal k k') eqn:E.
  - rewrite (@lookup_equal k k' (del k (leaves node)) E).
    rewrite (@lookup_del_same node k On). reflexivity.
  - rewrite (@lookup_del_other k k' (leaves node) E). reflexivity.
Qed.

Lemma remove_keeps_the_separators_witness :
  exists newHash r newKey val removed t',
    remove 3 S3_tree (bs "c") stub
    = Ok (newHash, Some r, newKey, val, removed, t') /\
    separators_ok r = true /\
    (removed = true -> is_nil newKey = false ->
     bytes_Equal newKey (key (leftmost r)) = true) /\
    (is_nil newKey = true ->
     bytes_Equal (key (leftmost r)) (key (leftmost S3_tree)) = true) /\
    forall fuel' t2 k',
      (depth r <= fuel')%nat ->
      exists found,
        has 3 stub S3_tree k' = Ok found /\
        has fuel' t2 r k' = Ok (negb (bytes_Equal (bs "c") k') && found).
Proof.
  apply remove_keeps_the_separators.
  - unfold search_tree. repeat split; reflexivity.
  - reflexivity.
  - simpl. lia.
  - reflexivity.
Defined.

(** ** Stored hashes *)

Section CachedFacts.
Context {wire : WireCodec} {hasher : Hasher}.

Lemma cached_ok_unfold n :
  cached_ok n
  = (match hash n with
     | Some h =>
         exists c, hash_and_count (hashWithCount (strip n)) = Ok (Some h, c)
     | None => True
     end /\
     match leftNode n with Some l => cached_ok l | None => isLeaf n = true end /\
     match rightNode n with Some r => cached_ok r | None => isLeaf n = true end).
Proof. destruct n; reflexivity. Qed.

Lemma cached_ok_children n :
  cached_ok n -> isLeaf n = false ->
  exists l r, leftNode n = Some l /\ rightNode n = Some r /\
              cached_ok l /\ cached_ok r.
Proof.
  rewrite cached_ok_unfold. intros (_ & Hl & Hr) Hleaf.
  destruct (leftNode n) as [l|]; [|congruence].
  destruct (rightNode n) as [r|]; [|congruence].
  exists l, r. auto.
Qed.

Lemma cached_ok_fresh n l r :
  hash n = None -> leftNode n = Some l -> rightNode n = Some r ->
  cached_ok l -> cached_ok r -> cached_ok n.
Proof.
  intros Hh El Er Hl Hr. rewrite cached_ok_unfold, Hh, El, Er. auto.
Qed.

Lemma cached_ok_NewIAVLNode k v : cached_ok (NewIAVLNode k v).
Proof. rewrite cached_ok_unfold. cbn. auto. Qed.

Lemma strip_fields n :
  height (strip n) = height n /\ size (strip n) = size n /\
  key (strip n) = key n /\ value (strip n) = value n /\
  version (strip n) = version n /\ hash (strip n) = None /\
  isLeaf (strip n) = isLeaf n /\
  leftNode (strip n)
  = match leftNode n with Some l => Some (strip l) | None => None end /\
  rightNode (strip n)
  = match rightNode n with Some r => Some (strip r) | None => None end.
Proof. destruct n. cbn. repeat split. Qed.

Lemma cached_ok_tidy_strip n : cached_ok n -> tidy (strip n) = true.
Proof.
  induction n as [n IHl IHr] using IAVLNode_tree_ind.
  rewrite cached_ok_unfold. intros (_ & Hl & Hr).
  destruct (strip_fields n) as (_ & _ & _ & _ & _ & _ & Hleaf & El & Er).
  rewrite tidy_unfold, El, Er, Hleaf.
  rewrite (strip_unfold n). cbn [hash leftHash rightHash is_nil andb].
  destruct (leftNode n) as [l|].
  - rewrite (IHl l eq_refl Hl). destruct (rightNode n) as [r|].
    + rewrite (IHr r eq_refl Hr). reflexivity.
    + rewrite Hr. reflexivity.
  - rewrite Hl. destruct (rightNode n) as [r|].
    + rewrite (IHr r eq_refl Hr). reflexivity.
    + reflexivity.
Qed.

(** A hash that is computed with stored hashes that are right is the hash
    computed without them. *)
Lemma cached_hash n :
  cached_ok n ->
  forall h c0,
    hash_and_count (hashWithCount (strip n)) = Ok (h, c0) ->
    exists c, hash_and_count (hashWithCount n) = Ok (h, c).
Proof.
  induction n as [n IHl IHr] using IAVLNode_tree_ind.
  intros Hc h c0 H. rewrite cached_ok_unfold in Hc.
  destruct Hc as (Hh & Hl & Hr).
  rewrite (hashWithCount_by_bytes n).
  destruct (hash n) as [h1|] eqn:E.
  - destruct Hh as (c1 & Hh). rewrite Hh in H. injection H as <- _.
    exists 0. reflexivity.
  - rewrite hashWithCount_by_bytes in H.
    destruct (strip_fields n)
      as (F1 & F2 & F3 & F4 & F5 & F6 & F7 & F8 & F9).
    rewrite F6 in H.
    rewrite writeHashBytes_by_children in H.
    rewrite writeHashBytes_by_children.
    rewrite F1, F2, F3, F4, F5, F7, F8, F9 in H.
    destruct (isLeaf n) eqn:Hleaf.
    + exists c0. exact H.
    + destruct (leftNode n) as [l|]; [|congruence].
      destruct (rightNode n) as [r|]; [|congruence].
      cbn [child_hash_count] in H |- *.
      destruct (hash_and_count (hashWithCount (strip l)))
        as [[lh lc]| |] eqn:Hsl; try discriminate.
      destruct (IHl l eq_refl Hl lh lc Hsl) as (lc' & Hl').
      rewrite Hl'. cbn [bindO] in H |- *.
      destruct (is_nil lh); [discriminate|].
      destruct (hash_and_count (hashWithCount (strip r)))
        as [[rh rc]| |] eqn:Hsr; try discriminate.
      destruct (IHr r eq_refl Hr rh rc Hsr) as (rc' & Hr').
      rewrite Hr'. cbn [bindO] in H |- *.
      destruct (is_nil rh); [discriminate|].
      cbn [bindO] in H |- *. injection H as <- _.
      eexists. reflexivity.
Qed.

Lemma cached_hash_returns n :
  cached_ok n ->
  exists h c c0,
    hash_and_count (hashWithCount n) = Ok (Some h, c) /\
    hash_and_count (hashWithCount (strip n)) = Ok (Some h, c0).
Proof.
  intros Hc.
  destruct (@tidy_has_a_hash _ _ _ (cached_ok_tidy_strip _ Hc)) as (h & c0 & H0).
  destruct (@cached_hash n Hc (Some h) c0 H0) as (c & H).
  exists h, c, c0. split; assumption.
Qed.
End CachedFacts.

(** ** The operations keep the stored hashes right *)

Lemma getLeftNode_resident t n l : leftNode n = Some l -> getLeftNode t n = Ok l.
Proof. intros E. unfold getLeftNode. rewrite E. reflexivity. Qed.

Lemma getRightNode_resident t n r :
  rightNode n = Some r -> getRightNode t n = Ok r.
Proof. intros E. unfold getRightNode. rewrite E. reflexivity. Qed.

Section CachedUpdates.
Context {wire : WireCodec} {hasher : Hasher}.

Lemma calcHeightAndSize_cached t n n' l r :
  calcHeightAndSize t n = Ok n' ->
  hash n = None -> leftNode n = Some l -> rightNode n = Some r ->
  cached_ok l -> cached_ok r ->
  cached_ok n' /\ hash n' = None /\
  leftNode n' = Some l /\ rightNode n' = Some r.
Proof.
  intros H Hh El Er Hl Hr.
  destruct (calcHeightAndSize_keeps _ _ H) as (Hh' & _ & _ & _ & El' & Er').
  rewrite Hh in Hh'. rewrite El in El'. rewrite Er in Er'.
  split; [apply (@cached_ok_fresh _ _ n' l r Hh' El' Er' Hl Hr)|]. auto.
Qed.

Lemma rotateRight_cached n l r t R t' :
  leftNode n = Some l -> rightNode n = Some r ->
  cached_ok l -> cached_ok r ->
  rotateRight n t = Ok (R, t') -> cached_ok R.
Proof.
  intros El Er Hl Hr H. unfold rotateRight in H.
  step_lift H as c Hc.
  destruct (@copy_Ok _ _ Hc) as (_ & _ & Hhc & _ & _ & _ & _ & _ & Lc & _ & Rc).
  rewrite El in Lc. rewrite Er in Rc.
  step_rd H as l0 Hg. rewrite (getLeftNode_resident _ _ Lc) in Hg.
  injection Hg as <-.
  step H as u s1 Ho.
  step_lift H as cl Hcl.
  destruct (@copy_Ok _ _ Hcl)
    as (Hlleaf & _ & Hhcl & _ & _ & _ & _ & _ & Lcl & _ & Rcl).
  destruct (cached_ok_children _ Hl Hlleaf) as (x & y & Ex & Ey & Hx & Hy).
  rewrite Ex in Lcl. rewrite Ey in Rcl.
  step_rd H as c' Hc'. step_rd H as cl' Hcl'.
  apply ret_Ok in H. destruct H as [-> _].
  destruct (@calcHeightAndSize_cached _ _ _ y r Hc')
    as (Hcc' & Hhc' & _); try assumption.
  destruct (@calcHeightAndSize_cached _ _ _ x c' Hcl')
    as (Hccl' & _); try assumption; reflexivity.
Qed.

Lemma rotateLeft_cached n l r t R t' :
  leftNode n = Some l -> rightNode n = Some r ->
  cached_ok l -> cached_ok r ->
  rotateLeft n t = Ok (R, t') -> cached_ok R.
Proof.
  intros El Er Hl Hr H. unfold rotateLeft in H.
  step_lift H as c Hc.
  destruct (@copy_Ok _ _ Hc) as (_ & _ & Hhc & _ & _ & _ & _ & _ & Lc & _ & Rc).
  rewrite El in Lc. rewrite Er in Rc.
  step_rd H as r0 Hg. rewrite (getRightNode_resident _ _ Rc) in Hg.
  injection Hg as <-.
  step H as u s1 Ho.
  step_lift H as cr Hcr.
  destruct (@copy_Ok _ _ Hcr)
    as (Hrleaf & _ & Hhcr & _ & _ & _ & _ & _ & Lcr & _ & Rcr).
  destruct (cached_ok_children _ Hr Hrleaf) as (y & z & Ey & Ez & Hy & Hz).
  rewrite Ey in Lcr. rewrite Ez in Rcr.
  step_rd H as c' Hc'. step_rd H as cr' Hcr'.
  apply ret_Ok in H. destruct H as [-> _].
  destruct (@calcHeightAndSize_cached _ _ _ l y Hc')
    as (Hcc' & Hhc' & _); try assumption.
  destruct (@calcHeightAndSize_cached _ _ _ c' z Hcr')
    as (Hccr' & _); try assumption; reflexivity.
Qed.

Lemma balance_cached n l r t R t' :
  hash n = None -> leftNode n = Some l -> rightNode n = Some r ->
  cached_ok l -> cached_ok r ->
  balance n t = Ok (R, t') -> cached_ok R.
Proof.
  intros Hh El Er Hl Hr H. unfold balance in H.
  destruct (persisted n); [discriminate|].
  step_rd H as b Hb.
  destruct (1 <? b).
  - step_rd H as l0 Hl0. step_rd H as lb Hlb.
    destruct (0 <=? lb);
      [apply (@rotateRight_cached n l r _ _ _ El Er Hl Hr H)|].
    step_rd H as l1 Hl1. rewrite (getLeftNode_resident _ _ El) in Hl1.
    injection Hl1 as <-.
    step H as u s1 Ho. step H as left' s2 Hrot.
    assert (Hleft' : cached_ok left').
    { unfold rotateLeft in Hrot. pose proof Hrot as Hrot'.
      step_lift Hrot' as c Hc.
      destruct (@copy_Ok _ _ Hc) as (Hlleaf & _).
      destruct (cached_ok_children _ Hl Hlleaf) as (x & y & Ex & Ey & Hx & Hy).
      apply (@rotateLeft_cached l x y _ _ _ Ex Ey Hx Hy Hrot). }
    apply (@rotateRight_cached (with_left None (Some left') n) left' r _ _ _
             eq_refl Er Hleft' Hr H).
  - destruct (b <? -1).
    + step_rd H as r0 Hr0. step_rd H as rb Hrb.
      destruct (rb <=? 0);
        [apply (@rotateLeft_cached n l r _ _ _ El Er Hl Hr H)|].
      step_rd H as r1 Hr1. rewrite (getRightNode_resident _ _ Er) in Hr1.
      injection Hr1 as <-.
      step H as u s1 Ho. step H as right' s2 Hrot.
      assert (Hright' : cached_ok right').
      { unfold rotateRight in Hrot. pose proof Hrot as Hrot'.
        step_lift Hrot' as c Hc.
        destruct (@copy_Ok _ _ Hc) as (Hrleaf & _).
        destruct (cached_ok_children _ Hr Hrleaf) as (x & y & Ex & Ey & Hx & Hy).
        apply (@rotateRight_cached r x y _ _ _ Ex Ey Hx Hy Hrot). }
      apply (@rotateLeft_cached (with_right None (Some right') n) l right' _ _ _
               El eq_refl Hl Hright' H).
    + apply ret_Ok in H. destruct H as [-> _].
      apply (@cached_ok_fresh _ _ n l r Hh El Er Hl Hr).
Qed.

Lemma set_cached fuel :
  forall n k v t r u o t',
    cached_ok n -> set fuel n k v t = Ok (r, u, o, t') -> cached_ok r.
Proof.
  induction fuel as [|fuel IH]; intros n k v t r u o t' Hn H;
    [discriminate|].
  cbn [set] in H. destruct (isLeaf n) eqn:Hleaf.
  - destruct (_ =? -1).
    { apply ret_Ok in H. destruct H as [H _]. injection H as -> _ _.
      apply (@cached_ok_fresh _ _ _ (NewIAVLNode k v) n); try reflexivity;
        [apply cached_ok_NewIAVLNode|exact Hn]. }
    destruct (_ =? 1).
    { apply ret_Ok in H. destruct H as [H _]. injection H as -> _ _.
      apply (@cached_ok_fresh _ _ _ n (NewIAVLNode k v)); try reflexivity;
        [exact Hn|apply cached_ok_NewIAVLNode]. }
    apply ret_Ok in H. destruct H as [H _]. injection H as -> _ _.
    apply cached_ok_NewIAVLNode.
  - destruct (cached_ok_children _ Hn Hleaf) as (l & x & El & Er & Hl & Hx).
    step_lift H as c Hc.
    destruct (@copy_Ok _ _ Hc) as (_ & _ & Hhc & _ & _ & _ & _ & _ & Lc & _ & Rc).
    rewrite El in Lc. rewrite Er in Rc.
    destruct (_ <? 0).
    + step_rd H as l0 Hg. rewrite (getLeftNode_resident _ _ Lc) in Hg.
      injection Hg as <-.
      step H as res t1 Hres. destruct res as [[newLeft updated] orphaned].
      pose proof (IH _ _ _ _ _ _ _ _ Hl Hres) as Hnew.
      destruct updated.
      * apply ret_Ok in H. destruct H as [H _]. injection H as -> _ _.
        apply (@cached_ok_fresh _ _ _ newLeft x); auto.
      * step_rd H as n1 Hn1. step H as n2 t2 Hn2.
        apply ret_Ok in H. destruct H as [H _]. injection H as -> _ _.
        destruct (@calcHeightAndSize_cached _ _ _ newLeft x Hn1)
          as (_ & Hh1 & El1 & Er1); auto.
        apply (@balance_cached n1 newLeft x _ _ _ Hh1 El1 Er1 Hnew Hx Hn2).
    + step_rd H as r0 Hg. rewrite (getRightNode_resident _ _ Rc) in Hg.
      injection Hg as <-.
      step H as res t1 Hres. destruct res as [[newRight updated] orphaned].
      pose proof (IH _ _ _ _ _ _ _ _ Hx Hres) as Hnew.
      destruct updated.
      * apply ret_Ok in H. destruct H as [H _]. injection H as -> _ _.
        apply (@cached_ok_fresh _ _ _ l newRight); auto.
      * step_rd H as n1 Hn1. step H as n2 t2 Hn2.
        apply ret_Ok in H. destruct H as [H _]. injection H as -> _ _.
        destruct (@calcHeightAndSize_cached _ _ _ l newRight Hn1)
          as (_ & Hh1 & El1 & Er1); auto.
        apply (@balance_cached n1 l newRight _ _ _ Hh1 El1 Er1 Hl Hnew Hn2).
Qed.
End CachedUpdates.

Section CachedMore.
Context {wire : WireCodec} {hasher : Hasher}.

Lemma remove_cached fuel :
  forall n k t nh nn nk val removed t',
    cached_ok n ->
    remove fuel n k t = Ok (nh, nn, nk, val, removed, t') ->
    (forall x, nn = Some x -> cached_ok x) /\ (nn = None -> nh = None).
Proof.
  induction fuel as [|fuel IH];
    intros n k t nh nn nk val removed t' Hn H; [discriminate|].
  cbn [remove] in H.
  assert (Hkeep : forall v' b s,
    ret (hash n, Some n, @None bytes, v', b) s
    = Ok (nh, nn, nk, val, removed, t') ->
    (forall x, nn = Some x -> cached_ok x) /\ (nn = None -> nh = None)).
  { intros v' b s E. apply ret_Ok in E. destruct E as [E _].
    injection E as -> -> _ _ _. split; [|discriminate].
    intros x Ex. injection Ex as <-. exact Hn. }
  destruct (isLeaf n) eqn:Hleaf.
  - destruct (bytes_Equal k (key n)); [|apply (Hkeep _ _ _ H)].
    step H as u s1 Ho. apply ret_Ok in H. destruct H as [H _].
    injection H as -> -> _ _ _. split; [discriminate|reflexivity].
  - destruct (cached_ok_children _ Hn Hleaf) as (l & r & El & Er & Hl & Hr).
    destruct (_ <? 0).
    + step_rd H as l0 Hg. rewrite (getLeftNode_resident _ _ El) in Hg.
      injection Hg as <-.
      step H as res t1 Hres.
      destruct res as [[[[newHash newNode] newKey] val'] removed'].
      destruct (IH _ _ _ _ _ _ _ _ _ Hl Hres) as (Hsome & Hnone).
      destruct (negb removed'); [apply (Hkeep _ _ _ H)|].
      destruct newNode as [x|].
      * replace (is_nil newHash && negb (is_some (Some x))) with false in H
          by (cbn [is_some negb]; rewrite andb_false_r; reflexivity).
        step H as u s1 Ho. step_lift H as c Hc.
        destruct (@copy_Ok _ _ Hc)
          as (_ & _ & Hhc & _ & _ & _ & _ & _ & Lc & _ & Rc).
        rewrite Er in Rc.
        step_rd H as n1 Hn1. step H as n2 t2 Hn2.
        apply ret_Ok in H. destruct H as [H _].
        injection H as -> -> _ _ _. split; [|discriminate].
        intros y Ey. injection Ey as <-.
        destruct (@calcHeightAndSize_cached _ _ _ _ _ x r Hn1)
          as (_ & Hh1 & El1 & Er1); auto.
        apply (@balance_cached _ _ n1 x r _ _ _ Hh1 El1 Er1
                 (Hsome x eq_refl) Hr Hn2).
      * rewrite (Hnone eq_refl) in H. cbn [is_nil is_some negb andb] in H.
        apply ret_Ok in H. destruct H as [H _].
        injection H as -> -> _ _ _. rewrite Er. split; [|discriminate].
        intros y Ey. injection Ey as <-. exact Hr.
    + step_rd H as r0 Hg. rewrite (getRightNode_resident _ _ Er) in Hg.
      injection Hg as <-.
      step H as res t1 Hres.
      destruct res as [[[[newHash newNode] newKey] val'] removed'].
      destruct (IH _ _ _ _ _ _ _ _ _ Hr Hres) as (Hsome & Hnone).
      destruct (negb removed'); [apply (Hkeep _ _ _ H)|].
      destruct newNode as [x|].
      * replace (is_nil newHash && negb (is_some (Some x))) with false in H
          by (cbn [is_some negb]; rewrite andb_false_r; reflexivity).
        step H as u s1 Ho. step_lift H as c Hc.
        destruct (@copy_Ok _ _ Hc)
          as (_ & _ & Hhc & _ & _ & _ & _ & _ & Lc & _ & Rc).
        rewrite El in Lc.
        step_rd H as n1 Hn1. step H as n2 t2 Hn2.
        apply ret_Ok in H. destruct H as [H _].
        injection H as -> -> _ _ _. split; [|discriminate].
        intros y Ey. injection Ey as <-.
        destruct (@calcHeightAndSize_cached _ _ _ _ _ l x Hn1)
          as (_ & Hh1 & El1 & Er1); auto;
          try (destruct (negb (is_nil newKey)); assumption);
          try (destruct (negb (is_nil newKey)); reflexivity).
        apply (@balance_cached _ _ n1 l x _ _ _ Hh1 El1 Er1
                 Hl (Hsome x eq_refl) Hn2).
      * rewrite (Hnone eq_refl) in H. cbn [is_nil is_some negb andb] in H.
        apply ret_Ok in H. destruct H as [H _].
        injection H as -> -> _ _ _. rewrite El. split; [|discriminate].
        intros y Ey. injection Ey as <-. exact Hl.
Qed.

Lemma hashWithCount_cached n :
  cached_ok n ->
  forall n' h c, hashWithCount n = Ok (n', h, c) -> cached_ok n'.
Proof.
  induction n as [n IHl IHr] using IAVLNode_tree_ind.
  intros Hc n' h c H. pose proof H as H0.
  rewrite hashWithCount_unfold in H.
  destruct (hash n) as [h0|] eqn:Hh.
  { injection H as <- _ _. exact Hc. }
  assert (Hhash : exists c',
            hash_and_count (hashWithCount (strip n')) = Ok (h, c')).
  { destruct (hashWithCount_result _ H0) as (Hs & _). rewrite Hs.
    destruct (cached_hash_returns _ Hc) as (h1 & c1 & c0 & A & B).
    unfold hash_and_count in A at 1. rewrite H0 in A. cbn [bindO] in A.
    injection A as -> _. exists c0. exact B. }
  destruct (hashWithCount_result _ H0) as (_ & _ & Hhn' & Hnil & _).
  rewrite cached_ok_unfold, Hhn'.
  destruct h as [hb|]; [|discriminate].
  split; [exact Hhash|].
  unfold writeHashBytes, writeHashBytesWith in H.
  rewrite cached_ok_unfold in Hc. destruct Hc as (_ & Hl & Hr).
  destruct (isLeaf n) eqn:Hleaf.
  - cbn [bindO] in H. injection H as <- _ _.
    change (isLeaf (with_hash _ n)) with (isLeaf n).
    cbn [with_hash leftNode rightNode]. rewrite Hleaf.
    split.
    + destruct (leftNode n); [exact Hl|reflexivity].
    + destruct (rightNode n); [exact Hr|reflexivity].
  - destruct (leftNode n) as [l|] eqn:El; [|congruence].
    destruct (rightNode n) as [r|] eqn:Er; [|congruence].
    destruct (hashWithCount l) as [[[l' lh] lc]| |] eqn:Hhl;
      cbn [bindO] in H; try discriminate.
    pose proof (IHl l eq_refl Hl _ _ _ Hhl) as Hl'.
    cbn [with_left leftHash] in H.
    destruct (is_nil lh); [discriminate|].
    destruct (hashWithCount r) as [[[r' rh] rc]| |] eqn:Hhr;
      cbn [bindO] in H; try discriminate.
    pose proof (IHr r eq_refl Hr _ _ _ Hhr) as Hr'.
    cbn [with_right rightHash] in H.
    destruct (is_nil rh); [discriminate|].
    injection H as <- _ _. cbn. split; assumption.
Qed.
End CachedMore.

Section StoredHashes.
Context {wire : WireCodec} {hasher : Hasher}.

(** X27.  When the hashes stored in a resident tree are right,
    [hashWithCount] returns, without panic, the hash that it computes for
    the tree with all stored hashes erased: using the stored hashes does
    not change the result. *)
Theorem hashWithCount_with_stored_hashes :
  forall n,
    cached_ok n ->
    exists n1 n2 h c1 c2,
      hashWithCount n = Ok (n1, Some h, c1) /\
      hashWithCount (strip n) = Ok (n2, Some h, c2).
Proof.
  intros n Hc.
  destruct (cached_hash_returns _ Hc) as (h & c1 & c2 & A & B).
  unfold hash_and_count in A, B.
  destruct (hashWithCount n) as [[[n1 h1] d1]| |]; try discriminate.
  destruct (hashWithCount (strip n)) as [[[n2 h2] d2]| |]; try discriminate.
  cbn [bindO] in A, B. injection A as -> ->. injection B as -> ->.
  exists n1, n2, h, c1, c2. split; reflexivity.
Qed.

(** X28.  [set] keeps the stored hashes right: when they are right in the
    node it is given, they are right in the node it returns, so that
    [hashWithCount] on the node returned gives the hash of the new tree
    computed with all stored hashes erased. *)
Theorem set_keeps_the_stored_hashes_right :
  forall fuel n k v t r u o t',
    cached_ok n ->
    set fuel n k v t = Ok (r, u, o, t') ->
    cached_ok r /\
    exists n1 n2 h c1 c2,
      hashWithCount r = Ok (n1, Some h, c1) /\
      hashWithCount (strip r) = Ok (n2, Some h, c2).
Proof.
  intros fuel n k v t r u o t' Hc H.
  pose proof (set_cached _ _ _ _ _ Hc H) as Hr. split; [exact Hr|].
  destruct (cached_hash_returns _ Hr) as (h & c1 & c2 & A & B).
  unfold hash_and_count in A, B.
  destruct (hashWithCount r) as [[[n1 h1] d1]| |]; try discriminate.
  destruct (hashWithCount (strip r)) as [[[n2 h2] d2]| |]; try discriminate.
  cbn [bindO] in A, B. injection A as -> ->. injection B as -> ->.
  exists n1, n2, h, c1, c2. split; reflexivity.
Qed.

(** X29.  [remove] keeps the stored hashes right: when they are right in
    the node it is given, they are right in a node it returns, and
    [hashWithCount] on that node gives the hash of the new tree computed
    with all stored hashes erased.  When it returns no node, it returns no
    hash either. *)
Theorem remove_keeps_the_stored_hashes_right :
  forall fuel n k t newHash newNode newKey val removed t',
    cached_ok n ->
    remove fuel n k t = Ok (newHash, newNode, newKey, val, removed, t') ->
    match newNode with
    | Some r =>
        cached_ok r /\
        exists n1 n2 h c1 c2,
          hashWithCount r = Ok (n1, Some h, c1) /\
          hashWithCount (strip r) = Ok (n2, Some h, c2)
    | None => newHash = None
    end.
Proof.
  intros fuel n k t newHash newNode newKey val removed t' Hc H.
  destruct (@remove_cached _ _ fuel n k t _ _ _ _ _ _ Hc H) as (Hsome & Hnone).
  destruct newNode as [r|]; [|apply Hnone; reflexivity].
  pose proof (Hsome r eq_refl) as Hr. split; [exact Hr|].
  destruct (cached_hash_returns _ Hr) as (h & c1 & c2 & A & B).
  unfold hash_and_count in A, B.
  destruct (hashWithCount r) as [[[n1 h1] d1]| |]; try discriminate.
  destruct (hashWithCount (strip r)) as [[[n2 h2] d2]| |]; try discriminate.
  cbn [bindO] in A, B. injection A as -> ->. injection B as -> ->.
  exists n1, n2, h, c1, c2. split; reflexivity.
Qed.

(** X30.  [hashWithCount] keeps the stored hashes right, and the hashes
    that it stores are right: when the stored hashes are right in the node
    it is given (as they are when none is stored), they are right in the
    node it returns. *)
Theorem hashWithCount_stores_right_hashes :
  forall n n' h c,
    cached_ok n -> hashWithCount n = Ok (n', h, c) ->
    cached_ok n' /\ hash n' = h /\ is_nil h = false.
Proof.
  intros n n' h c Hc H. split; [apply (@hashWithCount_cached _ _ n Hc n' h c H)|].
  destruct (hashWithCount_result _ H) as (_ & _ & Hh & Hnil & _).
  split; assumption.
Qed.
End StoredHashes.

Lemma S2_saved_cached :
  cached_ok (wire := GoWire.codec) (hasher := Ripemd160.digest) S2_saved.
Proof. vm_compute. repeat split; eexists; reflexivity. Qed.

Lemma hashWithCount_with_stored_hashes_witness :
  exists n1 n2 h c1 c2,
    hashWithCount (wire := GoWire.codec) (hasher := Ripemd160.digest) S2_saved
    = Ok (n1, Some h, c1) /\
    hashWithCount (wire := GoWire.codec) (hasher := Ripemd160.digest)
      (strip S2_saved)
    = Ok (n2, Some h, c2).
Proof.
  apply (@hashWithCount_with_stored_hashes GoWire.codec Ripemd160.digest
           S2_saved).
  exact S2_saved_cached.
Defined.

Lemma set_keeps_the_stored_hashes_witness :
  exists r u o t',
    set 2 S2_saved (bs "c") (bs "3") stub = Ok (r, u, o, t') /\
    cached_ok (wire := GoWire.codec) (hasher := Ripemd160.digest) r /\
    exists n1 n2 h c1 c2,
      hashWithCount (wire := GoWire.codec) (hasher := Ripemd160.digest) r
      = Ok (n1, Some h, c1) /\
      hashWithCount (wire := GoWire.codec) (hasher := Ripemd160.digest)
        (strip r)
      = Ok (n2, Some h, c2).
Proof.
  destruct (set 2 S2_saved (bs "c") (bs "3") stub)
    as [[[[r u] o] t']| |] eqn:E.
  - exists r, u, o, t'. split; [reflexivity|].
    apply (@set_keeps_the_stored_hashes_right GoWire.codec Ripemd160.digest
             2%nat S2_saved (bs "c") (bs "3") stub r u o t'
             S2_saved_cached E).
  - vm_compute in E. discriminate E.
  - vm_compute in E. discriminate E.
Defined.

Lemma remove_keeps_the_stored_hashes_witness :
  exists newHash newNode newKey val removed t',
    remove 2 S2_saved (bs "a") stub
    = Ok (newHash, newNode, newKey, val, removed, t') /\
    match newNode with
    | Some r =>
        cached_ok (wire := GoWire.codec) (hasher := Ripemd160.digest) r /\
        exists n1 n2 h c1 c2,
          hashWithCount (wire := GoWire.codec) (hasher := Ripemd160.digest) r
          = Ok (n1, Some h, c1) /\
          hashWithCount (wire := GoWire.codec) (hasher := Ripemd160.digest)
            (strip r)
          = Ok (n2, Some h, c2)
    | None => newHash = None
    end.
Proof.
  destruct (remove 2 S2_saved (bs "a") stub)
    as [[[[[[nh nn] nk] val] removed] t']| |] eqn:E.
  - exists nh, nn, nk, val, removed, t'. split; [reflexivity|].
    apply (@remove_keeps_the_stored_hashes_right GoWire.codec
             Ripemd160.digest 2%nat S2_saved (bs "a") stub
             nh nn nk val removed t' S2_saved_cached E).
  - vm_compute in E. discriminate E.
  - vm_compute in E. discriminate E.
Defined.

Lemma hashWithCount_stores_right_hashes_witness :
  exists n' h c,
    hashWithCount (wire := GoWire.codec) (hasher := Ripemd160.digest) S2_tree
    = Ok (n', h, c) /\
    cached_ok (wire := GoWire.codec) (hasher := Ripemd160.digest) n' /\
    hash n' = h /\ is_nil h = false.
Proof.
  destruct (hashWithCount (wire := GoWire.codec) (hasher := Ripemd160.digest)
              S2_tree) as [[[n' h] c]| |] eqn:E.
  - exists n', h, c. split; [reflexivity|].
    apply (@hashWithCount_stores_right_hashes GoWire.codec Ripemd160.digest
             S2_tree n' h c); [|exact E].
    vm_compute. repeat split.
  - vm_compute in E. discriminate E.
  - vm_compute in E. discriminate E.
Defined.
